(** * Model router and chunked extractor: a shallow embedding

    The development follows three source files of the repository:
    the model router (registry, telemetry store, [scoreModel],
    [selectModel], [getRoutingStats], [runDemo]), [streaming-extraction.ts]
    ([chunkText], [processChunk], the checkpoint functions,
    [reduceResults], [displayProgress], [extractLargeDocument]) and
    [model-comparison.ts], which records telemetry for the router.

    JavaScript numbers are read as exact rationals ([Q]) in the router:
    no rounding, no NaN, no infinities.  The properties of the router
    that rest on the value of an average or of a score are therefore
    stated where the exact value and the binary64 value lead to the same
    outcome: latencies in whole milliseconds ([wholeLog], under which
    [roundedMean] relates the two averages), a positive latency bound
    where a latency is divided by it, and a margin between the scores that
    are compared; where the outcome of a claim rests on the value of a
    score, the score is computed in binary64 as well ([scoreModel64]).
    Counters, indices and token estimates of the extractor are integers;
    the one quotient it computes, for the progress bar, is taken under an
    explicit rounding function ([progressBar], which also says when
    drawing the bar throws).  A run of the extractor is modelled where
    every bar can be drawn, which is where the checkpoint it resumes from
    fits the document ([fits]). *)

From Stdlib Require Import List ZArith QArith Qround Bool String Ascii Lia Arith.
From Stdlib Require Floats Uint63.
From Stdlib Require Import Lqa Permutation.
Import ListNotations.

Local Open Scope string_scope.
Local Open Scope list_scope.

(** ** Binary64 rounding *)

Module Numbers.

(** What the properties below use of binary64 rounding: it is monotone, and
    the integers up to 2^53 are doubles. *)
Definition rounding (fl : Q -> Q) : Prop :=
  (forall a b : Q, (a <= b)%Q -> (fl a <= fl b)%Q) /\
  (forall z : Z, (Z.abs z <= 2 ^ 53)%Z -> (fl (inject_Z z) == inject_Z z)%Q).

(** Arithmetic without rounding. *)
Definition unrounded (q : Q) : Q := q.

End Numbers.

(** ** The model router *)

Module Router.

Export Numbers.

Local Open Scope Q_scope.

Inductive Task := classification | summarization | reasoning | extraction.
Inductive Priority := cost | quality | balanced.
Inductive CapabilityTier := basic | standard | advanced | reasoningTier.

Record RouterConfig := mkConfig {
  task : Task;
  maxLatencyMs : Q;
  priority : Priority;
  estimatedTokens : option Q
}.

Record TaskCapabilities := mkCaps {
  capClassification : Q;
  capSummarization : Q;
  capReasoning : Q;
  capExtraction : Q
}.

Record ModelMetadata := mkModel {
  provider : string;
  model : string;
  fullName : string;
  baseCostPer1kTokens : Q;
  baseCostPer1kOutputTokens : Q;
  avgLatencyMs : Q;
  capabilityTier : CapabilityTier;
  supportsStreaming : bool;
  maxTokens : Q;
  taskCapabilities : TaskCapabilities
}.

Record CallTelemetry := mkTelemetry {
  t_model : string;
  t_task : string;
  latencyMs : Q;
  inputTokens : Q;
  outputTokens : Q;
  t_cost : Q;
  timestamp : Q;
  success : bool
}.

Definition MAX_TELEMETRY_ENTRIES : nat := 1000.

Definition gpt5mini : ModelMetadata :=
  mkModel "openai" "gpt-5-mini" "openai/gpt-5-mini" (15#100) (60#100) 500
          standard true 128000 (mkCaps (9#10) (85#100) (6#10) (9#10)).
Definition gpt5 : ModelMetadata :=
  mkModel "openai" "gpt-5" "openai/gpt-5" (250#100) 10 1500
          advanced true 128000 (mkCaps (95#100) (95#100) (85#100) (95#100)).
Definition gpt51thinking : ModelMetadata :=
  mkModel "openai" "gpt-5.1-thinking" "openai/gpt-5.1-thinking" 3 12 5000
          reasoningTier false 128000 (mkCaps (9#10) (85#100) (98#100) (9#10)).
Definition gpt4omini : ModelMetadata :=
  mkModel "openai" "gpt-4o-mini" "openai/gpt-4o-mini" (15#100) (60#100) 400
          basic true 128000 (mkCaps (85#100) (8#10) (5#10) (85#100)).

Definition MODEL_REGISTRY : list ModelMetadata :=
  [gpt5mini; gpt5; gpt51thinking; gpt4omini].

(** The telemetry store is a list in arrival order, oldest entry first. *)
Definition Store := list CallTelemetry.

(** [telemetryStore.push(t)], then [shift()] when the length exceeds the
    capacity. *)
Definition recordTelemetry (telemetry : CallTelemetry) (st : Store) : Store :=
  let st' := st ++ [telemetry] in
  if Nat.ltb MAX_TELEMETRY_ENTRIES (List.length st') then tl st' else st'.

(** [arr.slice(-n)] for a count [n]: the last [n] elements; [-0] is [0], so
    [slice(-0)] is the whole array. *)
Definition sliceLast {A} (n : nat) (l : list A) : list A :=
  match n with
  | O => l
  | _ => skipn (List.length l - n) l
  end.

Definition getModelTelemetry (st : Store) (m : string) (limit : nat)
  : list CallTelemetry :=
  rev (sliceLast limit (filter (fun t => String.eqb (t_model t) m) st)).

Definition sumQ (l : list Q) : Q := fold_left Qplus l 0.

Definition Qltb (a b : Q) : bool := negb (Qle_bool b a).

Record ModelStats := mkStats {
  s_model : string;
  callCount : nat;
  s_avgLatencyMs : Q;
  avgCost : Q;
  totalCost : Q;
  successRate : Q
}.

Definition Qlen {A} (l : list A) : Q := inject_Z (Z.of_nat (List.length l)).

(** [getModelStats]; the minimum and maximum latency fields are not read by
    the router and are left out of the record.  The sums and the quotients
    are exact here; in the source each addition and each division is
    rounded to binary64 ([roundedMean] below is the average so computed).
    On latencies in whole milliseconds the sums are exact in the source as
    well and its average is the double nearest to the one here. *)
Definition getModelStats (st : Store) (m : string) : option ModelStats :=
  let modelTelemetry := getModelTelemetry st m 100 in
  match modelTelemetry with
  | [] => None
  | _ =>
    let latencies := map latencyMs modelTelemetry in
    let costs := map t_cost modelTelemetry in
    Some (mkStats m (List.length modelTelemetry)
            (sumQ latencies / Qlen latencies)
            (sumQ costs / Qlen costs)
            (sumQ costs)
            (Qlen (filter success modelTelemetry) / Qlen modelTelemetry))
  end.

Definition estimateCost (m : ModelMetadata) (inTok outTok : Q) : Q :=
  let inputCost := (inTok / 1000) * baseCostPer1kTokens m in
  let outputCost := (outTok / 1000) * baseCostPer1kOutputTokens m in
  inputCost + outputCost.

Definition getCurrentLatency (st : Store) (m : ModelMetadata) : Q :=
  match getModelStats st (fullName m) with
  | Some stats =>
      if Nat.ltb 5 (callCount stats) then s_avgLatencyMs stats
      else avgLatencyMs m
  | None => avgLatencyMs m
  end.

Definition capabilityOf (m : ModelMetadata) (t : Task) : Q :=
  match t with
  | classification => capClassification (taskCapabilities m)
  | summarization => capSummarization (taskCapabilities m)
  | reasoning => capReasoning (taskCapabilities m)
  | extraction => capExtraction (taskCapabilities m)
  end.

Definition Qmax0 (x : Q) : Q := if Qle_bool x 0 then 0 else x.

Definition weights (p : Priority) : Q * Q * Q :=
  match p with
  | cost => (3#10, 2#10, 5#10)
  | quality => (6#10, 2#10, 2#10)
  | balanced => (4#10, 3#10, 3#10)
  end.

(** [x / 0] is [0] in [Q], and the operations are exact.  In the source
    [0 / 0] is [NaN], which makes the score [NaN], and every operation is
    rounded to binary64, so two scores that differ here by less than a
    rounding error can compare the other way there.  [selectModel] scores
    a model only when its latency is at most [maxLatencyMs], so the divisor
    below is [0] only for a model whose latency is [0] as well; the
    properties that rest on the value of a score take a positive bound,
    and those that rest on the comparison of two scores take scores
    that are a [margin] apart or compare them in binary64
    ([scoreModel64]). *)
Definition scoreModel (st : Store) (m : ModelMetadata) (config : RouterConfig)
    (estimatedInputTokens estimatedOutputTokens : Q) : Q :=
  let capability := capabilityOf m (task config) in
  let latency := getCurrentLatency st m in
  let cst := estimateCost m estimatedInputTokens estimatedOutputTokens in
  let capabilityScore := capability in
  let latencyScore := Qmax0 (1 - latency / maxLatencyMs config) in
  let costScore := 1 / (1 + cst * 100) in
  let '(wcap, wlat, wcost) := weights (priority config) in
  capabilityScore * wcap + latencyScore * wlat + costScore * wcost.

(** The score as JavaScript computes it, in IEEE binary64 with rounding to
    nearest, for a model without telemetry (its latency is then the static
    one).  A decimal literal of the source is the double nearest to it,
    which is what dividing its numerator by its denominator gives. *)
Definition toFloat (q : Q) : PrimFloat.float :=
  let n := PrimFloat.of_uint63 (Uint63.of_Z (Z.abs (Qnum q))) in
  let d := PrimFloat.of_uint63 (Uint63.of_Z (Zpos (Qden q))) in
  if (Qnum q <? 0)%Z then PrimFloat.opp (PrimFloat.div n d)
  else PrimFloat.div n d.

Definition scoreModel64 (m : ModelMetadata) (config : RouterConfig)
    (estimatedInputTokens estimatedOutputTokens : Q) : PrimFloat.float :=
  let f := toFloat in
  let add := PrimFloat.add in
  let mul := PrimFloat.mul in
  let div := PrimFloat.div in
  let capability := f (capabilityOf m (task config)) in
  let latency := f (avgLatencyMs m) in
  let inputCost :=
    mul (div (f estimatedInputTokens) (f 1000)) (f (baseCostPer1kTokens m)) in
  let outputCost :=
    mul (div (f estimatedOutputTokens) (f 1000))
        (f (baseCostPer1kOutputTokens m)) in
  let cst := add inputCost outputCost in
  let x := PrimFloat.sub (f 1) (div latency (f (maxLatencyMs config))) in
  let latencyScore := if PrimFloat.leb x (f 0) then f 0 else x in
  let costScore := div (f 1) (add (f 1) (mul cst (f 100))) in
  let '(wcap, wlat, wcost) := weights (priority config) in
  add (add (mul capability (f wcap)) (mul latencyScore (f wlat)))
      (mul costScore (f wcost)).

(** [Array.prototype.sort] is stable; with the comparator
    [(a, b) => b.score - a.score] an element stays in front of a later one
    unless the later one has a strictly higher score. *)
Fixpoint insertDesc {A} (score : A -> Q) (x : A) (l : list A) : list A :=
  match l with
  | [] => [x]
  | y :: l' =>
      if Qle_bool (score y) (score x) then x :: l
      else y :: insertDesc score x l'
  end.

Definition sortDesc {A} (score : A -> Q) (l : list A) : list A :=
  fold_right (insertDesc score) [] l.

(** [arr.reduce(f)] without an initial value, on a non-empty array. *)
Definition reduce1 {A} (f : A -> A -> A) (x : A) (l : list A) : A :=
  fold_left f l x.

Inductive Warning :=
  | NoModelMeetsLatency (requested : Q) (fastest : string).

Inductive Outcome :=
  | Returned (name : string) (warnings : list Warning)
  | ZodError
  | TypeError.

(** [x || 1000] on an optional number: [undefined] and [0] are falsy. *)
Definition orDefault (x : option Q) (d : Q) : Q :=
  match x with
  | Some v => if Qeq_bool v 0 then d else v
  | None => d
  end.

Definition estimatedInputTokensOf (config : RouterConfig) : Q :=
  orDefault (estimatedTokens config) 1000.

Definition estimatedOutputTokensOf (config : RouterConfig) : Q :=
  inject_Z (Qfloor (estimatedInputTokensOf config * (5#10))).

Definition viableModels (st : Store) (config : RouterConfig)
  : list ModelMetadata :=
  filter (fun m => Qle_bool (getCurrentLatency st m) (maxLatencyMs config))
         MODEL_REGISTRY.

Definition faster (st : Store) (prev curr : ModelMetadata) : ModelMetadata :=
  if Qltb (getCurrentLatency st curr) (getCurrentLatency st prev)
  then curr else prev.

Definition fastestModel (st : Store) : ModelMetadata :=
  match MODEL_REGISTRY with
  | [] => gpt5mini
  | m :: rest => reduce1 (faster st) m rest
  end.

(** [RouterConfigSchema.parse]: the enumerations are types here, so the one
    check left is [maxLatencyMs >= 0].  [TypeError] stands for reading
    [scoredModels[0].model] of an empty array, which the emptiness test
    before it excludes. *)
Definition validConfig (config : RouterConfig) : bool :=
  Qle_bool 0 (maxLatencyMs config).

Definition selectModel (config : RouterConfig) (st : Store) : Outcome :=
  if negb (validConfig config) then ZodError else
  let estimatedInputTokens := estimatedInputTokensOf config in
  let estimatedOutputTokens := estimatedOutputTokensOf config in
  match viableModels st config with
  | [] =>
      let fastest := fastestModel st in
      Returned (fullName fastest)
               [NoModelMeetsLatency (maxLatencyMs config) (fullName fastest)]
  | viable =>
      let scored :=
        map (fun m => (m, scoreModel st m config estimatedInputTokens
                                     estimatedOutputTokens)) viable in
      match sortDesc snd scored with
      | (selected, _) :: _ => Returned (fullName selected) []
      | [] => TypeError
      end
  end.

(** *** Vocabulary and scenarios of the properties *)

Definition recordAll (l : list CallTelemetry) (st : Store) : Store :=
  fold_left (fun s t => recordTelemetry t s) l st.

Definition latencyOf (st : Store) (m : ModelMetadata) : Q :=
  getCurrentLatency st m.

(** The configuration of the end-to-end scenario. *)
Definition costClassification : RouterConfig :=
  mkConfig classification 2000 cost None.

(** Six calls of [openai/gpt-5-mini] at 400 ms: its observed average then
    equals the static latency of [openai/gpt-4o-mini]. *)
Definition sample (name : string) (ms : Q) : CallTelemetry :=
  mkTelemetry name "classification" ms 1000 500 (45#100) 0 true.

Definition tiedStore : Store :=
  repeat (sample "openai/gpt-5-mini" 400) 6.

Definition numbered (i : nat) : CallTelemetry :=
  mkTelemetry "openai/gpt-5" "extraction" 900 1000 500 (75#10)
              (inject_Z (Z.of_nat i)) true.

(** *** The rest of the telemetry interface *)

Definition getAllTelemetry (st : Store) (limit : nat) : list CallTelemetry :=
  rev (sliceLast limit st).

Definition Qmin2 (a b : Q) : Q := if Qle_bool a b then a else b.
Definition Qmax2 (a b : Q) : Q := if Qle_bool a b then b else a.

(** The [minLatencyMs] and [maxLatencyMs] fields of [getModelStats]:
    [Math.min(...latencies)] and [Math.max(...latencies)] of the same
    non-empty array the average is taken of. *)
Definition latencyRange (st : Store) (m : string) : option (Q * Q) :=
  match map latencyMs (getModelTelemetry st m 100) with
  | [] => None
  | x :: l => Some (fold_left Qmin2 l x, fold_left Qmax2 l x)
  end.

(** [getRoutingStats].  A [Map] keeps its keys in the order of their first
    insertion; [groups.get(k).push(e)] extends the array of a key in
    place. *)
Fixpoint addToGroup (k : string) (e : CallTelemetry)
    (groups : list (string * list CallTelemetry))
  : list (string * list CallTelemetry) :=
  match groups with
  | [] => [(k, [e])]
  | (k', es) :: rest =>
      if String.eqb k' k then (k', es ++ [e]) :: rest
      else (k', es) :: addToGroup k e rest
  end.

Definition groupBy (key : CallTelemetry -> string) (l : list CallTelemetry)
  : list (string * list CallTelemetry) :=
  fold_left (fun groups e => addToGroup (key e) e groups) l [].

(** [modelDistribution.set(k, (modelDistribution.get(k) || 0) + 1)] *)
Fixpoint bump (k : string) (counts : list (string * nat))
  : list (string * nat) :=
  match counts with
  | [] => [(k, 1%nat)]
  | (k', n) :: rest =>
      if String.eqb k' k then (k', S n) :: rest else (k', n) :: bump k rest
  end.

Record ModelRouting := mkModelRouting {
  r_model : string;
  r_callCount : nat;
  r_avgLatencyMs : Q;
  r_totalCost : Q;
  r_successRate : Q
}.

(** The distribution is an object made from a [Map]; it is kept here as the
    list of the entries of that [Map]. *)
Record TaskRouting := mkTaskRouting {
  k_task : string;
  k_callCount : nat;
  k_modelDistribution : list (string * nat)
}.

Record RoutingStats := mkRoutingStats {
  totalCalls : nat;
  modelStats : list ModelRouting;
  taskStats : list TaskRouting;
  recentCalls : list CallTelemetry
}.

Definition getRoutingStats (st : Store) : RoutingStats :=
  let allTelemetry := getAllTelemetry st 100 in
  let modelGroups := groupBy t_model allTelemetry in
  let taskGroups := groupBy t_task allTelemetry in
  let modelStats :=
    map (fun '(m, entries) =>
           let latencies := map latencyMs entries in
           let costs := map t_cost entries in
           mkModelRouting m (List.length entries)
             (sumQ latencies / Qlen latencies) (sumQ costs)
             (Qlen (filter success entries) / Qlen entries))
        modelGroups in
  let taskStats :=
    map (fun '(t, entries) =>
           mkTaskRouting t (List.length entries)
             (fold_left (fun counts e => bump (t_model e) counts) entries []))
        taskGroups in
  mkRoutingStats (List.length allTelemetry) modelStats taskStats
                 (firstn 20 allTelemetry).

Definition sumNat (l : list nat) : nat := fold_right Nat.add 0%nat l.

(** The score of a model as [selectModel] computes it. *)
Definition scoreOf (st : Store) (config : RouterConfig) (m : ModelMetadata)
  : Q :=
  scoreModel st m config (estimatedInputTokensOf config)
             (estimatedOutputTokensOf config).

(** *** The demo *)

Definition demoConfigs : list RouterConfig :=
  [mkConfig classification 2000 cost None;
   mkConfig reasoning 10000 quality None;
   mkConfig summarization 3000 balanced None;
   mkConfig extraction 1000 balanced None].

(** The calls of [selectModel] that [runDemo] makes, one after the other;
    a call that throws ends the demo. *)
Fixpoint selectEach (configs : list RouterConfig) (st : Store)
  : list Outcome :=
  match configs with
  | [] => []
  | config :: rest =>
      match selectModel config st with
      | Returned name warnings =>
          Returned name warnings :: selectEach rest st
      | thrown => [thrown]
      end
  end.

(** [runDemo], as the selections it prints. *)
Definition runDemo (st : Store) : list Outcome := selectEach demoConfigs st.

(** The entries of the log that were recorded for a model. *)
Definition entriesOf (m : ModelMetadata) (st : Store) : list CallTelemetry :=
  filter (fun t => String.eqb (t_model t) (fullName m)) st.

(** The binary64 score of the model that a demo call returns is above that
    of the other model. *)
Definition above64 (config : RouterConfig) (winner other : ModelMetadata)
  : bool :=
  PrimFloat.ltb (scoreModel64 other config 1000 500)
                (scoreModel64 winner config 1000 500).

(** *** The effective latency *)

(** The effective latency in the words of the specification: when the log
    has more than five calls of the model, the observed average latency,
    which is taken over its last 100 calls; the static average of the
    registry otherwise. *)
Definition observedLatencies (st : Store) (m : ModelMetadata) : list Q :=
  map latencyMs (sliceLast 100 (entriesOf m st)).

Definition effectiveLatency (st : Store) (m : ModelMetadata) : Q :=
  if Nat.ltb 5 (List.length (entriesOf m st))
  then sumQ (observedLatencies st m) / Qlen (observedLatencies st m)
  else avgLatencyMs m.

(** *** Whole numbers *)

(** A whole number of at most 2^32: a latency measured as a difference of
    [Date.now()], a latency bound or a token count as the callers give
    them.  Sums of up to 1000 such numbers are below 2^53 and exact in
    binary64, and the quotient of such a sum by a count is the double
    nearest to the exact quotient; two such quotients that differ, or such
    a quotient and a whole number that differ, are at least 1/10^4 apart,
    and their doubles compare as they do. *)
Definition whole (q : Q) : Prop :=
  exists z : Z, q == inject_Z z /\ (0 <= z <= 2 ^ 32)%Z.

Definition wholeLog (st : Store) : Prop :=
  Forall (fun t => whole (latencyMs t)) st.

Definition wholeConfig (config : RouterConfig) : Prop :=
  whole (maxLatencyMs config) /\
  match estimatedTokens config with
  | Some n => whole n
  | None => True
  end.

(** The average of [getModelStats] as binary64 computes it,
    [latencies.reduce((a, b) => a + b, 0) / latencies.length], with [fl]
    the rounding of each operation. *)
Definition roundedMean (fl : Q -> Q) (l : list Q) : Q :=
  fl (fold_left (fun a b => fl (a + b)) l 0 / Qlen l).

(** The distance between two scores that the rounding of binary64 cannot
    bridge: a score is a sum of three products of numbers between 0 and 1,
    computed with an error below 1/10^14. *)
Definition margin : Q := 1 # 1000000.



(** Seven calls of [openai/gpt-5-mini] at 400 ms: the same observed average
    as the six calls of [tiedStore]. *)
Definition tiedStore7 : Store := repeat (sample "openai/gpt-5-mini" 400) 7.

(** Two arrays of scored models with the same models and equal scores. *)
Definition sameScores (a b : list (ModelMetadata * Q)) : Prop :=
  Forall2 (fun p q => fst p = fst q /\ snd p == snd q) a b.

End Router.

(** ** The chunked extractor *)

Module Extractor.

Export Numbers.

Local Open Scope Z_scope.

Definition DEFAULT_CHUNK_SIZE : Z := 4000.
Definition OVERLAP_SIZE : Z := 200.
Definition MAX_RETRIES : nat := 3.

(** *** Strings

    A string is a sequence of code units, here restricted to the Latin-1
    range.  The helper functions work on [list ascii]; the functions of the
    source take and return [string]. *)

Definition chars := list ascii.

Definition isTerminator (c : ascii) : bool :=
  Ascii.eqb c "." || Ascii.eqb c "!" || Ascii.eqb c "?".

(** The class [\s] (and the characters [trim] removes) below code 256. *)
Definition isSpace (c : ascii) : bool :=
  let n := nat_of_ascii c in
  ((9 <=? n) && (n <=? 13) || (n =? 32) || (n =? 160))%nat.

Fixpoint dropSpaces (s : chars) : chars :=
  match s with
  | c :: s' => if isSpace c then dropSpaces s' else s
  | [] => []
  end.

Fixpoint dropTrailingSpaces (s : chars) : chars :=
  match s with
  | [] => []
  | c :: s' =>
      match dropTrailingSpaces s' with
      | [] => if isSpace c then [] else [c]
      | rest => c :: rest
      end
  end.

Definition trimChars (s : chars) : chars :=
  dropTrailingSpaces (dropSpaces s).

Definition trim (s : string) : string :=
  string_of_list_ascii (trimChars (list_ascii_of_string s)).

(** [text.match(/[^.!?]+[.!?]+/g)]: [body] is the run of non-terminators
    read so far and [terms] the run of terminators after it, both reversed.
    A run of non-terminators that reaches the end of the text without a
    terminator matches nothing. *)
Fixpoint matchSentences (s body terms : chars) : list chars :=
  match s with
  | [] =>
      match body, terms with
      | _ :: _, _ :: _ => [rev body ++ rev terms]
      | _, _ => []
      end
  | c :: s' =>
      if isTerminator c then
        match body with
        | [] => matchSentences s' [] []
        | _ => matchSentences s' body (c :: terms)
        end
      else
        match terms with
        | [] => matchSentences s' (c :: body) []
        | _ => (rev body ++ rev terms) :: matchSentences s' [c] []
        end
  end.

(** [text.match(...) || [text]]: [match] gives [null] when nothing matches. *)
Definition sentencesOf (text : string) : list string :=
  match matchSentences (list_ascii_of_string text) [] [] with
  | [] => [text]
  | l => map string_of_list_ascii l
  end.

(** [s.split(/\s+/)]: [cur] is the current word, reversed; [gap] says that
    the previous character was a space.  Leading and trailing spaces give an
    empty first and last element, and the empty string gives [[""]]. *)
Fixpoint splitSpaces (s cur : chars) (gap : bool) : list chars :=
  match s with
  | [] => [rev cur]
  | c :: s' =>
      if isSpace c then
        if gap then splitSpaces s' [] true
        else rev cur :: splitSpaces s' [] true
      else splitSpaces s' (c :: cur) false
  end.

Definition split (s : string) : list string :=
  map string_of_list_ascii (splitSpaces (list_ascii_of_string s) [] false).

(** [arr.slice(n)] for an integer [n]: a negative [n] counts from the end. *)
Definition slice {A} (n : Z) (l : list A) : list A :=
  let len := Z.of_nat (List.length l) in
  let start := if n <? 0 then Z.max (len + n) 0 else Z.min n len in
  skipn (Z.to_nat start) l.

Definition join (sep : string) (l : list string) : string :=
  String.concat sep l.

Definition nonEmpty (s : string) : bool :=
  match s with EmptyString => false | _ => true end.

(** [Math.ceil(text.length / 4)] *)
Definition estimateTokens (text : string) : Z :=
  Z.of_nat ((String.length text + 3) / 4).

(** The loop of [chunkText] over the sentences still to read; it returns the
    chunks pushed so far and the chunk under construction. *)
Fixpoint chunkLoop (sentences : list string) (chunkSize overlap : Z)
    (chunks : list string) (currentChunk : string) (currentTokens : Z)
  : list string * string :=
  match sentences with
  | [] => (chunks, currentChunk)
  | sentence :: rest =>
      let sentenceTokens := estimateTokens sentence in
      if (chunkSize <? currentTokens + sentenceTokens) && nonEmpty currentChunk
      then
        let chunks' := chunks ++ [trim currentChunk] in
        let words := split currentChunk in
        let overlapWords := slice (- (overlap / 4)) words in
        let next := (join " " overlapWords ++ " " ++ sentence)%string in
        chunkLoop rest chunkSize overlap chunks' next (estimateTokens next)
      else
        chunkLoop rest chunkSize overlap chunks
                  (currentChunk ++ sentence)%string
                  (currentTokens + sentenceTokens)
  end.

Definition chunkText (text : string) (chunkSize overlap : Z) : list string :=
  if estimateTokens text <=? chunkSize then [text]
  else
    let '(chunks, currentChunk) :=
      chunkLoop (sentencesOf text) chunkSize overlap [] "" 0 in
    if nonEmpty (trim currentChunk) then chunks ++ [trim currentChunk]
    else chunks.

(** *** Data *)

Record Quote := mkQuote {
  quote : string;
  speaker : option string
}.

Record ExtractionResult := mkResult {
  keyTakeaway : string;
  companies : list string;
  business : list string;
  technical : list string;
  quotes : list Quote;
  summary : string
}.

Record ChunkResult := mkChunkResult {
  chunkIndex : nat;
  result : ExtractionResult;
  success : bool;
  error : option string;
  processingTime : Z
}.

(** A [ChunkResult] is a mutable object: the tracker holds references into
    a heap of such objects, and so does the local variable [chunkResult] of
    [extractLargeDocument]. *)
Definition loc := nat.
Definition Heap := list ChunkResult.

Record ProgressTracker := mkProgress {
  p_totalChunks : nat;
  p_completedChunks : nat;
  p_failedChunks : nat;
  p_startTime : Z;
  p_chunkResults : list loc
}.

(** A checkpoint is what [JSON.stringify] writes: values, not references. *)
Record Checkpoint := mkCheckpoint {
  c_filePath : string;
  c_totalChunks : nat;
  c_completedChunks : list nat;
  c_chunkResults : list ChunkResult;
  c_timestamp : Z
}.

Record Options := mkOptions {
  o_chunkSize : option Z;
  o_resume : option bool;
  o_useStreaming : option bool
}.

(** *** The world

    Calls that leave the program are answered by an environment: the
    [n]-th generation call, the [n]-th reading of the clock, and whether the
    [n]-th group of file-system calls on the checkpoint throws. *)

Inductive Reply (A : Type) :=
  | Ok (a : A)
  | Failed (message : string).
Arguments Ok {A} a.
Arguments Failed {A} message.

Record Env := mkEnv {
  objectReply : nat -> bool -> Reply ExtractionResult;
  textReply : nat -> Reply string;
  clock : nat -> Z;
  ioThrows : nat -> bool
}.

Inductive Event :=
  | EvExtract (chunkIndex retries : nat)
  | EvSleep (ms : Z)
  | EvSummarize (chunk : string)
  | EvCheckpointWritten (c : Checkpoint)
  | EvCheckpointDeleted
  | EvWarn (what : string).

Record World := mkWorld {
  w_document : option string;
  w_checkpoint : option Checkpoint;
  w_heap : Heap;
  w_calls : nat;
  w_ticks : nat;
  w_io : nat;
  w_trace : list Event
}.

Definition M (A : Type) : Type := World -> A * World.

Definition ret {A} (a : A) : M A := fun w => (a, w).
Definition bind {A B} (m : M A) (k : A -> M B) : M B :=
  fun w => let '(a, w') := m w in k a w'.

Notation "x <- m ;; k" := (bind m (fun x => k))
  (at level 61, m at next level, right associativity).
Notation "m ;;; k" := (bind m (fun _ => k))
  (at level 61, right associativity).

Definition emit (e : Event) : M unit := fun w =>
  (tt, mkWorld (w_document w) (w_checkpoint w) (w_heap w) (w_calls w)
               (w_ticks w) (w_io w) (w_trace w ++ [e])).

Definition setHeap (h : Heap) (w : World) : World :=
  mkWorld (w_document w) (w_checkpoint w) h (w_calls w)
          (w_ticks w) (w_io w) (w_trace w).

Definition setCheckpoint (c : option Checkpoint) (w : World) : World :=
  mkWorld (w_document w) c (w_heap w) (w_calls w)
          (w_ticks w) (w_io w) (w_trace w).

Section WithEnv.

Variable env : Env.

(** [Date.now()] *)
Definition dateNow : M Z := fun w =>
  (clock env (w_ticks w),
   mkWorld (w_document w) (w_checkpoint w) (w_heap w) (w_calls w)
           (S (w_ticks w)) (w_io w) (w_trace w)).

Definition nextCall : M nat := fun w =>
  (w_calls w,
   mkWorld (w_document w) (w_checkpoint w) (w_heap w) (S (w_calls w))
           (w_ticks w) (w_io w) (w_trace w)).

Definition nextIoThrows : M bool := fun w =>
  (ioThrows env (w_io w),
   mkWorld (w_document w) (w_checkpoint w) (w_heap w) (w_calls w)
           (w_ticks w) (S (w_io w)) (w_trace w)).

(** The body of the [try] block of [processChunk]: either strategy
    ([generateObject], or [streamText] followed by parsing and validation)
    gives a validated object or throws. *)
Definition generateStructured (chunkIndex retries : nat) (useStreaming : bool)
  : M (Reply ExtractionResult) :=
  emit (EvExtract chunkIndex retries) ;;;
  n <- nextCall ;;
  ret (objectReply env n useStreaming).

Definition sleep (ms : Z) : M unit := emit (EvSleep ms).

Definition failedPayload (message : string) : ExtractionResult :=
  mkResult "" [] [] [] []
           ("[Extraction failed: " ++ message ++ "]")%string.

(** [processChunk], with the number of nested calls still possible as fuel;
    [processChunk] below starts it with enough. *)
Fixpoint processChunkFuel (fuel : nat) (chunk : string)
    (chunkIndex totalChunks retries : nat) (useStreaming : bool)
  : M ChunkResult :=
  startTime <- dateNow ;;
  reply <- generateStructured chunkIndex retries useStreaming ;;
  now <- dateNow ;;
  let processingTime := now - startTime in
  match reply with
  | Ok structuredOutput =>
      ret (mkChunkResult chunkIndex structuredOutput true None processingTime)
  | Failed message =>
      let failure :=
        mkChunkResult chunkIndex (failedPayload message) false
                      (Some message) processingTime in
      if (retries <? MAX_RETRIES)%nat then
        match fuel with
        | S fuel' =>
            sleep (1000 * (Z.of_nat retries + 1)) ;;;
            processChunkFuel fuel' chunk chunkIndex totalChunks
                             (S retries) useStreaming
        | O => ret failure
        end
      else ret failure
  end.

Definition processChunk (chunk : string)
    (chunkIndex totalChunks retries : nat) (useStreaming : bool)
  : M ChunkResult :=
  processChunkFuel (MAX_RETRIES - retries) chunk chunkIndex totalChunks
                   retries useStreaming.

Definition summarizeFailedChunk (chunk : string) : M string :=
  emit (EvSummarize chunk) ;;;
  n <- nextCall ;;
  match textReply env n with
  | Ok text => ret text
  | Failed message =>
      ret ("[Summary generation failed: " ++ message ++ "]")%string
  end.

(** *** The heap of chunk results *)

Definition noResult : ChunkResult :=
  mkChunkResult 0 (mkResult "" [] [] [] [] "") false None 0.

Definition deref (h : Heap) (l : loc) : ChunkResult := nth l h noResult.

Definition derefAll (h : Heap) (ls : list loc) : list ChunkResult :=
  map (deref h) ls.

Definition alloc (r : ChunkResult) : M loc := fun w =>
  (List.length (w_heap w), setHeap (w_heap w ++ [r]) w).

Fixpoint allocAll (rs : list ChunkResult) : M (list loc) :=
  match rs with
  | [] => ret []
  | r :: rs' => l <- alloc r ;; ls <- allocAll rs' ;; ret (l :: ls)
  end.

Definition withSummary (s : string) (r : ChunkResult) : ChunkResult :=
  let x := result r in
  mkChunkResult (chunkIndex r)
    (mkResult (keyTakeaway x) (companies x) (business x) (technical x)
              (quotes x) s)
    (success r) (error r) (processingTime r).

Fixpoint updateAt {A} (f : A -> A) (n : nat) (l : list A) : list A :=
  match l, n with
  | [], _ => []
  | x :: l', O => f x :: l'
  | x :: l', S n' => x :: updateAt f n' l'
  end.

(** [chunkResult.result.summary = s] through the reference [l] *)
Definition setSummary (l : loc) (s : string) : M unit := fun w =>
  (tt, setHeap (updateAt (withSummary s) l (w_heap w)) w).

Definition readHeap : M Heap := fun w => (w_heap w, w).

(** *** Reduction *)

(** [forEach (c => set.add(c))]: a [Set] keeps the first insertion of each
    value, in insertion order. *)
Definition addAll (set l : list string) : list string :=
  fold_left
    (fun acc c => if existsb (String.eqb c) acc then acc else acc ++ [c])
    l set.

Definition reduceResults (chunkResults : list ChunkResult)
  : ExtractionResult :=
  let successfulResults := filter success chunkResults in
  let allCompanies :=
    fold_left (fun set r => addAll set (companies (result r)))
              successfulResults [] in
  let businessConcepts :=
    fold_left (fun set r => addAll set (business (result r)))
              successfulResults [] in
  let technicalConcepts :=
    fold_left (fun set r => addAll set (technical (result r)))
              successfulResults [] in
  let allQuotes := flat_map (fun r => quotes (result r)) successfulResults in
  let summaries :=
    filter nonEmpty (map (fun r => summary (result r)) successfulResults) in
  let combinedSummary := join " " summaries in
  let keyTakeaway :=
    match summaries with
    | [] => "Unable to extract key takeaway from document."
    | _ => String.substring 0 250 (join " " (firstn 3 summaries))
    end in
  mkResult keyTakeaway allCompanies businessConcepts technicalConcepts
           allQuotes combinedSummary.

(** *** Checkpoints

    The three checkpoint functions wrap their file-system calls in [try];
    a throw is logged and otherwise ignored.  One answer of [ioThrows]
    decides each [try] block, and the throw is that of the first
    file-system call of the block ([ensureCheckpointDir] in
    [saveCheckpoint]): the block has then changed nothing, and
    [saveCheckpoint] has not read the clock.  A throw of
    [fs.writeFileSync] itself, which comes after [Date.now()] and can
    leave a truncated file, is outside the model; what is proved of a
    throwing file system is about the checkpoints that were written, not
    about the file that a failed write leaves. *)

Definition loadCheckpoint (filePath : string) : M (option Checkpoint) :=
  throws <- nextIoThrows ;;
  if throws then emit (EvWarn "Failed to load checkpoint") ;;; ret None
  else fun w => (w_checkpoint w, w).

Definition completedOf (rs : list ChunkResult) : list nat :=
  map chunkIndex (filter success rs).

Definition saveCheckpoint (filePath : string) (progress : ProgressTracker)
  : M unit :=
  throws <- nextIoThrows ;;
  if throws then emit (EvWarn "Failed to save checkpoint")
  else
    h <- readHeap ;;
    let rs := derefAll h (p_chunkResults progress) in
    now <- dateNow ;;
    let checkpoint :=
      mkCheckpoint filePath (p_totalChunks progress) (completedOf rs) rs now in
    (fun w => (tt, setCheckpoint (Some checkpoint) w)) ;;;
    emit (EvCheckpointWritten checkpoint).

Definition clearCheckpoint (filePath : string) : M unit :=
  throws <- nextIoThrows ;;
  if throws then emit (EvWarn "Failed to clear checkpoint")
  else
    fun w =>
      match w_checkpoint w with
      | Some _ => emit EvCheckpointDeleted (setCheckpoint None w)
      | None => (tt, w)
      end.

(** *** The main function *)

(** [displayProgress] and [displayBenchmark] write to the console; what is
    kept of them is their reading of the clock.  In the source
    [displayProgress] throws a [RangeError], out of [String.repeat], when
    the tracker counts so many completed chunks beyond its total that the
    bar would have more than 40 filled cells; [progressBar] below says
    when.  That throw is not in this function: a run is modelled where
    every bar can be drawn, and the properties of whole runs are stated
    for a checkpoint that fits the document ([fits]), for which the bars
    are shown to be drawn. *)
Definition displayProgress (progress : ProgressTracker) : M unit :=
  dateNow ;;; ret tt.

Definition displayBenchmark (progress : ProgressTracker)
    (finalResult : ExtractionResult) : M unit :=
  dateNow ;;; ret tt.

Definition pushResult (l : loc) (p : ProgressTracker) : ProgressTracker :=
  mkProgress (p_totalChunks p) (p_completedChunks p) (p_failedChunks p)
             (p_startTime p) (p_chunkResults p ++ [l]).

Definition incrCompleted (p : ProgressTracker) : ProgressTracker :=
  mkProgress (p_totalChunks p) (S (p_completedChunks p)) (p_failedChunks p)
             (p_startTime p) (p_chunkResults p).

Definition incrFailed (p : ProgressTracker) : ProgressTracker :=
  mkProgress (p_totalChunks p) (p_completedChunks p) (S (p_failedChunks p))
             (p_startTime p) (p_chunkResults p).

(** One turn of the loop [for (const chunkIndex of chunksToProcess)].  The
    result of [processChunk] is a new object; the tracker's array and
    [chunkResult] refer to the same one.  The [onProgress] callback is an
    observer and is left out. *)
Definition processOne (filePath : string) (chunks : list string)
    (useStreaming : bool) (progress : ProgressTracker) (chunkIndex : nat)
  : M ProgressTracker :=
  displayProgress progress ;;;
  r <- processChunk (nth chunkIndex chunks "") chunkIndex
                    (List.length chunks) 0 useStreaming ;;
  chunkResult <- alloc r ;;
  let progress := pushResult chunkResult progress in
  progress <-
    (if success r then ret (incrCompleted progress)
     else
       fallbackSummary <- summarizeFailedChunk (nth chunkIndex chunks "") ;;
       setSummary chunkResult fallbackSummary ;;;
       ret (incrFailed progress)) ;;
  saveCheckpoint filePath progress ;;;
  ret progress.

Fixpoint forEach {A S} (body : S -> A -> M S) (l : list A) (s : S) : M S :=
  match l with
  | [] => ret s
  | x :: l' => s' <- body s x ;; forEach body l' s'
  end.

Definition chunksToProcess (checkpoint : option Checkpoint) (n : nat)
  : list nat :=
  match checkpoint with
  | Some c =>
      filter (fun idx => negb (existsb (Nat.eqb idx) (c_completedChunks c)))
             (seq 0 n)
  | None => seq 0 n
  end.

Definition initProgress (checkpoint : option Checkpoint) (n : nat)
  : M ProgressTracker :=
  match checkpoint with
  | Some c =>
      ls <- allocAll (c_chunkResults c) ;;
      ret (mkProgress n (List.length (c_completedChunks c))
             (List.length
                (filter (fun r => negb (success r)) (c_chunkResults c)))
             (c_timestamp c) ls)
  | None =>
      now <- dateNow ;;
      ret (mkProgress n 0 0 now [])
  end.

Definition fromOption {A} (o : option A) (d : A) : A :=
  match o with Some a => a | None => d end.

Definition extractLargeDocument (filePath : string) (options : Options)
  : M (Reply ExtractionResult) :=
  let chunkSize := fromOption (o_chunkSize options) DEFAULT_CHUNK_SIZE in
  let resume := fromOption (o_resume options) true in
  let useStreaming := fromOption (o_useStreaming options) false in
  fun w =>
  match w_document w with
  | None => (Failed ("File not found: " ++ filePath)%string, w)
  | Some document =>
      (checkpoint <- (if resume then loadCheckpoint filePath else ret None) ;;
       let chunks := chunkText document chunkSize OVERLAP_SIZE in
       progress <- initProgress checkpoint (List.length chunks) ;;
       progress <-
         forEach (processOne filePath chunks useStreaming)
                 (chunksToProcess checkpoint (List.length chunks))
                 progress ;;
       displayProgress progress ;;;
       h <- readHeap ;;
       let finalResult := reduceResults (derefAll h (p_chunkResults progress)) in
       displayBenchmark progress finalResult ;;;
       clearCheckpoint filePath ;;;
       ret (Ok finalResult)) w
  end.

End WithEnv.

(** *** Vocabulary and scenarios of the properties *)

Fixpoint retryTrace (idx retries n : nat) : list Event :=
  match n with
  | O => [EvExtract idx retries]
  | S n' =>
      EvExtract idx retries :: EvSleep (1000 * (Z.of_nat retries + 1))
        :: retryTrace idx (S retries) n'
  end.

Definition invocations (tr : list Event) : list nat :=
  flat_map (fun e => match e with EvExtract i O => [i] | _ => [] end) tr.

Definition extractedChunks (tr : list Event) : list nat :=
  flat_map (fun e => match e with EvExtract i _ => [i] | _ => [] end) tr.

Definition written (tr : list Event) : list Checkpoint :=
  flat_map (fun e => match e with EvCheckpointWritten c => [c] | _ => [] end)
           tr.

(** What a call leaves alone. *)
Definition sameFiles (w w' : World) : Prop :=
  w_document w' = w_document w /\ w_checkpoint w' = w_checkpoint w /\
  w_io w' = w_io w.

Definition afterAttempt (idx retries : nat) (w : World) : World :=
  mkWorld (w_document w) (w_checkpoint w) (w_heap w) (S (w_calls w))
          (S (S (w_ticks w))) (w_io w) (w_trace w ++ [EvExtract idx retries]).

Definition attemptTime (env : Env) (w : World) : Z :=
  clock env (S (w_ticks w)) - clock env (w_ticks w).

Definition wellFormed (p : ProgressTracker) (w : World) : Prop :=
  Forall (fun l => l < List.length (w_heap w))%nat (p_chunkResults p).

(** Where the payload of a result of [processChunk] comes from. *)
Definition produced (env : Env) (us : bool) (r0 : ChunkResult) : Prop :=
  (success r0 = true /\ exists k, objectReply env k us = Ok (result r0)) \/
  (success r0 = false /\ exists message, result r0 = failedPayload message).

(** [r] is what the heap holds for a chunk whose [processChunk] returned
    [r0]: the same value, or [r0] with its summary replaced when it failed. *)
Definition storedFor (env : Env) (us : bool) (r0 r : ChunkResult) : Prop :=
  produced env us r0 /\
  (r = r0 \/ success r0 = false /\ exists s, r = withSummary s r0).

Definition loadedCheckpoint (env : Env) (options : Options) (w : World)
  : option Checkpoint :=
  if fromOption (o_resume options) true then
    if ioThrows env (w_io w) then None else w_checkpoint w
  else None.

Definition storedResults (c : option Checkpoint) : list ChunkResult :=
  match c with
  | Some c => c_chunkResults c
  | None => []
  end.

Definition chunksOf (options : Options) (document : string) : list string :=
  chunkText document (fromOption (o_chunkSize options) DEFAULT_CHUNK_SIZE)
            OVERLAP_SIZE.

Definition silent (tr : list Event) : Prop :=
  invocations tr = [] /\ extractedChunks tr = [] /\ written tr = [].

Definition sampleResult : ExtractionResult :=
  mkResult "Chunks overlap." ["Acme"] ["pricing"] ["tokens"]
           [mkQuote "Ship it." (Some "Ada")] "A summary.".

Definition steadyEnv : Env :=
  mkEnv (fun _ _ => Ok sampleResult) (fun _ => Ok "Plain summary.")
        (fun n => Z.of_nat n) (fun _ => false).

Definition failingEnv : Env :=
  mkEnv (fun _ _ => Failed "rate limit") (fun _ => Ok "Plain summary.")
        (fun n => Z.of_nat n) (fun _ => false).

Definition freshWorld (document : string) (c : option Checkpoint) : World :=
  mkWorld (Some document) c [] 0 0 0 [].

Definition smallChunks : Options := mkOptions (Some 1) None None.

Definition done (i : nat) : ChunkResult :=
  mkChunkResult i sampleResult true None 1.

Definition failedBefore (i : nat) : ChunkResult :=
  mkChunkResult i (failedPayload "timeout") false (Some "timeout") 1.

(** Three of five chunks done. *)
Definition threeOfFive : Checkpoint :=
  mkCheckpoint "essay.txt" 5 [0; 1; 2]%nat [done 0; done 1; done 2] 0.




Definition freshRun : Reply ExtractionResult * World :=
  extractLargeDocument steadyEnv "essay.txt" smallChunks
                       (freshWorld "A. B." None).

(** The two properties of a checkpoint that C7 names. *)
Definition reflectsSuccesses (c : Checkpoint) : Prop :=
  forall i, In i (c_completedChunks c) <->
            exists r, In r (c_chunkResults c) /\
                      chunkIndex r = i /\ success r = true.

Definition completedInRange (c : Checkpoint) : Prop :=
  forall i, In i (c_completedChunks c) -> (i < c_totalChunks c)%nat.

(** Two environments that answer alike except, possibly, for the text
    generation calls. *)
Definition sameButText (e1 e2 : Env) : Prop :=
  (forall n us, objectReply e1 n us = objectReply e2 n us) /\
  (forall n, clock e1 n = clock e2 n) /\
  (forall n, ioThrows e1 n = ioThrows e2 n).

(** Two results that are equal, or both failed. *)
Definition alike (r1 r2 : ChunkResult) : Prop :=
  r1 = r2 \/ success r1 = false /\ success r2 = false.

(** Two worlds at the same point of two such runs. *)
Definition sim (w1 w2 : World) : Prop :=
  w_calls w1 = w_calls w2 /\ w_ticks w1 = w_ticks w2 /\
  w_io w1 = w_io w2 /\ Forall2 alike (w_heap w1) (w_heap w2).

(** What a turn of the loop does once [processChunk] has returned [r]. *)
Definition afterChunk (env : Env) (filePath : string) (chunks : list string)
    (progress : ProgressTracker) (chunkIndex : nat) (r : ChunkResult)
  : M ProgressTracker :=
  chunkResult <- alloc r ;;
  let progress := pushResult chunkResult progress in
  progress <-
    (if success r then ret (incrCompleted progress)
     else
       fallbackSummary <-
         summarizeFailedChunk env (nth chunkIndex chunks "") ;;
       setSummary chunkResult fallbackSummary ;;;
       ret (incrFailed progress)) ;;
  saveCheckpoint env filePath progress ;;;
  ret progress.

(** What [extractLargeDocument] does once the loop has ended. *)
Definition finishRun (env : Env) (filePath : string)
    (progress : ProgressTracker) : M (Reply ExtractionResult) :=
  displayProgress env progress ;;;
  h <- readHeap ;;
  let finalResult := reduceResults (derefAll h (p_chunkResults progress)) in
  displayBenchmark env progress finalResult ;;;
  clearCheckpoint env filePath ;;;
  ret (Ok finalResult).

Fixpoint repeatString (s : string) (n : nat) : string :=
  match n with
  | O => ""
  | S n' => (s ++ repeatString s n')%string
  end.

(** 260 sentences and a last line without a full stop: 16387 characters. *)
Definition longDocument : string :=
  (repeatString
     "The model router picks the cheapest model that is fast enough. " 260
   ++ "The end")%string.

(** [final] holds every company, concept and quote of [stored], in the
    same order, before anything else. *)
Definition extends {A} (old new : list A) : Prop :=
  exists more, new = old ++ more.

Definition carried (stored final : ExtractionResult) : Prop :=
  extends (companies stored) (companies final) /\
  extends (business stored) (business final) /\
  extends (technical stored) (technical final) /\
  extends (quotes stored) (quotes final).

(** [s] is a part of [raw]. *)
Definition within (s raw : string) : Prop :=
  exists pre post, raw = (pre ++ s ++ post)%string.

(** *** Vocabulary of the further properties *)

(** Neither the first nor the last character of [s] is a space. *)
Definition trimmed (s : string) : Prop :=
  let l := list_ascii_of_string s in
  isSpace (hd "x"%char l) = false /\ isSpace (last l "x"%char) = false.

(** [s] has a character that is not a space. *)
Definition hasInk (s : string) : bool :=
  existsb (fun c => negb (isSpace c)) (list_ascii_of_string s).

(** A match of [/[^.!?]+[.!?]+/]: one or more characters that are not
    terminators, then one or more terminators. *)
Definition sentenceShaped (s : chars) : Prop :=
  exists body terms,
    s = body ++ terms /\ body <> [] /\ terms <> [] /\
    forallb (fun c => negb (isTerminator c)) body = true /\
    forallb isTerminator terms = true.

Fixpoint dropTerminators (s : chars) : chars :=
  match s with
  | c :: s' => if isTerminator c then dropTerminators s' else s
  | [] => []
  end.

(** [Math.round]: the nearest integer, halves upwards. *)
Definition jsRound (q : Q) : Z := Qfloor (q + (1 # 2))%Q.

(** The two counts that [displayProgress] passes to [String.repeat] for the
    bar, or [None] where [repeat] throws a [RangeError].  The quotient and
    the product are binary64 operations: [fl] is the rounding of each.  With
    no chunks and none complete the quotient is [NaN], which [repeat] reads
    as 0; with no chunks and some complete it is [Infinity], which [repeat]
    refuses, as it refuses a negative count. *)
Definition progressBar (fl : Q -> Q) (completedChunks totalChunks : nat)
  : option (Z * Z) :=
  let barLength := 40 in
  match totalChunks, completedChunks with
  | O, O => Some (0, 0)
  | O, S _ => None
  | S _, _ =>
      let ratio :=
        fl (inject_Z (Z.of_nat completedChunks)
            / inject_Z (Z.of_nat totalChunks))%Q in
      let filled := jsRound (fl (ratio * 40)%Q) in
      if barLength - filled <? 0 then None
      else Some (filled, barLength - filled)
  end.

(** A checkpoint that fits a document of [n] chunks: it lists no chunk
    twice and none that the document does not have. *)
Definition fits (c : option Checkpoint) (n : nat) : Prop :=
  match c with
  | Some c =>
      NoDup (c_completedChunks c) /\
      forall i, In i (c_completedChunks c) -> (i < n)%nat
  | None => True
  end.

(** The counters of a tracker agree with a list of results. *)
Definition counts (p : ProgressTracker) (rs : list ChunkResult) : Prop :=
  p_completedChunks p = List.length (filter success rs) /\
  p_failedChunks p
  = List.length (filter (fun r => negb (success r)) rs).

(** The state in which the loop of a run starts. *)
Definition loopStart (env : Env) (filePath : string) (options : Options)
    (document : string) (w : World) : ProgressTracker * World :=
  let '(c, w1) :=
    (if fromOption (o_resume options) true then loadCheckpoint env filePath
     else ret None) w in
  initProgress env c (List.length (chunksOf options document)) w1.

Definition environment (objects : nat -> bool -> Reply ExtractionResult)
  : Env :=
  mkEnv objects (fun _ => Ok "Plain summary.") (fun n => Z.of_nat n)
        (fun _ => false).

(** Two failures, then a reply. *)
Definition flakyEnv : Env :=
  environment (fun n _ => if (n <? 2)%nat then Failed "timeout"
                          else Ok sampleResult).
(** [s] has no space. *)
Definition spaceFree (s : chars) : bool :=
  forallb (fun c => negb (isSpace c)) s.

Definition nonNil {A} (l : list A) : bool :=
  match l with [] => false | _ => true end.

(** Every element but the last is non-empty. *)
Fixpoint allButLast (ws : list chars) : bool :=
  match ws with
  | [] => true
  | w :: rest =>
      match rest with
      | [] => true
      | _ => nonNil w && allButLast rest
      end
  end.

(** [join] on lists of characters. *)
Fixpoint joinChars (ws : list chars) : chars :=
  match ws with
  | [] => []
  | w :: rest =>
      match rest with
      | [] => w
      | _ => w ++ " "%char :: joinChars rest
      end
  end.
(** No character of [s] is a terminator. *)
Definition terminatorFree (s : chars) : bool :=
  forallb (fun c => negb (isTerminator c)) s.

(** What [matchSentences] still has to account for: the two runs read so
    far and the text to come, once the terminators that can start no match
    are dropped. *)
Definition pending (s body terms : chars) : chars :=
  match body with
  | [] => dropTerminators s
  | _ => rev body ++ rev terms ++ s
  end.
(** The summaries that [reduceResults] joins. *)
Definition summariesOf (chunkResults : list ChunkResult) : list string :=
  filter nonEmpty
         (map (fun r => summary (result r)) (filter success chunkResults)).

(** [c] is listed under [f] by a successful result of [rs]. *)
Definition foundIn (f : ExtractionResult -> list string)
    (rs : list ChunkResult) (c : string) : Prop :=
  exists r, In r rs /\ success r = true /\ In c (f (result r)).
(** A checkpoint as [saveCheckpoint] writes it: the chunks listed as
    complete are those of the stored results with [success = true]. *)
Definition selfWritten (c : option Checkpoint) : Prop :=
  match c with
  | Some c => c_completedChunks c = completedOf (c_chunkResults c)
  | None => True
  end.

Definition listedIn (c : option Checkpoint) : list nat :=
  match c with
  | Some c => c_completedChunks c
  | None => []
  end.

(** Left by a run over five chunks that stopped after the fourth, the
    first three having failed. *)
Definition oneOfFive : Checkpoint :=
  mkCheckpoint "essay.txt" 5 [3%nat]
               [failedBefore 0; failedBefore 1; failedBefore 2; done 3] 0.

(** The tracker and the world after the first [k] turns of the loop of a
    run from [w]. *)
Definition turns (env : Env) (filePath : string) (options : Options)
    (document : string) (w : World) (k : nat) : ProgressTracker * World :=
  forEach (processOne env filePath (chunksOf options document)
             (fromOption (o_useStreaming options) false))
          (firstn k (chunksToProcess (loadedCheckpoint env options w)
                       (List.length (chunksOf options document))))
          (fst (loopStart env filePath options document w))
          (snd (loopStart env filePath options document w)).

(** The first checkpoint that [freshRun] writes. *)
Definition firstWritten : Checkpoint :=
  match written (w_trace (snd freshRun)) with
  | c :: _ => c
  | [] => threeOfFive
  end.

(** *** Resumed runs *)

(** What the aggregate [final] keeps of the result [r]: its companies, its
    concepts and its quotes are among those of [final], and its summary,
    when it is not empty, is a part of the summary of [final]. *)
Definition kept (r : ChunkResult) (final : ExtractionResult) : Prop :=
  incl (companies (result r)) (companies final) /\
  incl (business (result r)) (business final) /\
  incl (technical (result r)) (technical final) /\
  incl (quotes (result r)) (quotes final) /\
  (nonEmpty (summary (result r)) = true ->
   within (summary (result r)) (summary final)).

(** A run over a document of two chunks that had five when [oneOfFive]
    was written, and in which every extraction call fails. *)
Definition shrunkRun : Reply ExtractionResult * World :=
  extractLargeDocument failingEnv "essay.txt" smallChunks
                       (freshWorld "A. B." (Some oneOfFive)).

(** The tracker of that run after [k] turns of its loop. *)
Definition shrunkTracker (k : nat) : ProgressTracker :=
  fst (turns failingEnv "essay.txt" smallChunks "A. B."
             (freshWorld "A. B." (Some oneOfFive)) k).

(** Every extraction call for the first chunk fails, the later ones are
    answered; the two environments differ in the text of the fallback
    summary. *)
Definition firstFails (n : nat) (useStreaming : bool)
  : Reply ExtractionResult :=
  if (n <? 4)%nat then Failed "timeout" else Ok sampleResult.

Definition quietEnv : Env :=
  mkEnv firstFails (fun _ => Ok "Plain summary.") (fun n => Z.of_nat n)
        (fun _ => false).

Definition loudEnv : Env :=
  mkEnv firstFails (fun _ => Ok "FALLBACK TEXT") (fun n => Z.of_nat n)
        (fun _ => false).

End Extractor.

(** ** The model comparison script

    [model-comparison.ts] calls two models on one prompt and records a
    telemetry entry for each call in the log of the router. *)

Module Comparison.

Import Router.
Local Open Scope Q_scope.

Definition complexProblem : string := "
A company has 150 employees. They want to organize them into teams where:
- Each team has between 8-12 people
- No team should have exactly 10 people
- Teams should be as equal in size as possible
How should they organize the teams?
".

Definition costMap : list (string * (Q * Q)) :=
  [("openai/gpt-5-mini", (15#100, 60#100));
   ("openai/gpt-5", (250#100, 10));
   ("openai/gpt-5.1-thinking", (3, 12));
   ("openai/gpt-4o-mini", (15#100, 60#100))].

(** The names that every object inherits from [Object.prototype]: for
    these [costMap[model]] is a function or an object, which is truthy and
    has neither [input] nor [output]. *)
Definition inherited : list string :=
  ["constructor"; "toString"; "toLocaleString"; "valueOf"; "hasOwnProperty";
   "isPrototypeOf"; "propertyIsEnumerable"; "__proto__"; "__defineGetter__";
   "__defineSetter__"; "__lookupGetter__"; "__lookupSetter__"].

(** The [estimateCost] of the script; [None] is [NaN]. *)
Definition estimateCost (model : string) (inputTokens outputTokens : Q)
  : option Q :=
  let costs :=
    match find (fun e => String.eqb (fst e) model) costMap with
    | Some (_, c) => Some c
    | None =>
        if existsb (String.eqb model) inherited then None
        else Some (15#100, 60#100)
    end in
  match costs with
  | Some (input, output) =>
      let inputCost := (inputTokens / 1000) * input in
      let outputCost := (outputTokens / 1000) * output in
      Some (inputCost + outputCost)
  | None => None
  end.

(** [Math.ceil(s.length / 4)] *)
Definition tokensOf (s : string) : Q :=
  inject_Z (Z.of_nat ((String.length s + 3) / 4)).

(** [generateText] returns a text or throws; [Date.now()] reads a clock. *)
Record Env := mkEnv {
  generateText : nat -> Extractor.Reply string;
  clock : nat -> Q
}.

Record State := mkState {
  telemetryStore : Store;
  calls : nat;
  ticks : nat
}.

(** One of the two [try] blocks of [compareFastVsReasoning] with its
    [catch]: it returns the success flag it leaves.  Both names the script
    passes are keys of [costMap]. *)
Definition measure (env : Env) (name : string) (s : State) : bool * State :=
  let startTime := clock env (ticks s) in
  let endTime := clock env (S (ticks s)) in
  let responseTime := endTime - startTime in
  let now := clock env (S (S (ticks s))) in
  let entry :=
    match generateText env (calls s) with
    | Extractor.Ok text =>
        let inputTokens := tokensOf complexProblem in
        let outputTokens := tokensOf text in
        let cost :=
          match estimateCost name inputTokens outputTokens with
          | Some c => c
          | None => 0
          end in
        mkTelemetry name "reasoning" responseTime inputTokens outputTokens
                    cost now true
    | Extractor.Failed _ =>
        mkTelemetry name "reasoning" responseTime 0 0 0 now false
    end in
  (success entry,
   mkState (recordTelemetry entry (telemetryStore s)) (S (calls s))
           (S (S (S (ticks s))))).

(** [compareFastVsReasoning]: the statistics it prints, when it prints
    them, and the state it leaves. *)
Definition compareFastVsReasoning (env : Env) (s : State)
  : option (option ModelStats * option ModelStats) * State :=
  let '(fastSuccess, s1) := measure env "openai/gpt-5.1-thinking" s in
  let '(reasoningSuccess, s2) := measure env "openai/gpt-5-mini" s1 in
  (if fastSuccess && reasoningSuccess then
     Some (getModelStats (telemetryStore s2) "openai/gpt-5.1-thinking",
           getModelStats (telemetryStore s2) "openai/gpt-5-mini")
   else None,
   s2).

(** Both calls answer. *)
Definition answering : Env :=
  mkEnv (fun _ => Extractor.Ok "Use fifteen teams.")
        (fun n => inject_Z (Z.of_nat n)).

(** The first call throws. *)
Definition halfAnswering : Env :=
  mkEnv (fun n => match n with
                  | O => Extractor.Failed "rate limit"
                  | _ => Extractor.Ok "Use fifteen teams."
                  end)
        (fun n => inject_Z (Z.of_nat n)).

End Comparison.

(** * Properties of the router *)

Module RouterProofs.

Import Router.
Local Open Scope Q_scope.

(** ** The bounded log *)

Lemma recordAll_snoc l x st :
  recordAll (l ++ [x]) st = recordTelemetry x (recordAll l st).
Proof. unfold recordAll. now rewrite fold_left_app. Qed.

Lemma tl_skipn_snoc {A} (k : nat) (l : list A) (x : A) :
  (k < List.length l)%nat ->
  tl (skipn k l ++ [x]) = skipn (S k) (l ++ [x]).
Proof.
  revert k. induction l as [|a l IH]; intros k Hk; simpl in Hk.
  - lia.
  - destruct k as [|k].
    + reflexivity.
    + change (skipn (S k) (a :: l)) with (skipn k l).
      change (skipn (S (S k)) ((a :: l) ++ [x])) with (skipn (S k) (l ++ [x])).
      apply IH. lia.
Qed.

Lemma recordAll_suffix (n : nat) (l : list CallTelemetry) :
  n = MAX_TELEMETRY_ENTRIES -> (0 < n)%nat ->
  recordAll l [] = skipn (List.length l - n) l.
Proof.
  intros Hn Hpos. induction l as [|x l IH] using rev_ind.
  - now destruct n.
  - rewrite recordAll_snoc, IH. unfold recordTelemetry.
    rewrite <- Hn. rewrite !length_app, length_skipn. cbn [List.length].
    destruct (Nat.ltb_spec n (List.length l - (List.length l - n) + 1)) as [H|H].
    + rewrite tl_skipn_snoc by lia.
      f_equal. lia.
    + replace (List.length l - n)%nat with 0%nat by lia.
      replace (List.length l + 1 - n)%nat with 0%nat by lia.
      reflexivity.
Qed.

(** ** The fallback reduction *)

Lemma Qltb_true a b : Qltb a b = true -> a < b.
Proof.
  unfold Qltb. intros H. apply Qnot_le_lt. intros Hle.
  apply Qle_bool_iff in Hle. rewrite Hle in H. discriminate.
Qed.

Lemma Qltb_false a b : Qltb a b = false -> b <= a.
Proof.
  unfold Qltb. intros H. apply Qle_bool_iff.
  destruct (Qle_bool b a); [reflexivity | discriminate].
Qed.

(** The state of the reduction after any prefix: the kept model sits at
    some index, nothing is faster, and everything before it is strictly
    slower. *)
Lemma reduce_first_minimum (st : Store) (x : ModelMetadata) l :
  exists i,
    nth_error (x :: l) i = Some (reduce1 (faster st) x l) /\
    forall j y, nth_error (x :: l) j = Some y ->
      latencyOf st (reduce1 (faster st) x l) <= latencyOf st y /\
      ((j < i)%nat ->
       latencyOf st (reduce1 (faster st) x l) < latencyOf st y).
Proof.
  induction l as [|z l IH] using rev_ind.
  - exists 0%nat. split; [reflexivity|].
    intros [|j] y Hy; simpl in Hy.
    + injection Hy as <-. split; [apply Qle_refl | lia].
    + destruct j; discriminate.
  - destruct IH as (i & Hi & Hmin).
    unfold reduce1 in *. rewrite fold_left_app. cbn [fold_left].
    set (r := fold_left (faster st) l x) in *.
    assert (Hlen : (i < List.length (x :: l))%nat)
      by (apply nth_error_Some; rewrite Hi; discriminate).
    assert (Hr : faster st r z =
                 if Qltb (latencyOf st z) (latencyOf st r) then z else r)
      by reflexivity.
    rewrite Hr; clear Hr.
    destruct (Qltb (latencyOf st z) (latencyOf st r)) eqn:E.
    + apply Qltb_true in E.
      exists (List.length (x :: l)). split.
      * change (x :: l ++ [z]) with ((x :: l) ++ [z]).
        rewrite nth_error_app2 by lia. now rewrite Nat.sub_diag.
      * intros j y Hy.
        change (x :: l ++ [z]) with ((x :: l) ++ [z]) in Hy.
        destruct (Nat.lt_ge_cases j (List.length (x :: l))) as [Hj|Hj].
        -- rewrite nth_error_app1 in Hy by exact Hj.
           destruct (Hmin j y Hy) as [Hle _].
           assert (latencyOf st z < latencyOf st y)
             by (eapply Qlt_le_trans; eassumption).
           split; [now apply Qlt_le_weak | easy].
        -- rewrite nth_error_app2 in Hy by exact Hj.
           destruct (j - List.length (x :: l))%nat as [|k] eqn:Ek;
             simpl in Hy; [|destruct k; discriminate].
           injection Hy as <-. split; [apply Qle_refl | lia].
    + apply Qltb_false in E.
      exists i. split.
      * change (x :: l ++ [z]) with ((x :: l) ++ [z]).
        now rewrite nth_error_app1 by exact Hlen.
      * intros j y Hy.
        change (x :: l ++ [z]) with ((x :: l) ++ [z]) in Hy.
        destruct (Nat.lt_ge_cases j (List.length (x :: l))) as [Hj|Hj].
        -- rewrite nth_error_app1 in Hy by exact Hj. now apply Hmin.
        -- rewrite nth_error_app2 in Hy by exact Hj.
           destruct (j - List.length (x :: l))%nat as [|k] eqn:Ek;
             simpl in Hy; [|destruct k; discriminate].
           injection Hy as <-. split; [exact E | lia].
Qed.

Lemma selectModel_fallback config st :
  validConfig config = true ->
  viableModels st config = [] ->
  selectModel config st =
    Returned (fullName (fastestModel st))
      [NoModelMeetsLatency (maxLatencyMs config)
                           (fullName (fastestModel st))].
Proof.
  intros Hv He. unfold selectModel. now rewrite Hv, He.
Qed.

(** ** The claims about the router *)

(** C1, as the code has it: for the configuration
    [{task: classification, maxLatencyMs: 2000, priority: cost}] and an empty
    telemetry store, [selectModel] returns [openai/gpt-5-mini], the
    standard-tier model, without a warning.  Three models are within
    2000 ms; the returned one has the highest weighted score, and its
    estimated cost is the lowest of the three, a cost it shares with the
    basic-tier [openai/gpt-4o-mini].  The three scores are about 0.4309,
    0.4259 and 0.3357, and they compare the same way in binary64. *)
Theorem select_cost_classification :
  selectModel costClassification [] = Returned "openai/gpt-5-mini" [] /\
  capabilityTier gpt5mini = standard /\
  viableModels [] costClassification = [gpt5mini; gpt5; gpt4omini] /\
  (forall m, In m (viableModels [] costClassification) ->
     scoreModel [] m costClassification 1000 500
       <= scoreModel [] gpt5mini costClassification 1000 500 /\
     estimateCost gpt5mini 1000 500 <= estimateCost m 1000 500) /\
  estimateCost gpt5mini 1000 500 == estimateCost gpt4omini 1000 500 /\
  scoreModel [] gpt5mini costClassification 1000 500 == 991 # 2300 /\
  scoreModel [] gpt4omini costClassification 1000 500 == 1959 # 4600 /\
  scoreModel [] gpt5 costClassification 1000 500 == 50417 # 150200 /\
  PrimFloat.ltb (scoreModel64 gpt4omini costClassification 1000 500)
                (scoreModel64 gpt5mini costClassification 1000 500) = true /\
  PrimFloat.ltb (scoreModel64 gpt5 costClassification 1000 500)
                (scoreModel64 gpt5mini costClassification 1000 500) = true.
Proof.
  split; [reflexivity|]. split; [reflexivity|]. split; [reflexivity|].
  split; [|repeat split; vm_compute; reflexivity].
  intros m Hm.
  change (viableModels [] costClassification)
    with [gpt5mini; gpt5; gpt4omini] in Hm.
  simpl in Hm. destruct Hm as [<-|[<-|[<-|[]]]];
    split; apply Qle_bool_iff; reflexivity.
Qed.

(** C1 as stated fails: the basic-tier model is not the one returned. *)
Lemma select_cost_classification_not_basic :
  ~ exists warnings,
      selectModel costClassification [] =
        Returned (fullName gpt4omini) warnings.
Proof.
  intros [ws H]. vm_compute in H. discriminate H.
Qed.

(** C3: whatever entries are recorded, starting from the empty log, the log
    never holds more than 1000 of them and is exactly the most recent ones
    in arrival order; one call never takes a log within the bound out of
    it; and after 1001 insertions the log is the 1000 later entries, in
    order, without the first one (which is then in the log only if it was
    inserted again). *)
Theorem telemetry_log_bounded_fifo :
  (forall t st,
     (List.length st <= 1000)%nat ->
     (List.length (recordTelemetry t st) <= 1000)%nat) /\
  (forall l,
     (List.length (recordAll l []) <= 1000)%nat /\
     recordAll l [] = skipn (List.length l - 1000) l) /\
  (forall e l,
     List.length l = 1000%nat ->
     recordAll (e :: l) [] = l /\
     (~ In e l -> ~ In e (recordAll (e :: l) []))).
Proof.
  assert (Hpos : (0 < MAX_TELEMETRY_ENTRIES)%nat)
    by (apply Nat.ltb_lt; reflexivity).
  assert (Hsuffix : forall l,
            recordAll l [] = skipn (List.length l - 1000) l)
    by (intros l; now apply recordAll_suffix).
  split; [|split].
  - intros t st Hst. unfold recordTelemetry.
    fold MAX_TELEMETRY_ENTRIES in *.
    destruct (Nat.ltb_spec MAX_TELEMETRY_ENTRIES (List.length (st ++ [t])))
      as [H|H]; [|exact H].
    rewrite length_app in *. cbn [List.length] in *.
    destruct st; cbn [app tl List.length] in *; [lia|].
    rewrite length_app. cbn [List.length]. lia.
  - intros l. split; [|apply Hsuffix].
    rewrite Hsuffix, length_skipn. fold MAX_TELEMETRY_ENTRIES. lia.
  - intros e l Hl.
    assert (E : recordAll (e :: l) [] = l).
    { rewrite Hsuffix. cbn [List.length]. rewrite Hl.
      replace (S 1000 - 1000)%nat with 1%nat
        by (fold MAX_TELEMETRY_ENTRIES; lia).
      reflexivity. }
    split; [exact E | now rewrite E].
Qed.

Lemma telemetry_log_bounded_fifo_witness :
  recordAll (map numbered (seq 0 1001)) [] = map numbered (seq 1 1000).
Proof.
  exact (proj1 (proj2 (proj2 telemetry_log_bounded_fifo)
                  (numbered 0) (map numbered (seq 1 1000)) eq_refl)).
Defined.

(** C9: in the fallback the returned model is the earliest registry entry
    of minimal effective latency: every entry before it is strictly
    slower, and no entry is faster. *)
Theorem select_fallback_earliest_on_tie (config : RouterConfig) (st : Store) :
  validConfig config = true ->
  viableModels st config = [] ->
  exists i m,
    nth_error MODEL_REGISTRY i = Some m /\
    selectModel config st =
      Returned (fullName m)
        [NoModelMeetsLatency (maxLatencyMs config) (fullName m)] /\
    forall j m', nth_error MODEL_REGISTRY j = Some m' ->
      getCurrentLatency st m <= getCurrentLatency st m' /\
      ((j < i)%nat -> getCurrentLatency st m < getCurrentLatency st m').
Proof.
  intros Hv He.
  destruct (reduce_first_minimum st gpt5mini [gpt5; gpt51thinking; gpt4omini])
    as (i & Hi & Hmin).
  exists i, (fastestModel st). split; [exact Hi|]. split.
  - now apply selectModel_fallback.
  - exact Hmin.
Qed.

(** With [tiedStore] the first and the last registry entry both have the
    minimal effective latency, 400 ms. *)
Lemma select_fallback_earliest_on_tie_witness :
  getCurrentLatency tiedStore gpt5mini == getCurrentLatency tiedStore gpt4omini
  /\ selectModel (mkConfig classification 100 cost None) tiedStore =
       Returned "openai/gpt-5-mini"
         [NoModelMeetsLatency 100 "openai/gpt-5-mini"]
  /\ exists i m,
    nth_error MODEL_REGISTRY i = Some m /\
    selectModel (mkConfig classification 100 cost None) tiedStore =
      Returned (fullName m) [NoModelMeetsLatency 100 (fullName m)] /\
    forall j m', nth_error MODEL_REGISTRY j = Some m' ->
      getCurrentLatency tiedStore m <= getCurrentLatency tiedStore m' /\
      ((j < i)%nat ->
       getCurrentLatency tiedStore m < getCurrentLatency tiedStore m').
Proof.
  split; [reflexivity|]. split; [reflexivity|].
  exact (select_fallback_earliest_on_tie
           (mkConfig classification 100 cost None) tiedStore
           eq_refl eq_refl).
Defined.

(** C10: [estimatedTokens = 0] is read as absent: the input estimate is
    1000 and the output estimate 500 in both cases, every model gets the
    same cost and the same score, and [selectModel] returns the same. *)
Theorem zero_tokens_as_default
    (t : Task) (lat : Q) (p : Priority) (st : Store) :
  let zero := mkConfig t lat p (Some 0) in
  let absent := mkConfig t lat p None in
  estimatedInputTokensOf zero = 1000 /\
  estimatedOutputTokensOf zero = 500 /\
  estimatedInputTokensOf absent = 1000 /\
  estimatedOutputTokensOf absent = 500 /\
  (forall m,
     estimateCost m (estimatedInputTokensOf zero)
                    (estimatedOutputTokensOf zero)
     = estimateCost m 1000 500) /\
  (forall m,
     scoreModel st m zero (estimatedInputTokensOf zero)
                (estimatedOutputTokensOf zero)
     = scoreModel st m absent (estimatedInputTokensOf absent)
                  (estimatedOutputTokensOf absent)) /\
  selectModel zero st = selectModel absent st.
Proof.
  intros zero absent.
  repeat split; reflexivity.
Qed.

(** ** The scored path of [selectModel] *)

Lemma Qle_bool_false a b : Qle_bool a b = false -> b < a.
Proof.
  intros H. apply Qnot_le_lt. intros Hle. apply Qle_bool_iff in Hle.
  rewrite Hle in H. discriminate.
Qed.

(** The first element of the sorted array is the first element of highest
    score of the array. *)
Lemma sortDesc_head {A} (score : A -> Q) (x : A) (l : list A) :
  exists i y rest,
    sortDesc score (x :: l) = y :: rest /\
    nth_error (x :: l) i = Some y /\
    forall j z, nth_error (x :: l) j = Some z ->
      score z <= score y /\ ((j < i)%nat -> score z < score y).
Proof.
  revert x. induction l as [|x' l IH]; intros x.
  - exists 0%nat, x, []. split; [reflexivity|]. split; [reflexivity|].
    intros [|j] z Hz; cbn in Hz.
    + injection Hz as <-. split; [apply Qle_refl | lia].
    + destruct j; discriminate.
  - destruct (IH x') as (i & y & rest & Hs & Hi & Hmax).
    change (sortDesc score (x :: x' :: l))
      with (insertDesc score x (sortDesc score (x' :: l))).
    rewrite Hs. cbn [insertDesc].
    destruct (Qle_bool (score y) (score x)) eqn:E.
    + apply Qle_bool_iff in E.
      exists 0%nat, x, (y :: rest). split; [reflexivity|].
      split; [reflexivity|].
      intros [|j] z Hz; cbn in Hz.
      * injection Hz as <-. split; [apply Qle_refl | lia].
      * split; [|lia]. eapply Qle_trans; [|exact E]. now apply (Hmax j).
    + apply Qle_bool_false in E.
      exists (S i), y, (insertDesc score x rest).
      split; [reflexivity|]. split; [exact Hi|].
      intros [|j] z Hz; cbn in Hz.
      * injection Hz as <-. split; [now apply Qlt_le_weak | now intros _].
      * destruct (Hmax j z Hz) as [Hle Hlt].
        split; [exact Hle | intros Hj; apply Hlt; lia].
Qed.

Lemma nth_error_map_inv {A B} (f : A -> B) l i y :
  nth_error (map f l) i = Some y ->
  exists x, nth_error l i = Some x /\ y = f x.
Proof.
  rewrite nth_error_map. destruct (nth_error l i) as [x|]; cbn; [|discriminate].
  intros [= <-]. now exists x.
Qed.

Lemma selectModel_best (config : RouterConfig) (st : Store) :
  validConfig config = true ->
  viableModels st config <> [] ->
  exists i m,
    nth_error (viableModels st config) i = Some m /\
    In m MODEL_REGISTRY /\
    getCurrentLatency st m <= maxLatencyMs config /\
    selectModel config st = Returned (fullName m) [] /\
    forall j m', nth_error (viableModels st config) j = Some m' ->
      scoreOf st config m' <= scoreOf st config m /\
      ((j < i)%nat -> scoreOf st config m' < scoreOf st config m).
Proof.
  intros Hv Hne. unfold selectModel. rewrite Hv. cbn [negb].
  destruct (viableModels st config) as [|x l] eqn:E; [congruence|].
  set (scored := map (fun m => (m, scoreModel st m config
                                     (estimatedInputTokensOf config)
                                     (estimatedOutputTokensOf config)))
                     (x :: l)).
  destruct (sortDesc_head snd
              (x, scoreModel st x config (estimatedInputTokensOf config)
                    (estimatedOutputTokensOf config))
              (map (fun m => (m, scoreModel st m config
                                    (estimatedInputTokensOf config)
                                    (estimatedOutputTokensOf config))) l))
    as (i & [m sc] & rest & Hs & Hi & Hmax).
  change (sortDesc snd scored = (m, sc) :: rest) in Hs.
  change (nth_error scored i = Some (m, sc)) in Hi.
  rewrite Hs.
  apply nth_error_map_inv in Hi. destruct Hi as (m0 & Hi & Hm).
  injection Hm as -> ->.
  assert (Hin : In m0 (viableModels st config))
    by (rewrite E; eapply nth_error_In; exact Hi).
  unfold viableModels in Hin. apply filter_In in Hin.
  destruct Hin as [Hreg Hlat].
  exists i, m0. split; [exact Hi|]. split; [exact Hreg|].
  split; [now apply Qle_bool_iff|]. split; [reflexivity|].
  intros j m' Hj.
  assert (Hj' : nth_error scored j = Some (m', scoreOf st config m'))
    by (unfold scored; rewrite nth_error_map, Hj; reflexivity).
  exact (Hmax j _ Hj').
Qed.

Lemma fastestModel_in_registry st : In (fastestModel st) MODEL_REGISTRY.
Proof.
  destruct (reduce_first_minimum st gpt5mini [gpt5; gpt51thinking; gpt4omini])
    as (i & Hi & _).
  eapply nth_error_In. exact Hi.
Qed.

(** X2: [selectModel] throws exactly when [maxLatencyMs] is negative, and
    then it is the validation that rejects the configuration; otherwise it
    returns the full name of a model of the registry, with a warning
    exactly when no model is within the latency bound. *)
Theorem select_total (config : RouterConfig) (st : Store) :
  (maxLatencyMs config < 0 -> selectModel config st = ZodError) /\
  (0 <= maxLatencyMs config ->
   exists m,
     In m MODEL_REGISTRY /\
     selectModel config st =
       Returned (fullName m)
         (if Nat.eqb (List.length (viableModels st config)) 0
          then [NoModelMeetsLatency (maxLatencyMs config) (fullName m)]
          else [])).
Proof.
  split.
  - intros Hneg. unfold selectModel, validConfig.
    destruct (Qle_bool 0 (maxLatencyMs config)) eqn:E; [|reflexivity].
    apply Qle_bool_iff in E. exfalso. eapply Qlt_not_le; eassumption.
  - intros Hpos.
    assert (Hv : validConfig config = true) by now apply Qle_bool_iff.
    destruct (viableModels st config) as [|x l] eqn:E.
    + exists (fastestModel st). split; [apply fastestModel_in_registry|].
      now apply selectModel_fallback.
    + destruct (selectModel_best config st Hv)
        as (i & m & _ & Hreg & _ & Hsel & _); [congruence|].
      exists m. split; [exact Hreg | exact Hsel].
Qed.

Lemma select_total_witness :
  selectModel (mkConfig reasoning (-1) quality None) tiedStore = ZodError /\
  exists m,
    In m MODEL_REGISTRY /\
    selectModel (mkConfig reasoning 0 quality None) tiedStore =
      Returned (fullName m)
        (if Nat.eqb
              (List.length
                 (viableModels tiedStore (mkConfig reasoning 0 quality None)))
              0
         then [NoModelMeetsLatency 0 (fullName m)]
         else []).
Proof.
  split.
  - apply (proj1 (select_total (mkConfig reasoning (-1) quality None)
                               tiedStore)).
    reflexivity.
  - apply (proj2 (select_total (mkConfig reasoning 0 quality None) tiedStore)).
    discriminate.
Defined.

(** ** Telemetry queries *)

Lemma sliceLast_length {A} (n : nat) (l : list A) :
  (0 < n)%nat -> List.length (sliceLast n l) = Nat.min n (List.length l).
Proof.
  intros Hn. destruct n as [|n]; [lia|]. unfold sliceLast.
  rewrite length_skipn. lia.
Qed.

Lemma sliceLast_snoc {A} (n : nat) (l : list A) (x : A) :
  exists l', sliceLast n (l ++ [x]) = l' ++ [x].
Proof.
  destruct n as [|n]; [now exists l|]. unfold sliceLast.
  rewrite length_app. cbn [List.length].
  replace (List.length l + 1 - S n)%nat with (List.length l - n)%nat by lia.
  rewrite skipn_app.
  replace (List.length l - n - List.length l)%nat with 0%nat by lia.
  now exists (skipn (List.length l - n) l).
Qed.

Lemma sliceLast_incl {A} (n : nat) (l : list A) x :
  In x (sliceLast n l) -> In x l.
Proof.
  destruct n as [|n]; [easy|]. unfold sliceLast. intros H.
  rewrite <- (firstn_skipn (List.length l - S n) l).
  apply in_or_app. now right.
Qed.

Lemma recordTelemetry_snoc t st :
  exists older, recordTelemetry t st = older ++ [t].
Proof.
  unfold recordTelemetry.
  destruct (Nat.ltb MAX_TELEMETRY_ENTRIES (List.length (st ++ [t]))) eqn:E.
  - destruct st as [|x st]; [discriminate E|]. now exists st.
  - now exists st.
Qed.

Lemma getModelTelemetry_facts (st : Store) (name : string) (limit : nat) :
  (forall t, In t (getModelTelemetry st name limit) ->
             t_model t = name /\ In t st) /\
  ((0 < limit)%nat ->
   (List.length (getModelTelemetry st name limit) <= limit)%nat) /\
  getModelTelemetry st name 0
    = rev (filter (fun t => String.eqb (t_model t) name) st).
Proof.
  split; [|split].
  - intros t Ht. unfold getModelTelemetry in Ht. apply in_rev in Ht.
    apply sliceLast_incl, filter_In in Ht. destruct Ht as [Hin Hm].
    apply String.eqb_eq in Hm. now split.
  - intros Hl. unfold getModelTelemetry.
    rewrite length_rev, sliceLast_length by exact Hl. lia.
  - reflexivity.
Qed.

(** X3: a query with a positive limit returns at most that many entries,
    all of the model asked for and all in the log; with limit 0 it returns
    every entry of the model, since [slice(-0)] is the whole array. *)
Theorem getModelTelemetry_bounded (st : Store) (name : string) (limit : nat) :
  (forall t, In t (getModelTelemetry st name limit) ->
             t_model t = name /\ In t st) /\
  ((0 < limit)%nat ->
   (List.length (getModelTelemetry st name limit) <= limit)%nat) /\
  getModelTelemetry st name 0
    = rev (filter (fun t => String.eqb (t_model t) name) st).
Proof. apply getModelTelemetry_facts. Qed.

Lemma getModelTelemetry_bounded_witness :
  (List.length (getModelTelemetry tiedStore "openai/gpt-5-mini" 4) <= 4)%nat.
Proof.
  apply (proj1 (proj2 (getModelTelemetry_bounded
                         tiedStore "openai/gpt-5-mini" 4))).
  apply Nat.ltb_lt. reflexivity.
Defined.

(** X4: an entry just recorded is the first one that the queries give
    back: [getAllTelemetry] and [getModelTelemetry] for its model, with any
    positive limit, start with it. *)
Theorem recorded_entry_comes_first
    (t : CallTelemetry) (st : Store) (limit : nat) :
  (0 < limit)%nat ->
  hd_error (getAllTelemetry (recordTelemetry t st) limit) = Some t /\
  hd_error (getModelTelemetry (recordTelemetry t st) (t_model t) limit)
    = Some t.
Proof.
  intros Hl. destruct (recordTelemetry_snoc t st) as [older ->]. split.
  - unfold getAllTelemetry.
    destruct (sliceLast_snoc limit older t) as [l' ->].
    now rewrite rev_app_distr.
  - unfold getModelTelemetry. rewrite filter_app. cbn [filter].
    rewrite String.eqb_refl.
    destruct (sliceLast_snoc limit
                (filter (fun x => String.eqb (t_model x) (t_model t)) older) t)
      as [l' ->].
    now rewrite rev_app_distr.
Qed.

Lemma recorded_entry_comes_first_witness :
  hd_error (getAllTelemetry (recordTelemetry (numbered 7) tiedStore) 100)
    = Some (numbered 7) /\
  hd_error (getModelTelemetry (recordTelemetry (numbered 7) tiedStore)
                              (t_model (numbered 7)) 100)
    = Some (numbered 7).
Proof.
  apply (recorded_entry_comes_first (numbered 7) tiedStore 100).
  apply Nat.ltb_lt. reflexivity.
Defined.

(** X5: the effective latency of a model depends on the log only through
    the entries recorded under its full name, and with five such entries
    or fewer it is the static latency of the registry whatever they say. *)
Theorem latency_uses_own_telemetry (st st' : Store) (m : ModelMetadata) :
  let own := filter (fun t => String.eqb (t_model t) (fullName m)) in
  (own st = own st' -> getCurrentLatency st m = getCurrentLatency st' m) /\
  ((List.length (own st) <= 5)%nat -> getCurrentLatency st m = avgLatencyMs m).
Proof.
  intros own. split.
  - intros H. unfold getCurrentLatency, getModelStats, getModelTelemetry.
    fold (own st). fold (own st'). now rewrite H.
  - intros H. unfold getCurrentLatency, getModelStats, getModelTelemetry.
    fold (own st).
    destruct (rev (sliceLast 100 (own st))) as [|x l] eqn:E; [reflexivity|].
    cbn [callCount]. rewrite <- E, length_rev, sliceLast_length by lia.
    destruct (Nat.ltb_spec 5 (Nat.min 100 (List.length (own st))));
      [lia | reflexivity].
Qed.

Lemma latency_uses_own_telemetry_witness :
  getCurrentLatency (repeat (sample "openai/gpt-5" 9000) 5) gpt5
    = avgLatencyMs gpt5.
Proof.
  apply (proj2 (latency_uses_own_telemetry
                  (repeat (sample "openai/gpt-5" 9000) 5) [] gpt5)).
  apply Nat.leb_le. reflexivity.
Defined.

(** ** Statistics *)

Lemma fold_Qplus_shift l : forall a, fold_left Qplus l a == a + sumQ l.
Proof.
  unfold sumQ. induction l as [|x l IH]; intros a; cbn [fold_left].
  - now rewrite Qplus_0_r.
  - rewrite (IH (a + x)), (IH (0 + x)). ring.
Qed.

Lemma Qlen_cons {A} (x : A) l : Qlen (x :: l) == Qlen l + 1.
Proof.
  unfold Qlen. cbn [List.length]. rewrite Nat2Z.inj_succ, <- Z.add_1_r.
  now rewrite inject_Z_plus.
Qed.

Lemma Qlen_nonneg {A} (l : list A) : 0 <= Qlen l.
Proof.
  unfold Qlen. change 0 with (inject_Z 0). rewrite <- Zle_Qle. lia.
Qed.

Lemma Qlen_pos {A} (x : A) l : 0 < Qlen (x :: l).
Proof.
  rewrite Qlen_cons. apply Qlt_le_trans with (0 + 1); [reflexivity|].
  apply Qplus_le_l. apply Qlen_nonneg.
Qed.

(** A sum lies between the length times a lower bound and the length times
    an upper bound of its terms. *)
Lemma sumQ_between lo hi l :
  Forall (fun x => lo <= x /\ x <= hi) l ->
  Qlen l * lo <= sumQ l /\ sumQ l <= Qlen l * hi.
Proof.
  induction 1 as [|x l [Hlo Hhi] _ [IHlo IHhi]].
  - unfold sumQ, Qlen. cbn [List.length fold_left Z.of_nat].
    change (inject_Z 0) with 0. lra.
  - unfold sumQ. cbn [fold_left]. rewrite fold_Qplus_shift, Qlen_cons.
    split; nra.
Qed.

Lemma fold_Qmin2_le l : forall a,
  fold_left Qmin2 l a <= a /\ Forall (fun y => fold_left Qmin2 l a <= y) l.
Proof.
  induction l as [|x l IH]; intros a; cbn [fold_left].
  - split; [apply Qle_refl | constructor].
  - destruct (IH (Qmin2 a x)) as [H1 H2].
    assert (Ha : Qmin2 a x <= a /\ Qmin2 a x <= x).
    { unfold Qmin2. destruct (Qle_bool a x) eqn:E.
      - apply Qle_bool_iff in E. split; [apply Qle_refl | exact E].
      - apply Qle_bool_false in E.
        split; [now apply Qlt_le_weak | apply Qle_refl]. }
    split; [eapply Qle_trans; [exact H1 | apply Ha]|].
    constructor; [eapply Qle_trans; [exact H1 | apply Ha] | exact H2].
Qed.

Lemma fold_Qmax2_ge l : forall a,
  a <= fold_left Qmax2 l a /\ Forall (fun y => y <= fold_left Qmax2 l a) l.
Proof.
  induction l as [|x l IH]; intros a; cbn [fold_left].
  - split; [apply Qle_refl | constructor].
  - destruct (IH (Qmax2 a x)) as [H1 H2].
    assert (Ha : a <= Qmax2 a x /\ x <= Qmax2 a x).
    { unfold Qmax2. destruct (Qle_bool a x) eqn:E.
      - apply Qle_bool_iff in E. split; [exact E | apply Qle_refl].
      - apply Qle_bool_false in E.
        split; [apply Qle_refl | now apply Qlt_le_weak]. }
    split; [eapply Qle_trans; [apply Ha | exact H1]|].
    constructor; [eapply Qle_trans; [apply Ha | exact H1] | exact H2].
Qed.

Lemma Qlen_filter_le {A} (f : A -> bool) l : Qlen (filter f l) <= Qlen l.
Proof.
  unfold Qlen. rewrite <- Zle_Qle. pose proof (filter_length_le f l). lia.
Qed.

Lemma getModelStats_None_iff (st : Store) (name : string) :
  getModelStats st name = None <->
  forall t, In t st -> t_model t <> name.
Proof.
  unfold getModelStats, getModelTelemetry.
  set (own := filter (fun t => String.eqb (t_model t) name) st).
  assert (Hown : own = [] <-> forall t, In t st -> t_model t <> name).
  { split.
    - intros E t Hin Hm.
      assert (In t own)
        by (apply filter_In; split; [exact Hin | now apply String.eqb_eq]).
      rewrite E in H. contradiction.
    - intros H. destruct own as [|t l] eqn:E; [reflexivity|].
      assert (Hin : In t own) by (rewrite E; now left).
      apply filter_In in Hin. destruct Hin as [Hin Hm].
      apply String.eqb_eq in Hm. now destruct (H t Hin). }
  rewrite <- Hown.
  destruct (rev (sliceLast 100 own)) as [|x l] eqn:E.
  + split; [|reflexivity]. intros _.
    apply (f_equal (@List.length _)) in E.
    rewrite length_rev, sliceLast_length in E by lia.
    destruct own; [reflexivity | cbn in E; lia].
  + split; [discriminate|]. intros ->. discriminate E.
Qed.

(** ** Routing statistics *)

Lemma addToGroup_sizes k e groups :
  sumNat (map (fun g => List.length (snd g)) (addToGroup k e groups))
  = S (sumNat (map (fun g => List.length (snd g)) groups)).
Proof.
  unfold sumNat.
  induction groups as [|[k' es] rest IH]; cbn; [reflexivity|].
  destruct (String.eqb k' k); cbn.
  - rewrite length_app. cbn. lia.
  - rewrite IH. lia.
Qed.

Lemma addToGroup_keys k e groups :
  map fst (addToGroup k e groups)
  = if existsb (fun k' => String.eqb k' k) (map fst groups)
    then map fst groups else map fst groups ++ [k].
Proof.
  induction groups as [|[k' es] rest IH]; cbn; [reflexivity|].
  destruct (String.eqb k' k) eqn:E; cbn; [reflexivity|].
  rewrite IH. now destruct (existsb _ (map fst rest)).
Qed.

Lemma addToGroup_nonempty k e groups :
  Forall (fun g => snd g <> []) groups ->
  Forall (fun g => snd g <> []) (addToGroup k e groups).
Proof.
  induction 1 as [|[k' es] rest Hg Hrest IH]; cbn.
  - constructor; [discriminate | constructor].
  - destruct (String.eqb k' k); constructor; try assumption.
    cbn. now destruct es.
Qed.

Lemma groupBy_facts key l :
  let groups := groupBy key l in
  sumNat (map (fun g => List.length (snd g)) groups) = List.length l /\
  NoDup (map fst groups) /\
  Forall (fun g => snd g <> []) groups.
Proof.
  unfold groupBy.
  assert (H : forall groups,
             NoDup (map fst groups) ->
             Forall (fun g => snd g <> []) groups ->
             let out := fold_left (fun g e => addToGroup (key e) e g) l groups in
             sumNat (map (fun g => List.length (snd g)) out)
             = (sumNat (map (fun g => List.length (snd g)) groups)
                + List.length l)%nat /\
             NoDup (map fst out) /\ Forall (fun g => snd g <> []) out).
  { induction l as [|e l IH]; intros groups Hk Hn; cbn [fold_left].
    - cbn. split; [lia | now split].
    - destruct (IH (addToGroup (key e) e groups)) as (Hs & Hk' & Hn').
      + rewrite addToGroup_keys.
        destruct (existsb (fun k' => String.eqb k' (key e)) (map fst groups))
          eqn:E; [exact Hk|].
        apply NoDup_app; [exact Hk | repeat constructor; easy |].
        intros k Hin [Hk0|[]]. subst k.
        assert (existsb (fun k' => String.eqb k' (key e)) (map fst groups)
                = true)
          by (apply existsb_exists; exists (key e); split;
              [exact Hin | apply String.eqb_refl]).
        congruence.
      + now apply addToGroup_nonempty.
      + split; [|now split].
        cbv zeta in Hs. rewrite Hs, addToGroup_sizes. cbn. lia. }
  cbv zeta. destruct (H [] (NoDup_nil _) (Forall_nil _)) as (Hs & Hk & Hn).
  cbv zeta in Hs. now repeat split.
Qed.

Lemma bump_total k counts :
  sumNat (map snd (bump k counts)) = S (sumNat (map snd counts)).
Proof.
  unfold sumNat.
  induction counts as [|[k' n] rest IH]; cbn; [reflexivity|].
  destruct (String.eqb k' k); cbn; [reflexivity | rewrite IH; lia].
Qed.

Lemma distribution_total (entries : list CallTelemetry) :
  forall counts,
    sumNat (map snd (fold_left (fun c e => bump (t_model e) c) entries counts))
    = (sumNat (map snd counts) + List.length entries)%nat.
Proof.
  induction entries as [|e entries IH]; intros counts; cbn [fold_left].
  - cbn. lia.
  - rewrite IH, bump_total. cbn. lia.
Qed.

Lemma firstn_rev_skipn {A} (n m : nat) (l : list A) :
  (n <= m)%nat ->
  firstn n (rev (skipn (List.length l - m) l)) = firstn n (rev l).
Proof.
  intros Hnm. set (k := (List.length l - m)%nat).
  rewrite <- (firstn_skipn k l) at 2.
  rewrite rev_app_distr, firstn_app, length_rev, length_skipn.
  destruct (Nat.le_gt_cases (List.length l) m) as [Hle|Hgt].
  - replace k with 0%nat by (subst k; lia).
    rewrite firstn_O. cbn [rev]. now rewrite firstn_nil, app_nil_r.
  - replace (n - (List.length l - k))%nat with 0%nat by (subst k; lia).
    rewrite firstn_O. now rewrite app_nil_r.
Qed.

(** X7: the routing statistics cover the last 100 entries of the log at
    most; the call counts of the models add up to the total, and so do
    those of the tasks; no model and no task is listed twice or with no
    call; the counts of each task's model distribution add up to the
    calls of the task; and the recent calls are the 20 newest at most. *)
Theorem getRoutingStats_consistent (st : Store) :
  let s := getRoutingStats st in
  totalCalls s = Nat.min (List.length st) 100 /\
  sumNat (map r_callCount (modelStats s)) = totalCalls s /\
  sumNat (map k_callCount (taskStats s)) = totalCalls s /\
  NoDup (map r_model (modelStats s)) /\
  NoDup (map k_task (taskStats s)) /\
  Forall (fun r => (1 <= r_callCount r)%nat) (modelStats s) /\
  Forall (fun k => (1 <= k_callCount k)%nat /\
                   sumNat (map snd (k_modelDistribution k)) = k_callCount k)
         (taskStats s) /\
  recentCalls s = firstn 20 (rev st) /\
  (List.length (recentCalls s) <= 20)%nat.
Proof.
  intros s. subst s. unfold getRoutingStats.
  cbn [totalCalls modelStats taskStats recentCalls].
  set (recent := getAllTelemetry st 100).
  destruct (groupBy_facts t_model recent) as (Hms & Hmk & Hmn).
  destruct (groupBy_facts t_task recent) as (Hts & Htk & Htn).
  assert (Hlen : List.length recent = Nat.min (List.length st) 100).
  { unfold recent, getAllTelemetry.
    rewrite length_rev, sliceLast_length by lia. lia. }
  split; [exact Hlen|].
  split.
  { rewrite <- Hms, map_map. f_equal. apply map_ext. now intros [m es]. }
  split.
  { rewrite <- Hts, map_map. f_equal. apply map_ext. now intros [t es]. }
  split.
  { rewrite map_map. erewrite map_ext; [exact Hmk|]. now intros [m es]. }
  split.
  { rewrite map_map. erewrite map_ext; [exact Htk|]. now intros [t es]. }
  split.
  { apply Forall_map. eapply Forall_impl; [|exact Hmn].
    intros [m [|e es]] H; cbn in *; [congruence | lia]. }
  split.
  { apply Forall_map. eapply Forall_impl; [|exact Htn].
    intros [t es] H. cbn [k_callCount k_modelDistribution].
    split; [destruct es; cbn in *; [congruence | lia]|].
    apply (distribution_total es []). }
  split; [|rewrite length_firstn; lia].
  unfold recent, getAllTelemetry, sliceLast.
  apply firstn_rev_skipn. lia.
Qed.

(** ** The range of the score *)

Lemma sumQ_nonneg l : Forall (fun x => 0 <= x) l -> 0 <= sumQ l.
Proof.
  induction 1 as [|x l Hx _ IH]; [unfold sumQ; cbn; lra|].
  unfold sumQ. cbn [fold_left]. rewrite fold_Qplus_shift. lra.
Qed.

Lemma registry_static m :
  In m MODEL_REGISTRY ->
  0 <= avgLatencyMs m /\ 0 <= baseCostPer1kTokens m /\
  0 <= baseCostPer1kOutputTokens m /\
  forall t, 0 <= capabilityOf m t /\ capabilityOf m t <= 1.
Proof.
  intros [<-|[<-|[<-|[<-|[]]]]]; (split; [|split; [|split]]);
    try (intros [| | |]; split); unfold Qle; cbn; lia.
Qed.

Lemma getCurrentLatency_nonneg st m :
  In m MODEL_REGISTRY ->
  Forall (fun t => 0 <= latencyMs t) st ->
  0 <= getCurrentLatency st m.
Proof.
  intros Hm Hst. destruct (registry_static m Hm) as (Hstatic & _).
  unfold getCurrentLatency, getModelStats.
  pose proof (proj1 (getModelTelemetry_facts st (fullName m) 100)) as Hin.
  destruct (getModelTelemetry st (fullName m) 100) as [|x l];
    [exact Hstatic|].
  cbn [callCount s_avgLatencyMs].
  destruct (Nat.ltb 5 (List.length (x :: l))); [|exact Hstatic].
  apply Qle_shift_div_l; [apply (Qlen_pos (latencyMs x))|].
  assert (0 <= sumQ (map latencyMs (x :: l))); [|lra].
  apply sumQ_nonneg, Forall_map, Forall_forall. intros t Ht.
  rewrite Forall_forall in Hst. apply Hst, Hin, Ht.
Qed.

(** X8: for a model of the registry, a positive latency bound, a log
    without negative latencies and a token estimate that is not negative,
    the score that [selectModel] compares lies between 0 and 1. *)
Theorem score_between_0_and_1
    (config : RouterConfig) (st : Store) (m : ModelMetadata) :
  In m MODEL_REGISTRY ->
  0 < maxLatencyMs config ->
  Forall (fun t => 0 <= latencyMs t) st ->
  0 <= estimatedInputTokensOf config ->
  0 <= scoreOf st config m /\ scoreOf st config m <= 1.
Proof.
  intros Hm Hmax Hst Hin.
  destruct (registry_static m Hm) as (_ & Hci & Hco & Hcap).
  pose proof (getCurrentLatency_nonneg st m Hm Hst) as Hlat.
  assert (Hout : 0 <= estimatedOutputTokensOf config).
  { unfold estimatedOutputTokensOf. change 0 with (inject_Z 0).
    rewrite <- Zle_Qle. change 0%Z with (Qfloor 0).
    apply Qfloor_resp_le. nra. }
  unfold scoreOf, scoreModel.
  set (estIn := estimatedInputTokensOf config) in *.
  set (estOut := estimatedOutputTokensOf config) in *.
  destruct (Hcap (task config)) as [Hc0 Hc1].
  set (c := capabilityOf m (task config)) in *.
  assert (Hcost : 0 <= estimateCost m estIn estOut).
  { unfold estimateCost.
    assert (0 <= estIn / 1000) by (apply Qle_shift_div_l; lra).
    assert (0 <= estOut / 1000) by (apply Qle_shift_div_l; lra).
    nra. }
  set (cst := estimateCost m estIn estOut) in *.
  assert (HK : 0 <= 1 / (1 + cst * 100) /\ 1 / (1 + cst * 100) <= 1).
  { split; [apply Qle_shift_div_l | apply Qle_shift_div_r]; lra. }
  set (K := 1 / (1 + cst * 100)) in *.
  assert (Hr : 0 <= getCurrentLatency st m / maxLatencyMs config)
    by (apply Qle_shift_div_l; lra).
  set (r := getCurrentLatency st m / maxLatencyMs config) in *.
  assert (HL : 0 <= Qmax0 (1 - r) /\ Qmax0 (1 - r) <= 1).
  { unfold Qmax0. destruct (Qle_bool (1 - r) 0) eqn:E; [lra|].
    apply Qle_bool_false in E. lra. }
  set (L := Qmax0 (1 - r)) in *.
  destruct (priority config); cbn [weights]; lra.
Qed.

Lemma score_between_0_and_1_witness :
  0 <= scoreOf tiedStore costClassification gpt5 /\
  scoreOf tiedStore costClassification gpt5 <= 1.
Proof.
  apply score_between_0_and_1.
  - right. left. reflexivity.
  - reflexivity.
  - repeat constructor; discriminate.
  - discriminate.
Defined.

(** ** What a selection reads of the log *)

Lemma getCurrentLatency_few st m :
  (List.length (entriesOf m st) <= 5)%nat ->
  getCurrentLatency st m = avgLatencyMs m.
Proof.
  intros H. unfold getCurrentLatency, getModelStats, getModelTelemetry.
  fold (entriesOf m st).
  destruct (rev (sliceLast 100 (entriesOf m st))) as [|x l] eqn:E;
    [reflexivity|].
  cbn [callCount]. rewrite <- E, length_rev, sliceLast_length by lia.
  destruct (Nat.ltb_spec 5 (Nat.min 100 (List.length (entriesOf m st))));
    [lia | reflexivity].
Qed.

Lemma filter_ext_registry (f g : ModelMetadata -> bool) :
  (forall m, In m MODEL_REGISTRY -> f m = g m) ->
  filter f MODEL_REGISTRY = filter g MODEL_REGISTRY.
Proof. intros H. apply filter_ext_in. exact H. Qed.

Lemma fold_faster_ext st st' :
  (forall m, In m MODEL_REGISTRY ->
             getCurrentLatency st m = getCurrentLatency st' m) ->
  forall l x,
    In x MODEL_REGISTRY -> incl l MODEL_REGISTRY ->
    fold_left (faster st) l x = fold_left (faster st') l x.
Proof.
  intros H. induction l as [|y l IH]; intros x Hx Hl; [reflexivity|].
  cbn [fold_left].
  assert (Hy : In y MODEL_REGISTRY) by (apply Hl; now left).
  assert (E : faster st x y = faster st' x y)
    by (unfold faster; now rewrite (H x Hx), (H y Hy)).
  rewrite E. apply IH.
  - unfold faster. now destruct (Qltb _ _).
  - intros m Hm. apply Hl. now right.
Qed.

Lemma selectModel_latencies config st st' :
  (forall m, In m MODEL_REGISTRY ->
             getCurrentLatency st m = getCurrentLatency st' m) ->
  selectModel config st = selectModel config st'.
Proof.
  intros H. unfold selectModel.
  destruct (negb (validConfig config)); [reflexivity|]. cbv zeta.
  assert (Hv : viableModels st config = viableModels st' config).
  { unfold viableModels. apply filter_ext_in. intros m Hm.
    now rewrite (H m Hm). }
  assert (Hf : fastestModel st = fastestModel st').
  { unfold fastestModel, MODEL_REGISTRY, reduce1.
    apply fold_faster_ext; [exact H | cbn; tauto|].
    intros m Hm. now right. }
  rewrite Hv, Hf.
  destruct (viableModels st' config) as [|x l] eqn:E; [reflexivity|].
  assert (Hs : map (fun m => (m, scoreModel st m config
                                   (estimatedInputTokensOf config)
                                   (estimatedOutputTokensOf config)))
                   (x :: l)
               = map (fun m => (m, scoreModel st' m config
                                     (estimatedInputTokensOf config)
                                     (estimatedOutputTokensOf config)))
                     (x :: l)).
  { apply map_ext_in. intros m Hm. f_equal.
    assert (Hreg : In m MODEL_REGISTRY).
    { rewrite <- E in Hm. unfold viableModels in Hm.
      now apply filter_In in Hm. }
    unfold scoreModel. now rewrite (H m Hreg). }
  now rewrite Hs.
Qed.

(** X24: the selections of [runDemo].  Whenever the log holds at most
    five entries for each model of the registry, in particular when it is
    empty, the four calls return [openai/gpt-5-mini],
    [openai/gpt-5.1-thinking], [openai/gpt-5-mini] and
    [openai/gpt-4o-mini], without a warning; each of these has a binary64
    score above that of every other model within the latency bound of its
    call. *)
Theorem demo_selections_without_telemetry (st : Store) :
  (forall m, In m MODEL_REGISTRY ->
             (List.length (entriesOf m st) <= 5)%nat) ->
  runDemo st
  = [Returned "openai/gpt-5-mini" []; Returned "openai/gpt-5.1-thinking" [];
     Returned "openai/gpt-5-mini" []; Returned "openai/gpt-4o-mini" []] /\
  map (viableModels st) demoConfigs
  = [[gpt5mini; gpt5; gpt4omini]; [gpt5mini; gpt5; gpt51thinking; gpt4omini];
     [gpt5mini; gpt5; gpt4omini]; [gpt5mini; gpt4omini]] /\
  forallb (above64 (nth 0 demoConfigs costClassification) gpt5mini)
          [gpt5; gpt4omini] = true /\
  forallb (above64 (nth 1 demoConfigs costClassification) gpt51thinking)
          [gpt5mini; gpt5; gpt4omini] = true /\
  forallb (above64 (nth 2 demoConfigs costClassification) gpt5mini)
          [gpt5; gpt4omini] = true /\
  forallb (above64 (nth 3 demoConfigs costClassification) gpt4omini)
          [gpt5mini] = true.
Proof.
  intros H.
  assert (Hl : forall m, In m MODEL_REGISTRY ->
                 getCurrentLatency st m = getCurrentLatency [] m).
  { intros m Hm. rewrite (getCurrentLatency_few st m (H m Hm)).
    reflexivity. }
  split; [|split].
  - unfold runDemo, demoConfigs, selectEach.
    rewrite !(selectModel_latencies _ st [] Hl). reflexivity.
  - unfold demoConfigs, viableModels. cbn [map].
    rewrite !(filter_ext_in _ _ MODEL_REGISTRY
                (fun m Hm => f_equal (fun x => Qle_bool x _) (Hl m Hm))).
    reflexivity.
  - repeat split; vm_compute; reflexivity.
Qed.

Lemma demo_selections_without_telemetry_witness :
  runDemo []
  = [Returned "openai/gpt-5-mini" []; Returned "openai/gpt-5.1-thinking" [];
     Returned "openai/gpt-5-mini" []; Returned "openai/gpt-4o-mini" []].
Proof.
  apply (demo_selections_without_telemetry []).
  intros m _. cbn. lia.
Defined.

(** ** The effective latency *)

Ltac whole_at z := exists z; split; [reflexivity | split; discriminate].

Ltac whole_log z :=
  unfold wholeLog; cbn;
  repeat (apply Forall_cons; [whole_at z|]); apply Forall_nil.


Lemma sumQ_rev l : sumQ (rev l) == sumQ l.
Proof.
  induction l as [|x l IH]; [reflexivity|].
  cbn [rev]. unfold sumQ at 1. rewrite fold_left_app. cbn [fold_left].
  fold (sumQ (rev l)). rewrite IH.
  unfold sumQ at 2. cbn [fold_left]. rewrite fold_Qplus_shift. ring.
Qed.

(** The latency that [getCurrentLatency] computes is the effective latency
    of the specification. *)
Lemma getCurrentLatency_effective st m :
  getCurrentLatency st m == effectiveLatency st m.
Proof.
  unfold getCurrentLatency, getModelStats, getModelTelemetry.
  fold (entriesOf m st).
  unfold effectiveLatency, observedLatencies.
  set (own := entriesOf m st).
  assert (Hlen : List.length (rev (sliceLast 100 own))
                 = Nat.min 100 (List.length own))
    by (rewrite length_rev; apply sliceLast_length; lia).
  destruct (rev (sliceLast 100 own)) as [|x l] eqn:E.
  - cbn [List.length] in Hlen.
    destruct (Nat.ltb_spec 5 (List.length own)); [lia | reflexivity].
  - cbn [callCount s_avgLatencyMs]. rewrite Hlen.
    destruct (Nat.ltb_spec 5 (Nat.min 100 (List.length own)));
      destruct (Nat.ltb_spec 5 (List.length own)); try lia; [|reflexivity].
    rewrite <- E, map_rev, sumQ_rev.
    unfold Qlen. rewrite length_rev. reflexivity.
Qed.

Lemma viable_effective config st m :
  In m (viableModels st config) <->
  In m MODEL_REGISTRY /\ effectiveLatency st m <= maxLatencyMs config.
Proof.
  unfold viableModels. rewrite filter_In, Qle_bool_iff.
  now rewrite getCurrentLatency_effective.
Qed.

(** ** Selections under equal latencies *)

Lemma Qmax0_comp a b : a == b -> Qmax0 a == Qmax0 b.
Proof.
  intros H. unfold Qmax0. rewrite H.
  destruct (Qle_bool b 0); [reflexivity | exact H].
Qed.

Lemma scoreModel_comp st st' m config estIn estOut :
  getCurrentLatency st m == getCurrentLatency st' m ->
  scoreModel st m config estIn estOut == scoreModel st' m config estIn estOut.
Proof.
  intros H. unfold scoreModel.
  assert (HL : Qmax0 (1 - getCurrentLatency st m / maxLatencyMs config)
               == Qmax0 (1 - getCurrentLatency st' m / maxLatencyMs config))
    by (apply Qmax0_comp; now rewrite H).
  destruct (priority config); cbn [weights]; now rewrite HL.
Qed.

Lemma insertDesc_sameScores x x' l l' :
  fst x = fst x' -> snd x == snd x' ->
  sameScores l l' ->
  sameScores (insertDesc snd x l) (insertDesc snd x' l').
Proof.
  intros Hf Hs H. induction H as [|y y' l l' [Hyf Hys] H IH].
  - constructor; [now split | constructor].
  - cbn [insertDesc]. rewrite Hys, Hs.
    destruct (Qle_bool (snd y') (snd x')).
    + constructor; [now split|]. constructor; [now split | exact H].
    + constructor; [now split | exact IH].
Qed.

Lemma sortDesc_sameScores l l' :
  sameScores l l' -> sameScores (sortDesc snd l) (sortDesc snd l').
Proof.
  induction 1 as [|x x' l l' [Hf Hs] H IH]; [constructor|].
  change (sameScores (insertDesc snd x (sortDesc snd l))
                     (insertDesc snd x' (sortDesc snd l'))).
  now apply insertDesc_sameScores.
Qed.

Lemma fold_faster_comp st st' :
  (forall m, In m MODEL_REGISTRY ->
             getCurrentLatency st m == getCurrentLatency st' m) ->
  forall l x,
    In x MODEL_REGISTRY -> incl l MODEL_REGISTRY ->
    fold_left (faster st) l x = fold_left (faster st') l x.
Proof.
  intros H. induction l as [|y l IH]; intros x Hx Hl; [reflexivity|].
  cbn [fold_left].
  assert (Hy : In y MODEL_REGISTRY) by (apply Hl; now left).
  assert (E : faster st x y = faster st' x y)
    by (unfold faster, Qltb; now rewrite (H x Hx), (H y Hy)).
  rewrite E. apply IH.
  - unfold faster. now destruct (Qltb _ _).
  - intros m Hm. apply Hl. now right.
Qed.

Lemma selectModel_comp config st st' :
  (forall m, In m MODEL_REGISTRY ->
             getCurrentLatency st m == getCurrentLatency st' m) ->
  selectModel config st = selectModel config st'.
Proof.
  intros H. unfold selectModel.
  destruct (negb (validConfig config)); [reflexivity|]. cbv zeta.
  assert (Hv : viableModels st config = viableModels st' config).
  { unfold viableModels. apply filter_ext_in. intros m Hm.
    now rewrite (H m Hm). }
  assert (Hf : fastestModel st = fastestModel st').
  { unfold fastestModel, MODEL_REGISTRY, reduce1.
    apply fold_faster_comp; [exact H | cbn; tauto|].
    intros m Hm. now right. }
  rewrite Hv, Hf.
  destruct (viableModels st' config) as [|x l] eqn:E; [reflexivity|].
  set (score := fun s m => scoreModel s m config
                             (estimatedInputTokensOf config)
                             (estimatedOutputTokensOf config)).
  assert (Hs : sameScores (map (fun m => (m, score st m)) (x :: l))
                          (map (fun m => (m, score st' m)) (x :: l))).
  { assert (Hreg : forall m, In m (x :: l) -> In m MODEL_REGISTRY).
    { intros m Hm. rewrite <- E in Hm. unfold viableModels in Hm.
      now apply filter_In in Hm. }
    clear E. revert Hreg. generalize (x :: l) as ms.
    induction ms as [|m ms IH]; intros Hreg; [constructor|].
    constructor.
    - split; [reflexivity|]. apply scoreModel_comp, H, Hreg. now left.
    - apply IH. intros m' Hm'. apply Hreg. now right. }
  apply sortDesc_sameScores in Hs.
  change (match sortDesc snd (map (fun m => (m, score st m)) (x :: l)) with
          | (selected, _) :: _ => Returned (fullName selected) []
          | [] => TypeError
          end
          = match sortDesc snd (map (fun m => (m, score st' m)) (x :: l)) with
            | (selected, _) :: _ => Returned (fullName selected) []
            | [] => TypeError
            end).
  destruct Hs as [|[a sa] [b sb] ra rb [Hab _] _]; [reflexivity|].
  cbn [fst] in Hab. now rewrite Hab.
Qed.

Lemma selectModel_effective config st st' :
  (forall m, In m MODEL_REGISTRY ->
             effectiveLatency st m == effectiveLatency st' m) ->
  selectModel config st = selectModel config st'.
Proof.
  intros H. apply selectModel_comp. intros m Hm.
  now rewrite !getCurrentLatency_effective, (H m Hm).
Qed.

(** X23: [selectModel] reads the telemetry log only through the effective
    latencies of the four registry models: two logs of whole-millisecond
    latencies that give each model the same effective latency as a number,
    whatever calls the averages are taken of, give the same selection, the
    same warning and the same error for every configuration. *)
Theorem selection_reads_latencies_only
    (config : RouterConfig) (st st' : Store) :
  wholeLog st -> wholeLog st' ->
  (forall m, In m MODEL_REGISTRY ->
             effectiveLatency st m == effectiveLatency st' m) ->
  selectModel config st = selectModel config st'.
Proof. intros _ _. apply selectModel_effective. Qed.

Lemma selection_reads_latencies_only_witness :
  selectModel costClassification tiedStore
  = selectModel costClassification tiedStore7.
Proof.
  apply (selection_reads_latencies_only costClassification
           tiedStore tiedStore7).
  - whole_log 400%Z.
  - whole_log 400%Z.
  - intros m Hm. cbn in Hm.
    destruct Hm as [<-|[<-|[<-|[<-|[]]]]]; vm_compute; reflexivity.
Defined.

(** ** The fallback *)



(** ** The scored path, by a margin *)

Lemma whole_nonneg q : whole q -> 0 <= q.
Proof.
  intros (z & -> & Hz & _). change 0 with (inject_Z 0).
  rewrite <- Zle_Qle. exact Hz.
Qed.

(** X1: for a configuration of whole numbers with a positive latency bound
    and a log of whole-millisecond latencies, a registry model within the
    bound whose score is above the score of every other model within the
    bound by the margin is the one that [selectModel] returns, without a
    warning.  The bound is on the effective latency of the
    specification. *)
Theorem select_highest_score
    (config : RouterConfig) (st : Store) (m : ModelMetadata) :
  wholeConfig config ->
  0 < maxLatencyMs config ->
  wholeLog st ->
  In m MODEL_REGISTRY ->
  effectiveLatency st m <= maxLatencyMs config ->
  (forall m', In m' MODEL_REGISTRY ->
     fullName m' <> fullName m ->
     effectiveLatency st m' <= maxLatencyMs config ->
     scoreOf st config m' + margin <= scoreOf st config m) ->
  selectModel config st = Returned (fullName m) [].
Proof.
  intros _ Hpos _ Hm Hlat Hwin.
  assert (Hv : validConfig config = true)
    by (apply Qle_bool_iff; now apply Qlt_le_weak).
  assert (Hin : In m (viableModels st config))
    by (apply viable_effective; now split).
  assert (Hne : viableModels st config <> [])
    by (intros E; rewrite E in Hin; exact Hin).
  destruct (selectModel_best config st Hv Hne)
    as (i & m0 & Hi & Hreg & Hle & Hsel & Hmax).
  rewrite Hsel.
  destruct (String.eqb (fullName m0) (fullName m)) eqn:E.
  - apply String.eqb_eq in E. now rewrite E.
  - apply String.eqb_neq in E. exfalso.
    rewrite getCurrentLatency_effective in Hle.
    pose proof (Hwin m0 Hreg E Hle) as Hgap.
    apply In_nth_error in Hin as [j Hj].
    destruct (Hmax j m Hj) as [Hbest _].
    unfold margin in Hgap.
    assert (0 < 1 # 1000000) by reflexivity. lra.
Qed.

Lemma select_highest_score_witness :
  selectModel costClassification [] = Returned "openai/gpt-5-mini" [] /\
  effectiveLatency (repeat (sample "openai/gpt-5-mini" 1900) 6) gpt5mini
    == 1900 /\
  selectModel costClassification (repeat (sample "openai/gpt-5-mini" 1900) 6)
    = Returned "openai/gpt-4o-mini" [].
Proof.
  split; [vm_compute; reflexivity|]. split; [vm_compute; reflexivity|].
  apply (select_highest_score costClassification
           (repeat (sample "openai/gpt-5-mini" 1900) 6) gpt4omini).
  - split; [|exact I].
    whole_at 2000%Z.
  - reflexivity.
  - whole_log 1900%Z.
  - right. right. right. left. reflexivity.
  - vm_compute. discriminate.
  - intros m' Hm' Hne _. cbn in Hm'.
    destruct Hm' as [<-|[<-|[<-|[<-|[]]]]];
      try (exfalso; apply Hne; reflexivity); vm_compute; discriminate.
Defined.

(** ** The statistics, exact and rounded *)

Lemma rounding_comp fl a b : rounding fl -> a == b -> fl a == fl b.
Proof.
  intros [Hmono _] H. apply Qle_antisym; apply Hmono; rewrite H; apply Qle_refl.
Qed.

Lemma rounding_whole fl q z :
  rounding fl -> q == inject_Z z -> (Z.abs z <= 2 ^ 53)%Z -> fl q == q.
Proof.
  intros Hfl Hq Hz. rewrite (rounding_comp fl _ _ Hfl Hq), Hq.
  now apply Hfl.
Qed.

(** The sum of whole numbers is computed without rounding. *)
Lemma rounded_sum fl l :
  rounding fl -> Forall whole l ->
  forall acc z,
    acc == inject_Z z -> (0 <= z)%Z ->
    (z + Z.of_nat (List.length l) * 2 ^ 32 <= 2 ^ 53)%Z ->
    fold_left (fun a b => fl (a + b)) l acc == fold_left Qplus l acc.
Proof.
  intros Hfl Hl. induction Hl as [|x l (zx & Hx & Hzx) _ IH];
    intros acc z Hacc Hz Hbound; [reflexivity|].
  cbn [fold_left].
  assert (Hsum : acc + x == inject_Z (z + zx))
    by (rewrite inject_Z_plus, Hacc, Hx; reflexivity).
  cbn [List.length] in Hbound. rewrite Nat2Z.inj_succ in Hbound.
  assert (Hstep : fl (acc + x) == acc + x)
    by (apply (rounding_whole fl _ (z + zx) Hfl Hsum); lia).
  rewrite (IH (fl (acc + x)) (z + zx)%Z); [| now rewrite Hstep | lia | lia].
  rewrite !fold_Qplus_shift. now rewrite Hstep.
Qed.

Lemma roundedMean_whole fl l :
  rounding fl -> Forall whole l -> (List.length l <= 100)%nat ->
  roundedMean fl l == fl (sumQ l / Qlen l).
Proof.
  intros Hfl Hl Hlen. unfold roundedMean. apply rounding_comp; [exact Hfl|].
  rewrite (rounded_sum fl l Hfl Hl 0 0%Z); [reflexivity | reflexivity | lia|].
  assert (Z.of_nat (List.length l) <= 100)%Z by lia.
  change (2 ^ 32)%Z with 4294967296%Z.
  change (2 ^ 53)%Z with 9007199254740992%Z. lia.
Qed.

Lemma fold_Qmin2_In l : forall a, In (fold_left Qmin2 l a) (a :: l).
Proof.
  induction l as [|x l IH]; intros a; [now left|].
  cbn [fold_left]. destruct (IH (Qmin2 a x)) as [H|H].
  - rewrite <- H. unfold Qmin2. destruct (Qle_bool a x);
      [now left | right; now left].
  - right. now right.
Qed.

Lemma fold_Qmax2_In l : forall a, In (fold_left Qmax2 l a) (a :: l).
Proof.
  induction l as [|x l IH]; intros a; [now left|].
  cbn [fold_left]. destruct (IH (Qmax2 a x)) as [H|H].
  - rewrite <- H. unfold Qmax2. destruct (Qle_bool a x);
      [right; now left | now left].
  - right. now right.
Qed.

(** X6: [getModelStats] gives no statistics exactly when the log has no
    entry of the model.  When it gives some, they cover between 1 and 100
    calls and the success rate is between 0 and 1; and when the latencies
    of the log are whole milliseconds, the average latency lies between
    the minimum and the maximum latency it reports, both as the exact
    quotient and as binary64 computes it, the second being the rounding of
    the first. *)
Theorem getModelStats_sound (st : Store) (name : string) :
  (getModelStats st name = None <->
   forall t, In t st -> t_model t <> name) /\
  forall stats,
    getModelStats st name = Some stats ->
    (1 <= callCount stats <= 100)%nat /\
    0 <= successRate stats /\ successRate stats <= 1 /\
    (wholeLog st ->
     exists lo hi,
       latencyRange st name = Some (lo, hi) /\
       lo <= s_avgLatencyMs stats /\ s_avgLatencyMs stats <= hi /\
       forall fl, rounding fl ->
         let mean :=
           roundedMean fl (map latencyMs (getModelTelemetry st name 100)) in
         mean == fl (s_avgLatencyMs stats) /\ lo <= mean /\ mean <= hi).
Proof.
  split.
  - apply getModelStats_None_iff.
  - intros stats H. unfold getModelStats in H. unfold latencyRange.
    assert (Hlen : (List.length (getModelTelemetry st name 100) <= 100)%nat)
      by (apply getModelTelemetry_facts; lia).
    pose proof (proj1 (getModelTelemetry_facts st name 100)) as Hown.
    destruct (getModelTelemetry st name 100) as [|x l]; [discriminate|].
    injection H as <-. cbn [callCount successRate s_avgLatencyMs].
    split; [cbn [List.length] in *; lia|].
    pose proof (Qlen_pos x l) as Hpos.
    pose proof (Qlen_nonneg (filter success (x :: l))) as Hs0.
    pose proof (Qlen_filter_le success (x :: l)) as Hs1.
    cbn [filter] in Hs0, Hs1.
    split; [apply Qle_shift_div_l; [exact Hpos | lra]|].
    split; [apply Qle_shift_div_r; [exact Hpos | lra]|].
    intros Hwhole.
    assert (Hws : Forall whole (map latencyMs (x :: l))).
    { apply Forall_map, Forall_forall. intros t Ht.
      unfold wholeLog in Hwhole. rewrite Forall_forall in Hwhole.
      apply Hwhole, Hown, Ht. }
    cbn [map] in *.
    set (lats := latencyMs x :: map latencyMs l) in *.
    set (lo := fold_left Qmin2 (map latencyMs l) (latencyMs x)).
    set (hi := fold_left Qmax2 (map latencyMs l) (latencyMs x)).
    exists lo, hi.
    split; [reflexivity|].
    destruct (fold_Qmin2_le (map latencyMs l) (latencyMs x)) as [Hm1 Hm2].
    destruct (fold_Qmax2_ge (map latencyMs l) (latencyMs x)) as [HM1 HM2].
    assert (Hall : Forall (fun y => lo <= y /\ y <= hi) lats).
    { constructor; [now split|].
      rewrite Forall_forall in *. intros y Hy. split; [apply Hm2 | apply HM2];
        exact Hy. }
    destruct (sumQ_between _ _ _ Hall) as [Hlo Hhi].
    assert (Hp : 0 < Qlen lats) by apply Qlen_pos.
    assert (Hlo' : lo <= sumQ lats / Qlen lats)
      by (apply Qle_shift_div_l; [exact Hp | lra]).
    assert (Hhi' : sumQ lats / Qlen lats <= hi)
      by (apply Qle_shift_div_r; [exact Hp | lra]).
    split; [exact Hlo'|]. split; [exact Hhi'|].
    intros fl Hfl. cbv zeta.
    assert (Hmean : roundedMean fl lats == fl (sumQ lats / Qlen lats)).
    { apply roundedMean_whole; [exact Hfl | exact Hws|].
      unfold lats. cbn [List.length] in *. rewrite length_map. exact Hlen. }
    assert (Hex : forall q, In q lats -> fl q == q).
    { intros q Hq. rewrite Forall_forall in Hws.
      destruct (Hws q Hq) as (z & Hz & Hz0 & Hz1).
      apply (rounding_whole fl q z Hfl Hz).
      change (2 ^ 32)%Z with 4294967296%Z in Hz1.
      change (2 ^ 53)%Z with 9007199254740992%Z. lia. }
    split; [exact Hmean|]. rewrite Hmean.
    split.
    + apply Qle_trans with (fl lo); [|now apply Hfl].
      rewrite (Hex lo) by apply fold_Qmin2_In. apply Qle_refl.
    + apply Qle_trans with (fl hi); [now apply Hfl|].
      rewrite (Hex hi) by apply fold_Qmax2_In. apply Qle_refl.
Qed.

Lemma getModelStats_sound_witness :
  exists stats lo hi,
    getModelStats tiedStore "openai/gpt-5-mini" = Some stats /\
    latencyRange tiedStore "openai/gpt-5-mini" = Some (lo, hi) /\
    lo <= s_avgLatencyMs stats /\ s_avgLatencyMs stats <= hi /\
    s_avgLatencyMs stats == 400 /\
    roundedMean unrounded
      (map latencyMs (getModelTelemetry tiedStore "openai/gpt-5-mini" 100))
    == 400.
Proof.
  destruct (getModelStats tiedStore "openai/gpt-5-mini") as [stats|] eqn:E;
    [|discriminate E].
  destruct (proj2 (getModelStats_sound tiedStore "openai/gpt-5-mini") stats E)
    as (_ & _ & _ & Hw).
  destruct Hw as (lo & hi & Hr & Hlo & Hhi & _).
  { whole_log 400%Z. }
  exists stats, lo, hi.
  split; [reflexivity|]. split; [exact Hr|]. split; [exact Hlo|].
  split; [exact Hhi|].
  split; [injection E as <-|]; vm_compute; reflexivity.
Defined.

End RouterProofs.

(** * Properties of the extractor *)

Module ExtractorProofs.

Import Extractor.
Local Open Scope Z_scope.

Lemma processChunkFuel_eq env fuel chunk idx total retries us w :
  processChunkFuel env fuel chunk idx total retries us w =
  match objectReply env (w_calls w) us with
  | Ok out =>
      (mkChunkResult idx out true None (attemptTime env w),
       afterAttempt idx retries w)
  | Failed message =>
      let failure :=
        mkChunkResult idx (failedPayload message) false (Some message)
                      (attemptTime env w) in
      if (retries <? MAX_RETRIES)%nat then
        match fuel with
        | S fuel' =>
            processChunkFuel env fuel' chunk idx total (S retries) us
              (snd (sleep (1000 * (Z.of_nat retries + 1))
                          (afterAttempt idx retries w)))
        | O => (failure, afterAttempt idx retries w)
        end
      else (failure, afterAttempt idx retries w)
  end.
Proof.
  destruct fuel; cbn; unfold bind, generateStructured, dateNow, nextCall,
    emit, ret, bind; cbn;
  destruct (objectReply env (w_calls w) us); try reflexivity;
  match goal with |- context [Nat.leb ?a ?b] => destruct (Nat.leb a b) end;
  reflexivity.
Qed.

(** [processChunk] obeys the recursive equation of the source: its fuel
    does not run out. *)
Lemma processChunk_eq env chunk idx total retries us w :
  processChunk env chunk idx total retries us w =
  match objectReply env (w_calls w) us with
  | Ok out =>
      (mkChunkResult idx out true None (attemptTime env w),
       afterAttempt idx retries w)
  | Failed message =>
      if (retries <? MAX_RETRIES)%nat then
        processChunk env chunk idx total (S retries) us
          (snd (sleep (1000 * (Z.of_nat retries + 1))
                      (afterAttempt idx retries w)))
      else
        (mkChunkResult idx (failedPayload message) false (Some message)
                       (attemptTime env w),
         afterAttempt idx retries w)
  end.
Proof.
  unfold processChunk. rewrite processChunkFuel_eq.
  destruct (objectReply env (w_calls w) us) as [out|message]; [reflexivity|].
  cbv zeta. destruct (Nat.ltb_spec retries MAX_RETRIES) as [Hlt|Hge];
    [|reflexivity].
  replace (MAX_RETRIES - retries)%nat with (S (MAX_RETRIES - S retries))
    by lia.
  reflexivity.
Qed.

Lemma processChunkFuel_spec env chunk idx total us :
  forall fuel retries w r w',
    (MAX_RETRIES - retries <= fuel)%nat ->
    processChunkFuel env fuel chunk idx total retries us w = (r, w') ->
    exists n,
      (retries <= MAX_RETRIES -> retries + n <= MAX_RETRIES)%nat /\
      w_trace w' = w_trace w ++ retryTrace idx retries n /\
      w_calls w' = (w_calls w + S n)%nat /\
      chunkIndex r = idx /\
      w_heap w' = w_heap w /\ sameFiles w w' /\
      (success r = true ->
       objectReply env (w_calls w + n) us = Ok (result r) /\ error r = None) /\
      (success r = false ->
       (retries <= MAX_RETRIES -> retries + n = MAX_RETRIES)%nat /\
       exists message,
         objectReply env (w_calls w + n) us = Failed message /\
         result r = failedPayload message /\ error r = Some message).
Proof.
  induction fuel as [|fuel IH]; intros retries w r w' Hfuel H;
    rewrite processChunkFuel_eq in H;
    destruct (objectReply env (w_calls w) us) as [out|message] eqn:E.
  - injection H as <- <-. exists 0%nat. cbn.
    repeat split; rewrite ?Nat.add_0_r; try lia; try easy.
  - assert (Hr : (retries <? MAX_RETRIES)%nat = false)
      by (apply Nat.ltb_ge; lia).
    cbv zeta in H. rewrite Hr in H. injection H as <- <-. exists 0%nat. cbn.
    repeat split; rewrite ?Nat.add_0_r; try lia; try easy.
    exists message. easy.
  - injection H as <- <-. exists 0%nat. cbn.
    repeat split; rewrite ?Nat.add_0_r; try lia; try easy.
  - cbv zeta in H.
    destruct (Nat.ltb_spec retries MAX_RETRIES) as [Hlt|Hge].
    + apply IH in H; [|lia].
      destruct H as (n & Hn & Htr & Hcalls & Hidx & Hheap & Hfiles & Hok & Hko).
      exists (S n). cbn in Htr, Hcalls, Hheap, Hfiles, Hok, Hko.
      replace (w_calls w + S n)%nat with (S (w_calls w + n)) by lia.
      repeat split; try lia; try easy.
      * rewrite Htr, <- !app_assoc. reflexivity.
      * apply Hfiles.
      * apply Hfiles.
      * apply Hfiles.
      * now apply Hok.
      * now apply Hok.
      * intros. apply Hko in H. lia.
      * now apply Hko.
    + injection H as <- <-. exists 0%nat. cbn.
      repeat split; rewrite ?Nat.add_0_r; try lia; try easy.
      exists message. easy.
Qed.

Lemma processChunk_spec env chunk idx total us w r w' :
  processChunk env chunk idx total 0 us w = (r, w') ->
  exists n,
    (n <= MAX_RETRIES)%nat /\
    w_trace w' = w_trace w ++ retryTrace idx 0 n /\
    w_calls w' = (w_calls w + S n)%nat /\
    chunkIndex r = idx /\
    w_heap w' = w_heap w /\ sameFiles w w' /\
    (success r = true ->
     objectReply env (w_calls w + n) us = Ok (result r) /\ error r = None) /\
    (success r = false ->
     n = MAX_RETRIES /\
     exists message,
       objectReply env (w_calls w + n) us = Failed message /\
       result r = failedPayload message /\ error r = Some message).
Proof.
  intros H. unfold processChunk in H.
  apply processChunkFuel_spec in H; [|lia].
  destruct H as (n & Hn & Htr & Hcalls & Hidx & Hheap & Hfiles & Hok & Hko).
  assert (Hn' : (n <= MAX_RETRIES)%nat) by (cbn in Hn; apply Hn; lia).
  exists n.
  split; [exact Hn'|]. split; [exact Htr|]. split; [exact Hcalls|].
  split; [exact Hidx|]. split; [exact Hheap|]. split; [exact Hfiles|].
  split; [exact Hok|].
  intros Hs. destruct (Hko Hs) as [Hm Hmsg]. split; [|exact Hmsg].
  cbn in Hm. apply Hm. lia.
Qed.

(** ** The heap *)

Lemma deref_old (h h' : Heap) (l : loc) :
  (l < List.length h)%nat -> deref (h ++ h') l = deref h l.
Proof. intros H. unfold deref. now apply app_nth1. Qed.

Lemma deref_new (h : Heap) r h' : deref (h ++ r :: h') (List.length h) = r.
Proof. unfold deref. now rewrite nth_middle. Qed.

Lemma derefAll_old (h h' : Heap) ls :
  Forall (fun l => l < List.length h)%nat ls ->
  derefAll (h ++ h') ls = derefAll h ls.
Proof.
  intros H. unfold derefAll. apply map_ext_in. intros l Hl.
  apply deref_old. rewrite Forall_forall in H. now apply H.
Qed.

Lemma updateAt_last {A} (f : A -> A) (h : list A) (r : A) :
  updateAt f (List.length h) (h ++ [r]) = h ++ [f r].
Proof. induction h as [|x h IH]; cbn; [reflexivity | now rewrite IH]. Qed.

Lemma derefAll_snoc (h : Heap) ls r :
  Forall (fun l => l < List.length h)%nat ls ->
  derefAll (h ++ [r]) (ls ++ [List.length h]) = derefAll h ls ++ [r].
Proof.
  intros H. unfold derefAll at 1. rewrite map_app. cbn [map].
  rewrite deref_new. f_equal. now apply derefAll_old.
Qed.

(** ** One turn of the loop *)

Ltac finish_turn Hwf :=
  repeat match goal with |- _ /\ _ => split end;
  try reflexivity; try assumption;
  try (left; now repeat split); try (right; now repeat split);
  try (now rewrite <- ?app_assoc);
  try discriminate; try (intros _; now left);
  try (let c := fresh "c" in
       let Hc := fresh "Hc" in
       intros c Hc; cbn in Hc;
       first [ contradiction
             | destruct Hc as [<-|[]]; cbn; repeat split; try reflexivity;
               rewrite ?updateAt_last; apply derefAll_snoc; exact Hwf ]).

Lemma processOne_spec env fp chunks us p idx w p' w' :
  wellFormed p w ->
  processOne env fp chunks us p idx w = (p', w') ->
  exists r0 w0 r n tr,
    processChunk env (nth idx chunks "") idx (List.length chunks) 0 us
                 (snd (displayProgress env p w)) = (r0, w0) /\
    (success r0 = true /\ r = r0 /\
     p_failedChunks p' = p_failedChunks p \/
     success r0 = false /\
     r = withSummary
           (fst (summarizeFailedChunk env (nth idx chunks "")
                   (snd (alloc r0 w0)))) r0 /\
     p_failedChunks p' = S (p_failedChunks p)) /\
    w_heap w' = w_heap w ++ [r] /\
    p_chunkResults p' = p_chunkResults p ++ [List.length (w_heap w)] /\
    p_totalChunks p' = p_totalChunks p /\
    chunkIndex r = idx /\ success r = success r0 /\
    w_document w' = w_document w /\
    (n <= MAX_RETRIES)%nat /\
    w_trace w0 = w_trace w ++ retryTrace idx 0 n /\
    w_trace w' = w_trace w0 ++ tr /\
    invocations tr = [] /\ extractedChunks tr = [] /\
    produced env us r0 /\
    (success r0 = false -> In (EvSummarize (nth idx chunks "")) tr) /\
    forall c, In c (written tr) ->
      c_totalChunks c = p_totalChunks p /\
      c_chunkResults c = derefAll (w_heap w) (p_chunkResults p) ++ [r] /\
      c_completedChunks c = completedOf (c_chunkResults c).
Proof.
  intros Hwf H. unfold processOne in H. unfold bind at 1 in H.
  destruct (displayProgress env p w) as [[] wd] eqn:Ed.
  unfold bind at 1 in H.
  destruct (processChunk env (nth idx chunks "") idx (List.length chunks) 0 us wd)
    as [r0 w0] eqn:Ep.
  assert (Hd : w_heap wd = w_heap w /\ w_trace wd = w_trace w /\
               w_document wd = w_document w /\ w_io wd = w_io w)
    by (injection Ed as <-; now cbn).
  destruct Hd as (Hdh & Hdt & Hdd & Hdi).
  destruct (processChunk_spec _ _ _ _ _ _ _ _ Ep)
    as (n & Hn & Htr & Hcalls & Hidx & Hheap & (Hdoc & Hck & Hio) & Hok & Hko).
  exists r0, w0.
  unfold bind at 1 in H. cbn [alloc] in H.
  cbn [snd]. rewrite Ep.
  unfold wellFormed in Hwf.
  assert (Hprod : produced env us r0).
  { unfold produced. destruct (success r0).
    - left. split; [reflexivity|]. eexists. apply Hok. reflexivity.
    - right. split; [reflexivity|].
      destruct Hko as (_ & message & _ & Hm & _); [reflexivity|].
      now exists message. }
  destruct (success r0) eqn:Es.
  - exists r0, n.
    unfold bind, ret, saveCheckpoint, bind, nextIoThrows, readHeap, dateNow,
      emit, setHeap, setCheckpoint, incrCompleted, pushResult in H.
    cbn in H.
    destruct (ioThrows env (w_io w0)); injection H as <- <-; cbn;
      rewrite Hheap, Hdh, Htr, Hdt, Hdoc, Hdd.
    + exists [EvWarn "Failed to save checkpoint"]. finish_turn Hwf.
    + eexists [EvCheckpointWritten _]. finish_turn Hwf.
  - unfold bind, ret, saveCheckpoint, bind, nextIoThrows, readHeap, dateNow,
      emit, setHeap, setCheckpoint, incrFailed, pushResult, setSummary,
      summarizeFailedChunk, bind, emit, nextCall, ret, setHeap in H.
    cbn in H.
    set (s := match textReply env (w_calls w0) with
              | Ok text => text
              | Failed message =>
                  ("[Summary generation failed: " ++ message ++ "]")%string
              end).
    assert (Hs : fst (summarizeFailedChunk env (nth idx chunks "")
                        (snd (alloc r0 w0))) = s).
    { unfold summarizeFailedChunk, bind, emit, nextCall, ret, alloc, setHeap.
      cbn. subst s. now destruct (textReply env (w_calls w0)). }
    rewrite Hs.
    exists (withSummary s r0), n.
    destruct (textReply env (w_calls w0)) eqn:Et; cbn in H;
      rewrite updateAt_last in H;
      destruct (ioThrows env (w_io w0)); injection H as <- <-; cbn;
      rewrite ?Hheap, ?Hdh, ?Htr, ?Hdt, ?Hdoc, ?Hdd.
    all: eexists (EvSummarize _ :: _ :: nil); finish_turn Hwf.
Qed.

(** ** Traces *)

Lemma invocations_app a b :
  invocations (a ++ b) = invocations a ++ invocations b.
Proof. apply flat_map_app. Qed.

Lemma extractedChunks_app a b :
  extractedChunks (a ++ b) = extractedChunks a ++ extractedChunks b.
Proof. apply flat_map_app. Qed.

Lemma written_app a b : written (a ++ b) = written a ++ written b.
Proof. apply flat_map_app. Qed.

Lemma retryTrace_facts idx n :
  forall retries,
    invocations (retryTrace idx (S retries) n) = [] /\
    written (retryTrace idx retries n) = [] /\
    forall i, In i (extractedChunks (retryTrace idx retries n)) -> i = idx.
Proof.
  induction n as [|n IH]; intros retries; cbn.
  - repeat split. intros i [<-|[]]. reflexivity.
  - destruct (IH (S retries)) as (Hi & Hw & He).
    repeat split; try assumption.
    intros i [<-|Hin]; [reflexivity | now apply He].
Qed.

Lemma invocations_retryTrace idx n : invocations (retryTrace idx 0 n) = [idx].
Proof.
  destruct n as [|n]; [reflexivity|].
  change (invocations (retryTrace idx 0 (S n)))
    with (idx :: invocations (retryTrace idx 1 n)).
  now rewrite (proj1 (retryTrace_facts idx n 0)).
Qed.

(** ** The loop *)

Lemma forEach_spec env fp chunks us :
  forall idxs p w p' w',
    wellFormed p w ->
    forEach (processOne env fp chunks us) idxs p w = (p', w') ->
    exists raws news tr,
      Forall2 (storedFor env us) raws news /\
      derefAll (w_heap w') (p_chunkResults p')
        = derefAll (w_heap w) (p_chunkResults p) ++ news /\
      wellFormed p' w' /\
      map chunkIndex news = idxs /\
      p_totalChunks p' = p_totalChunks p /\
      w_document w' = w_document w /\
      w_trace w' = w_trace w ++ tr /\
      invocations tr = idxs /\
      (forall i, In i (extractedChunks tr) -> In i idxs) /\
      forall c, In c (written tr) ->
        c_totalChunks c = p_totalChunks p /\
        (exists k,
           c_chunkResults c
             = derefAll (w_heap w) (p_chunkResults p) ++ firstn (S k) news) /\
        c_completedChunks c = completedOf (c_chunkResults c).
Proof.
  induction idxs as [|idx idxs IH]; intros p w p' w' Hwf H.
  - injection H as <- <-. exists [], [], [].
    rewrite !app_nil_r. repeat split; try easy.
  - cbn [forEach] in H. unfold bind at 1 in H.
    destruct (processOne env fp chunks us p idx w) as [p1 w1] eqn:E1.
    destruct (processOne_spec _ _ _ _ _ _ _ _ _ Hwf E1)
      as (r0 & w0 & r & n & tr1 & _ & Hst & Hh1 & Hl1 & Ht1 & Hi1 & _ & Hd1
          & _ & Htr0 & Htr1 & Hinv1 & Hex1 & Hprod & _ & Hw1).
    assert (Hd : derefAll (w_heap w1) (p_chunkResults p1)
                 = derefAll (w_heap w) (p_chunkResults p) ++ [r])
      by (rewrite Hh1, Hl1; now apply derefAll_snoc).
    assert (Hwf1 : wellFormed p1 w1).
    { unfold wellFormed in *. rewrite Hh1, Hl1, length_app. cbn.
      apply Forall_app. split.
      - eapply Forall_impl; [|exact Hwf]. cbn. intros; lia.
      - constructor; [lia | constructor]. }
    destruct (IH _ _ _ _ Hwf1 H)
      as (raws & news & tr & Hst' & Hd' & Hwf' & Hidx & Ht & Hdoc & Htr
          & Hinv & Hex & Hw).
    exists (r0 :: raws), (r :: news), (retryTrace idx 0 n ++ tr1 ++ tr).
    split.
    { constructor; [|exact Hst']. split; [exact Hprod|].
      destruct Hst as [(_ & -> & _)|(Hs & -> & _)].
      - now left.
      - right. split; [exact Hs | eexists; reflexivity]. }
    split; [rewrite Hd', Hd, <- app_assoc; reflexivity|].
    split; [exact Hwf'|].
    split; [cbn; now rewrite Hi1, Hidx|].
    split; [congruence|]. split; [congruence|].
    split; [rewrite Htr, Htr1, Htr0, <- !app_assoc; reflexivity|].
    split.
    { rewrite !invocations_app, invocations_retryTrace, Hinv1, Hinv.
      reflexivity. }
    split.
    { intros i Hin. rewrite !extractedChunks_app, Hex1 in Hin.
      apply in_app_or in Hin. destruct Hin as [Hin|Hin].
      - left. symmetry. now apply (retryTrace_facts idx n 0).
      - right. now apply Hex. }
    intros c Hc. rewrite !written_app in Hc.
    rewrite (proj1 (proj2 (retryTrace_facts idx n 0))) in Hc.
    cbn [app] in Hc. apply in_app_or in Hc. destruct Hc as [Hc|Hc].
    + destruct (Hw1 c Hc) as (Hc1 & Hc2 & Hc3).
      split; [exact Hc1|]. split; [|exact Hc3].
      exists 0%nat. exact Hc2.
    + destruct (Hw c Hc) as (Hc1 & [k Hc2] & Hc3).
      split; [congruence|]. split; [|exact Hc3].
      exists (S k). rewrite Hc2, Hd, <- app_assoc. reflexivity.
Qed.

Lemma allocAll_spec rs :
  forall w,
    let '(ls, w') := allocAll rs w in
    w_heap w' = w_heap w ++ rs /\
    derefAll (w_heap w') ls = rs /\
    Forall (fun l => l < List.length (w_heap w'))%nat ls /\
    w_document w' = w_document w /\ w_trace w' = w_trace w /\
    w_io w' = w_io w /\ w_calls w' = w_calls w.
Proof.
  induction rs as [|r rs IH]; intros w.
  - cbn. rewrite app_nil_r. repeat split. constructor.
  - cbn [allocAll]. unfold bind, alloc, ret.
    specialize (IH (setHeap (w_heap w ++ [r]) w)).
    destruct (allocAll rs (setHeap (w_heap w ++ [r]) w)) as [ls w'].
    cbn in IH. destruct IH as (Hh & Hd & Hf & Hdoc & Htr & Hio & Hc).
    cbn. rewrite Hh, <- app_assoc. cbn.
    repeat split; try assumption.
    + f_equal; [apply deref_new|].
      rewrite Hh, <- app_assoc in Hd. exact Hd.
    + constructor.
      * rewrite length_app. cbn. lia.
      * rewrite Hh, <- app_assoc in Hf. exact Hf.
Qed.

(** ** A whole run *)

Lemma load_spec env fp options w :
  let '(c, w') :=
    (if fromOption (o_resume options) true then loadCheckpoint env fp
     else ret None) w in
  c = loadedCheckpoint env options w /\
  w_heap w' = w_heap w /\ w_document w' = w_document w /\
  exists tr, w_trace w' = w_trace w ++ tr /\ silent tr.
Proof.
  unfold loadedCheckpoint, loadCheckpoint, bind, nextIoThrows, emit, ret.
  destruct (fromOption (o_resume options) true); cbn.
  - destruct (ioThrows env (w_io w)); cbn; repeat split.
    + eexists [_]. now repeat split.
    + exists []. rewrite app_nil_r. now repeat split.
  - repeat split. exists []. rewrite app_nil_r. now repeat split.
Qed.

Lemma init_spec env loaded n w :
  let '(p, w') := initProgress env loaded n w in
  wellFormed p w' /\
  derefAll (w_heap w') (p_chunkResults p) = storedResults loaded /\
  p_totalChunks p = n /\
  w_document w' = w_document w /\ w_trace w' = w_trace w.
Proof.
  unfold initProgress. destruct loaded as [c|].
  - unfold bind, ret.
    pose proof (allocAll_spec (c_chunkResults c) w) as H.
    destruct (allocAll (c_chunkResults c) w) as [ls w'].
    destruct H as (Hh & Hd & Hf & Hdoc & Htr & _).
    cbn. now repeat split.
  - cbn. repeat split. constructor.
Qed.

Lemma finish_spec env fp p w :
  let '(res, w') := finishRun env fp p w in
  res = Ok (reduceResults (derefAll (w_heap w) (p_chunkResults p))) /\
  exists tr, w_trace w' = w_trace w ++ tr /\ silent tr.
Proof.
  unfold finishRun, displayProgress, displayBenchmark, clearCheckpoint,
    readHeap, bind, dateNow, nextIoThrows, emit, ret, setCheckpoint.
  cbn. destruct (ioThrows env (w_io w)); cbn.
  - split; [reflexivity|]. eexists [_]. now repeat split.
  - destruct (w_checkpoint w); cbn; (split; [reflexivity|]).
    + eexists [_]. now repeat split.
    + exists []. rewrite app_nil_r. now repeat split.
Qed.

Lemma extract_spec env fp options w document :
  w_document w = Some document ->
  let chunks := chunksOf options document in
  let loaded := loadedCheckpoint env options w in
  let todo := chunksToProcess loaded (List.length chunks) in
  exists raws news tr,
    Forall2 (storedFor env (fromOption (o_useStreaming options) false))
            raws news /\
    map chunkIndex news = todo /\
    fst (extractLargeDocument env fp options w)
      = Ok (reduceResults (storedResults loaded ++ news)) /\
    w_trace (snd (extractLargeDocument env fp options w)) = w_trace w ++ tr /\
    invocations tr = todo /\
    (forall i, In i (extractedChunks tr) -> In i todo) /\
    forall c, In c (written tr) ->
      c_totalChunks c = List.length chunks /\
      (exists k,
         c_chunkResults c = storedResults loaded ++ firstn (S k) news) /\
      c_completedChunks c = completedOf (c_chunkResults c).
Proof.
  intros Hdoc chunks loaded todo.
  destruct (extractLargeDocument env fp options w) as [res wf] eqn:Erun.
  unfold extractLargeDocument in Erun. rewrite Hdoc in Erun.
  fold (chunksOf options document) in Erun. fold chunks in Erun.
  unfold bind at 1 in Erun.
  pose proof (load_spec env fp options w) as Hl.
  destruct ((if fromOption (o_resume options) true
             then loadCheckpoint env fp else ret None) w) as [c w1].
  destruct Hl as (-> & Hh1 & Hd1 & tr1 & Htr1 & Hs1).
  fold loaded in Erun. fold todo in Erun.
  unfold bind at 1 in Erun.
  pose proof (init_spec env loaded (List.length chunks) w1) as Hi.
  destruct (initProgress env loaded (List.length chunks) w1) as [p w2].
  destruct Hi as (Hwf & Hd2 & Ht2 & Hdoc2 & Htr2).
  unfold bind at 1 in Erun.
  destruct (forEach
              (processOne env fp chunks
                 (fromOption (o_useStreaming options) false)) todo p w2)
    as [p3 w3] eqn:E3.
  destruct (forEach_spec _ _ _ _ _ _ _ _ _ Hwf E3)
    as (raws & news & tr & Hst & Hd3 & Hwf3 & Hidx & Ht3 & Hdoc3 & Htr3
        & Hinv & Hex & Hw).
  pose proof (finish_spec env fp p3 w3) as Hf.
  unfold finishRun in Hf. cbv zeta in Hf. rewrite Erun in Hf.
  destruct Hf as (-> & tr4 & Htr4 & Hs4).
  destruct Hs1 as (Hs1a & Hs1b & Hs1c). destruct Hs4 as (Hs4a & Hs4b & Hs4c).
  exists raws, news, (tr1 ++ tr ++ tr4). cbn [fst snd].
  split; [exact Hst|]. split; [exact Hidx|].
  split; [now rewrite Hd3, Hd2|].
  split; [rewrite Htr4, Htr3, Htr2, Htr1, <- !app_assoc; reflexivity|].
  split; [rewrite !invocations_app, Hs1a, Hs4a, Hinv, app_nil_r; reflexivity|].
  split.
  { intros i Hin. rewrite !extractedChunks_app, Hs1b, Hs4b, app_nil_r in Hin.
    now apply Hex. }
  intros c0 Hc. rewrite !written_app, Hs1c, Hs4c, app_nil_r in Hc.
  cbn [app] in Hc. destruct (Hw c0 Hc) as (Hc1 & [k Hc2] & Hc3).
  split; [congruence|]. split; [|exact Hc3].
  exists k. now rewrite Hc2, Hd2.
Qed.

(** ** Chunking *)

Lemma append_assoc (a b c : string) :
  ((a ++ b) ++ c = a ++ b ++ c)%string.
Proof. induction a as [|x a IH]; cbn; [reflexivity | now rewrite IH]. Qed.

Lemma append_empty_r (a : string) : (a ++ "" = a)%string.
Proof. induction a as [|x a IH]; cbn; [reflexivity | now rewrite IH]. Qed.

(** What the loop has pushed stays, the chunk under construction goes on
    into a chunk, and so does every sentence still to read. *)
Lemma chunkLoop_keeps chunkSize overlap :
  forall sentences chunks cur tokens chunks' cur',
    chunkLoop sentences chunkSize overlap chunks cur tokens = (chunks', cur') ->
    (forall c, In c chunks -> In c chunks') /\
    (exists post, let raw := (cur ++ post)%string in
                  raw = cur' \/ In (trim raw) chunks') /\
    forall s, In s sentences ->
      exists raw, within s raw /\ (raw = cur' \/ In (trim raw) chunks').
Proof.
  induction sentences as [|x rest IH]; intros chunks cur tokens chunks' cur' H.
  - injection H as <- <-. split; [easy|]. split; [|easy].
    exists "". left. apply append_empty_r.
  - cbn [chunkLoop] in H.
    destruct ((chunkSize <? tokens + estimateTokens x) && nonEmpty cur).
    + apply IH in H. destruct H as (Hmono & [post Hpost] & Hrest).
      split; [|split].
      * intros c Hc. apply Hmono, in_or_app. now left.
      * exists "". right. rewrite append_empty_r.
        apply Hmono, in_or_app. right. now left.
      * intros s [<-|Hs]; [|now apply Hrest].
        eexists. split; [|exact Hpost].
        eexists _, post. rewrite <- !append_assoc. reflexivity.
    + apply IH in H. destruct H as (Hmono & [post Hpost] & Hrest).
      split; [exact Hmono|]. split.
      * exists (x ++ post)%string. cbn zeta in *.
        now rewrite <- append_assoc.
      * intros s [<-|Hs]; [|now apply Hrest].
        eexists. split; [|exact Hpost].
        exists cur, post. apply append_assoc.
Qed.

(** Every sentence that the split finds in a document above the budget is
    part of a chunk as it stood before trimming. *)
Lemma chunkText_keeps_matched_sentences text chunkSize overlap s :
  chunkSize < estimateTokens text ->
  In s (sentencesOf text) ->
  exists raw,
    within s raw /\
    (In (trim raw) (chunkText text chunkSize overlap) \/ trim raw = "").
Proof.
  intros Hbig Hs. unfold chunkText.
  destruct (Z.leb_spec (estimateTokens text) chunkSize) as [Hle|_]; [lia|].
  destruct (chunkLoop (sentencesOf text) chunkSize overlap [] "" 0)
    as [chunks cur] eqn:E.
  destruct (chunkLoop_keeps _ _ _ _ _ _ _ _ E) as (_ & _ & Hall).
  destruct (Hall s Hs) as (raw & Hin & [Heq|Hraw]); exists raw;
    (split; [exact Hin|]).
  - subst raw. destruct (trim cur) eqn:Et; cbn [nonEmpty].
    + now right.
    + left. apply in_or_app. right. now left.
  - left. destruct (nonEmpty (trim cur)); [apply in_or_app; now left | exact Hraw].
Qed.

(** ** Reduction *)

Lemma filter_idem {A} (f : A -> bool) l : filter f (filter f l) = filter f l.
Proof.
  induction l as [|x l IH]; cbn; [reflexivity|].
  destruct (f x) eqn:E; cbn; rewrite ?E, IH; reflexivity.
Qed.

Lemma reduceResults_ext a b :
  filter success a = filter success b -> reduceResults a = reduceResults b.
Proof. intros H. unfold reduceResults. now rewrite H. Qed.

Lemma storedFor_success env us raws news :
  Forall2 (storedFor env us) raws news ->
  filter success news = filter success raws.
Proof.
  induction 1 as [|r0 r raws news [_ Hst] _ IH]; [reflexivity|].
  cbn. rewrite IH. destruct Hst as [->|[Hs [s ->]]]; [reflexivity|].
  cbn. now rewrite Hs.
Qed.

Lemma completedOf_iff rs i :
  In i (completedOf rs) <->
  exists r, In r rs /\ chunkIndex r = i /\ success r = true.
Proof.
  unfold completedOf. rewrite in_map_iff. split.
  - intros (r & Hi & Hin). apply filter_In in Hin. now exists r.
  - intros (r & Hin & Hi & Hs). exists r. split; [exact Hi|].
    apply filter_In. now split.
Qed.

Lemma chunksToProcess_range loaded n i :
  In i (chunksToProcess loaded n) -> (i < n)%nat.
Proof.
  unfold chunksToProcess. destruct loaded as [c|]; intros H.
  - apply filter_In in H. destruct H as [H _]. apply in_seq in H. lia.
  - apply in_seq in H. lia.
Qed.

Lemma In_firstn {A} (x : A) k l : In x (firstn k l) -> In x l.
Proof.
  revert l. induction k as [|k IH]; intros [|y l] H; cbn in H; try easy.
  destruct H as [->|H]; [now left | right; now apply IH].
Qed.

Lemma existsb_eqb_In i l : existsb (Nat.eqb i) l = true <-> In i l.
Proof.
  rewrite existsb_exists. split.
  - intros (x & Hx & E). apply Nat.eqb_eq in E. now subst.
  - intros H. exists i. split; [exact H | apply Nat.eqb_refl].
Qed.

(** ** Two runs that differ in the fallback summaries *)

Lemma alike_refl r : alike r r.
Proof. now left. Qed.

Lemma sim_refl w : sim w w.
Proof.
  repeat split. induction (w_heap w); constructor; [apply alike_refl | easy].
Qed.

Lemma processChunkFuel_sim e1 e2 chunk idx total us :
  sameButText e1 e2 ->
  forall fuel retries w1 w2,
    sim w1 w2 ->
    fst (processChunkFuel e1 fuel chunk idx total retries us w1)
      = fst (processChunkFuel e2 fuel chunk idx total retries us w2) /\
    sim (snd (processChunkFuel e1 fuel chunk idx total retries us w1))
        (snd (processChunkFuel e2 fuel chunk idx total retries us w2)).
Proof.
  intros (Hobj & Hclock & _).
  induction fuel as [|fuel IH]; intros retries w1 w2 (Hc & Ht & Hi & Hh);
    rewrite (processChunkFuel_eq e1), (processChunkFuel_eq e2);
    rewrite Hobj, Hc;
    assert (Ha : attemptTime e1 w1 = attemptTime e2 w2)
      by (unfold attemptTime; now rewrite !Hclock, Ht);
    assert (Hs : sim (afterAttempt idx retries w1) (afterAttempt idx retries w2))
      by (unfold sim, afterAttempt; cbn; now rewrite Hc, Ht, Hi);
    destruct (objectReply e2 (w_calls w2) us) as [out|message];
    cbv zeta; rewrite ?Ha; try (split; [reflexivity | exact Hs]);
    destruct (retries <? MAX_RETRIES)%nat;
    try (split; [reflexivity | exact Hs]).
  apply IH. destruct Hs as (Hc' & Ht' & Hi' & Hh'). now repeat split.
Qed.

Lemma Forall2_alike_snoc h1 h2 r1 r2 :
  Forall2 alike h1 h2 -> alike r1 r2 -> Forall2 alike (h1 ++ [r1]) (h2 ++ [r2]).
Proof. intros H Hr. apply Forall2_app; [exact H | now constructor]. Qed.

Lemma processOne_unfold env fp chunks us p idx w :
  processOne env fp chunks us p idx w =
  afterChunk env fp chunks p idx
    (fst (processChunk env (nth idx chunks "") idx (List.length chunks) 0 us
            (snd (displayProgress env p w))))
    (snd (processChunk env (nth idx chunks "") idx (List.length chunks) 0 us
            (snd (displayProgress env p w)))).
Proof.
  unfold processOne, afterChunk. unfold bind at 1 2.
  destruct (displayProgress env p w) as [[] wd]. cbn [snd].
  now destruct (processChunk env (nth idx chunks "") idx (List.length chunks)
                  0 us wd).
Qed.

Lemma afterChunk_sim e1 e2 fp chunks p idx r v1 v2 :
  sameButText e1 e2 ->
  sim v1 v2 ->
  fst (afterChunk e1 fp chunks p idx r v1)
    = fst (afterChunk e2 fp chunks p idx r v2) /\
  sim (snd (afterChunk e1 fp chunks p idx r v1))
      (snd (afterChunk e2 fp chunks p idx r v2)).
Proof.
  intros (_ & Hclock & Hio) (Hc' & Ht' & Hi' & Hh').
  pose proof (Forall2_length Hh') as Hlen.
  unfold afterChunk, bind, alloc, ret, saveCheckpoint, bind, nextIoThrows,
    readHeap, dateNow, emit, setHeap, setCheckpoint, setSummary,
    summarizeFailedChunk, bind, emit, nextCall, ret, setHeap.
  destruct (success r) eqn:Es; cbn.
  - rewrite Hio, Hi', Hlen.
    destruct (ioThrows e2 (w_io v2)); cbn; (split; [reflexivity|]);
      unfold sim; cbn; rewrite Hc', Ht';
      (repeat split; try reflexivity);
      apply Forall2_alike_snoc; try assumption; apply alike_refl.
  - destruct (textReply e1 (w_calls v1)), (textReply e2 (w_calls v2)); cbn;
      rewrite Hio, Hi', Hlen;
      destruct (ioThrows e2 (w_io v2)); cbn; (split; [reflexivity|]);
      unfold sim; cbn; rewrite Hc', Ht';
      (repeat split; try reflexivity);
      rewrite <- Hlen at 1; rewrite !updateAt_last;
      apply Forall2_alike_snoc; try assumption; right; now split.
Qed.

Lemma processOne_sim e1 e2 fp chunks us p idx w1 w2 :
  sameButText e1 e2 ->
  sim w1 w2 ->
  fst (processOne e1 fp chunks us p idx w1)
    = fst (processOne e2 fp chunks us p idx w2) /\
  sim (snd (processOne e1 fp chunks us p idx w1))
      (snd (processOne e2 fp chunks us p idx w2)).
Proof.
  intros Hsame (Hc & Ht & Hi & Hh). rewrite !processOne_unfold.
  assert (Hd : sim (snd (displayProgress e1 p w1))
                   (snd (displayProgress e2 p w2)))
    by (unfold sim; cbn; now rewrite Hc, Ht, Hi).
  destruct (processChunkFuel_sim e1 e2 (nth idx chunks "") idx
              (List.length chunks) us Hsame (MAX_RETRIES - 0) 0%nat _ _ Hd)
    as [Hr Hs].
  unfold processChunk. rewrite Hr. now apply afterChunk_sim.
Qed.

Lemma forEach_sim e1 e2 fp chunks us :
  sameButText e1 e2 ->
  forall idxs p w1 w2,
    sim w1 w2 ->
    fst (forEach (processOne e1 fp chunks us) idxs p w1)
      = fst (forEach (processOne e2 fp chunks us) idxs p w2) /\
    sim (snd (forEach (processOne e1 fp chunks us) idxs p w1))
        (snd (forEach (processOne e2 fp chunks us) idxs p w2)).
Proof.
  intros Hsame. induction idxs as [|idx idxs IH]; intros p w1 w2 Hsim.
  - now split.
  - cbn [forEach]. unfold bind.
    destruct (processOne_sim e1 e2 fp chunks us p idx w1 w2 Hsame Hsim)
      as [Hp Hs].
    destruct (processOne e1 fp chunks us p idx w1) as [p1 v1].
    destruct (processOne e2 fp chunks us p idx w2) as [p2 v2].
    cbn [fst snd] in Hp, Hs. subst p2. now apply IH.
Qed.

Lemma deref_alike h1 h2 :
  Forall2 alike h1 h2 -> forall l, alike (deref h1 l) (deref h2 l).
Proof.
  unfold deref. induction 1 as [|r1 r2 h1 h2 Hr _ IH]; intros [|l]; cbn;
    try apply alike_refl; [exact Hr | apply IH].
Qed.

Lemma derefAll_alike h1 h2 ls :
  Forall2 alike h1 h2 ->
  filter success (derefAll h1 ls) = filter success (derefAll h2 ls).
Proof.
  intros H. unfold derefAll.
  induction ls as [|l ls IH]; [reflexivity|]. cbn. rewrite IH.
  destruct (deref_alike h1 h2 H l) as [->|[-> ->]]; reflexivity.
Qed.

Lemma extract_unfold env fp options w document :
  w_document w = Some document ->
  extractLargeDocument env fp options w =
  let chunks := chunksOf options document in
  let '(c, w1) :=
    (if fromOption (o_resume options) true then loadCheckpoint env fp
     else ret None) w in
  let '(p, w2) := initProgress env c (List.length chunks) w1 in
  let '(p3, w3) :=
    forEach (processOne env fp chunks
               (fromOption (o_useStreaming options) false))
            (chunksToProcess c (List.length chunks)) p w2 in
  finishRun env fp p3 w3.
Proof.
  intros Hdoc. unfold extractLargeDocument. rewrite Hdoc.
  fold (chunksOf options document). cbv zeta. unfold bind at 1.
  destruct ((if fromOption (o_resume options) true
             then loadCheckpoint env fp else ret None) w) as [c w1].
  unfold bind at 1.
  destruct (initProgress env c (List.length (chunksOf options document)) w1)
    as [p w2].
  unfold bind at 1.
  now destruct (forEach _ _ p w2) as [p3 w3].
Qed.

Lemma run_independent_of_text e1 e2 fp options w :
  sameButText e1 e2 ->
  fst (extractLargeDocument e1 fp options w)
    = fst (extractLargeDocument e2 fp options w).
Proof.
  intros Hsame. pose proof Hsame as (_ & Hclock & Hio).
  destruct (w_document w) as [document|] eqn:Hdoc.
  2: { unfold extractLargeDocument. now rewrite Hdoc. }
  rewrite !(extract_unfold _ _ _ _ _ Hdoc). cbv zeta.
  set (chunks := chunksOf options document).
  assert (Hload : (if fromOption (o_resume options) true
                   then loadCheckpoint e1 fp else ret None) w
                  = (if fromOption (o_resume options) true
                     then loadCheckpoint e2 fp else ret None) w).
  { destruct (fromOption (o_resume options) true); [|reflexivity].
    unfold loadCheckpoint, bind, nextIoThrows. now rewrite Hio. }
  rewrite Hload.
  destruct ((if fromOption (o_resume options) true
             then loadCheckpoint e2 fp else ret None) w) as [c w1].
  assert (Hinit : initProgress e1 c (List.length chunks) w1
                  = initProgress e2 c (List.length chunks) w1).
  { unfold initProgress. destruct c; [reflexivity|].
    unfold bind, dateNow. now rewrite Hclock. }
  rewrite Hinit.
  destruct (initProgress e2 c (List.length chunks) w1) as [p w2].
  destruct (forEach_sim e1 e2 fp chunks
              (fromOption (o_useStreaming options) false) Hsame
              (chunksToProcess c (List.length chunks)) p w2 w2 (sim_refl w2))
    as [Hp Hs].
  destruct (forEach (processOne e1 fp chunks _) _ p w2) as [p1 v1].
  destruct (forEach (processOne e2 fp chunks _) _ p w2) as [p2 v2].
  cbn [fst snd] in Hp, Hs. subst p2.
  pose proof (finish_spec e1 fp p1 v1) as H1.
  pose proof (finish_spec e2 fp p1 v2) as H2.
  destruct (finishRun e1 fp p1 v1) as [res1 u1].
  destruct (finishRun e2 fp p1 v2) as [res2 u2].
  destruct H1 as [-> _]. destruct H2 as [-> _]. cbn [fst]. f_equal.
  apply reduceResults_ext. apply derefAll_alike. apply Hs.
Qed.

Lemma addAll_extends l : forall set, extends set (addAll set l).
Proof.
  unfold addAll. induction l as [|c l IH]; intros set; cbn.
  - exists []. now rewrite app_nil_r.
  - destruct (existsb (String.eqb c) set); [apply IH|].
    destruct (IH (set ++ [c])) as [more ->].
    exists (c :: more). now rewrite <- app_assoc.
Qed.

Lemma collect_extends (f : ExtractionResult -> list string) rs :
  forall set,
    extends set (fold_left (fun set r => addAll set (f (result r))) rs set).
Proof.
  induction rs as [|r rs IH]; intros set; cbn.
  - exists []. now rewrite app_nil_r.
  - destruct (addAll_extends (f (result r)) set) as [m1 E1].
    destruct (IH (addAll set (f (result r)))) as [m2 ->].
    rewrite E1. exists (m1 ++ m2). now rewrite app_assoc.
Qed.

Lemma reduceResults_carried a b :
  carried (reduceResults a) (reduceResults (a ++ b)).
Proof.
  unfold carried, reduceResults. rewrite !filter_app, !fold_left_app.
  cbn [companies business technical quotes].
  repeat split; try apply collect_extends.
  rewrite flat_map_app. now eexists.
Qed.

(** ** The claims about the extractor *)

(** C2, at a document that ends without a terminator: the text after the
    last sentence mark is in no chunk.  The same text under a budget that
    holds it comes back whole.  [longDocument] is above the default budget
    of 4000 tokens; its last word is in none of its chunks. *)
Theorem chunkText_drops_unterminated_tail :
  chunkText "A. B. C" 1 OVERLAP_SIZE = ["A."; "A.  B."] /\
  sentencesOf "A. B. C" = ["A."; " B."] /\
  chunkText "A. B. C" DEFAULT_CHUNK_SIZE OVERLAP_SIZE = ["A. B. C"] /\
  ~ In "C" (flat_map split (chunkText "A. B. C" 1 OVERLAP_SIZE)) /\
  In "C" (split "A. B. C") /\
  estimateTokens longDocument = 4097 /\
  existsb (String.eqb "end") (split longDocument) = true /\
  existsb (String.eqb "end")
          (flat_map split
             (chunkText longDocument DEFAULT_CHUNK_SIZE OVERLAP_SIZE))
    = false.
Proof.
  split; [reflexivity|]. split; [reflexivity|]. split; [reflexivity|].
  split.
  { vm_compute. intros H. repeat (destruct H as [H|H]; [discriminate H|]).
    exact H. }
  split; [vm_compute; tauto|].
  split; [vm_compute; reflexivity|].
  split; vm_compute; reflexivity.
Qed.



(** C7, as the code has it.  [saveCheckpoint] writes as [completedChunks]
    the chunk indices of the stored results with [success = true], so an
    index is listed exactly when a stored result with that index succeeded;
    this holds for every checkpoint written during a run.  The listed
    indices are below [totalChunks] when the indices of all stored results
    are: throughout a run that loaded no checkpoint, and throughout a
    resumed run whose loaded results have indices below the present
    number of chunks. *)
Theorem checkpoint_completed_chunks (env : Env) (filePath : string) :
  (forall progress w c,
     w_checkpoint (snd (saveCheckpoint env filePath progress w)) = Some c ->
     ioThrows env (w_io w) = false ->
     c_totalChunks c = p_totalChunks progress /\
     c_chunkResults c = derefAll (w_heap w) (p_chunkResults progress) /\
     reflectsSuccesses c /\
     ((forall r, In r (c_chunkResults c) ->
                 (chunkIndex r < c_totalChunks c)%nat) ->
      completedInRange c)) /\
  (forall options w document tr c,
     w_document w = Some document ->
     w_trace (snd (extractLargeDocument env filePath options w))
       = w_trace w ++ tr ->
     In c (written tr) ->
     reflectsSuccesses c /\
     c_totalChunks c = List.length (chunksOf options document) /\
     ((forall r, In r (storedResults (loadedCheckpoint env options w)) ->
                 (chunkIndex r < List.length (chunksOf options document))%nat)
      -> completedInRange c)).
Proof.
  split.
  - intros p w c Hc Hio.
    unfold saveCheckpoint, bind, nextIoThrows, readHeap, dateNow, emit,
      setCheckpoint in Hc.
    cbn in Hc. rewrite Hio in Hc. cbn in Hc. injection Hc as <-. cbn.
    split; [reflexivity|]. split; [reflexivity|]. split.
    + intros i. apply completedOf_iff.
    + intros Hr i Hi. apply completedOf_iff in Hi.
      destruct Hi as (r & Hin & <- & _). now apply Hr.
  - intros options w document tr c Hdoc Htr Hc.
    destruct (extract_spec env filePath options w document Hdoc)
      as (raws & news & tr' & _ & Hidx & _ & Htr' & _ & _ & Hw).
    rewrite Htr in Htr'. apply app_inv_head in Htr'. subst tr'.
    destruct (Hw c Hc) as (Htot & [k Hres] & Hdone).
    split; [|split; [exact Htot|]].
    + intros i. rewrite Hdone. apply completedOf_iff.
    + intros Hold i Hi. rewrite Hdone in Hi. apply completedOf_iff in Hi.
      destruct Hi as (r & Hin & <- & _). rewrite Htot.
      rewrite Hres in Hin. apply in_app_or in Hin. destruct Hin as [Hin|Hin].
      * now apply Hold.
      * apply In_firstn in Hin.
        apply (chunksToProcess_range (loadedCheckpoint env options w)).
        cbv zeta in Hidx. rewrite <- Hidx. now apply in_map.
Qed.

Lemma checkpoint_completed_chunks_witness :
  Forall (fun c => reflectsSuccesses c /\ completedInRange c)
         (written (w_trace (snd freshRun))).
Proof.
  apply Forall_forall. intros c Hc.
  destruct (proj2 (checkpoint_completed_chunks steadyEnv "essay.txt")
              smallChunks (freshWorld "A. B." None) "A. B."
              (w_trace (snd freshRun)) c eq_refl eq_refl Hc)
    as (Hiff & _ & Hrange).
  split; [exact Hiff|]. apply Hrange. intros r [].
Defined.

(** ** Strings *)

Lemma chars_of_append (a b : string) :
  list_ascii_of_string (a ++ b)
  = list_ascii_of_string a ++ list_ascii_of_string b.
Proof. induction a as [|x a IH]; cbn; [reflexivity | now rewrite IH]. Qed.

Lemma length_append (a b : string) :
  String.length (a ++ b) = (String.length a + String.length b)%nat.
Proof. induction a as [|x a IH]; cbn; [reflexivity | now rewrite IH]. Qed.

Lemma dropSpaces_hd s : isSpace (hd "x"%char (dropSpaces s)) = false.
Proof.
  induction s as [|c s IH]; cbn [dropSpaces]; [reflexivity|].
  destruct (isSpace c) eqn:E; [exact IH | exact E].
Qed.

Lemma dropSpaces_fixed s :
  isSpace (hd "x"%char s) = false -> dropSpaces s = s.
Proof. destruct s as [|c s]; cbn; [easy | now intros ->]. Qed.

Lemma dropSpaces_ink s :
  existsb (fun c => negb (isSpace c)) (dropSpaces s)
  = existsb (fun c => negb (isSpace c)) s.
Proof.
  induction s as [|c s IH]; cbn [dropSpaces]; [reflexivity|].
  destruct (isSpace c) eqn:E; [|reflexivity].
  cbn. now rewrite E, IH.
Qed.

Lemma dropTrailingSpaces_cons c s :
  dropTrailingSpaces (c :: s)
  = if existsb (fun c => negb (isSpace c)) s then c :: dropTrailingSpaces s
    else if isSpace c then [] else [c].
Proof.
  revert c. induction s as [|d s IH]; intros c; [reflexivity|].
  cbn [dropTrailingSpaces] in *. rewrite IH. cbn [existsb].
  destruct (existsb (fun c => negb (isSpace c)) s).
  - now rewrite orb_true_r.
  - destruct (isSpace d); reflexivity.
Qed.

Lemma dropTrailingSpaces_nil s :
  dropTrailingSpaces s = [] <->
  existsb (fun c => negb (isSpace c)) s = false.
Proof.
  induction s as [|c s IH]; [easy|].
  rewrite dropTrailingSpaces_cons. cbn [existsb].
  destruct (existsb (fun c => negb (isSpace c)) s).
  - now rewrite orb_true_r.
  - destruct (isSpace c); easy.
Qed.

Lemma dropTrailingSpaces_ink s :
  existsb (fun c => negb (isSpace c)) (dropTrailingSpaces s)
  = existsb (fun c => negb (isSpace c)) s.
Proof.
  induction s as [|c s IH]; [reflexivity|].
  rewrite dropTrailingSpaces_cons. cbn [existsb].
  destruct (existsb (fun c => negb (isSpace c)) s) eqn:E.
  - cbn [existsb]. now rewrite IH, !orb_true_r.
  - destruct (isSpace c) eqn:Ec; cbn; rewrite ?Ec; reflexivity.
Qed.

Lemma dropTrailingSpaces_hd s :
  isSpace (hd "x"%char s) = false ->
  isSpace (hd "x"%char (dropTrailingSpaces s)) = false.
Proof.
  destruct s as [|c s]; [easy|]. cbn [hd]. intros Hc.
  rewrite dropTrailingSpaces_cons, Hc.
  now destruct (existsb _ s).
Qed.

Lemma dropTrailingSpaces_last s :
  isSpace (last (dropTrailingSpaces s) "x"%char) = false.
Proof.
  induction s as [|c s IH]; [reflexivity|].
  rewrite dropTrailingSpaces_cons.
  destruct (existsb (fun c => negb (isSpace c)) s) eqn:E.
  - destruct (dropTrailingSpaces s) as [|d t] eqn:Ed.
    + apply dropTrailingSpaces_nil in Ed. congruence.
    + exact IH.
  - destruct (isSpace c) eqn:Ec; [reflexivity | exact Ec].
Qed.

Lemma dropTrailingSpaces_fixed s :
  isSpace (last s "x"%char) = false -> dropTrailingSpaces s = s.
Proof.
  induction s as [|c s IH]; [easy|]. intros Hl.
  rewrite dropTrailingSpaces_cons.
  destruct s as [|d s]; [cbn in *; now rewrite Hl|].
  rewrite IH by exact Hl.
  destruct (existsb (fun c => negb (isSpace c)) (d :: s)) eqn:E;
    [reflexivity|].
  exfalso. clear IH. revert d Hl E.
  induction s as [|e s IH]; intros d Hl E; cbn in *.
  - rewrite Hl in E. discriminate E.
  - apply orb_false_elim in E. destruct E as [_ E]. now apply (IH e).
Qed.

Lemma trim_chars s :
  list_ascii_of_string (trim s) = trimChars (list_ascii_of_string s).
Proof. apply list_ascii_of_string_of_list_ascii. Qed.

Lemma trim_trimmed s : trimmed (trim s).
Proof.
  unfold trimmed. cbv zeta. rewrite trim_chars. unfold trimChars. split.
  - apply dropTrailingSpaces_hd, dropSpaces_hd.
  - apply dropTrailingSpaces_last.
Qed.

Lemma trim_ink s : hasInk (trim s) = hasInk s.
Proof.
  unfold hasInk. rewrite trim_chars. unfold trimChars.
  now rewrite dropTrailingSpaces_ink, dropSpaces_ink.
Qed.

Lemma trim_fixed s : trimmed s -> trim s = s.
Proof.
  intros [Hh Hl]. unfold trim, trimChars.
  rewrite dropSpaces_fixed by exact Hh.
  rewrite dropTrailingSpaces_fixed by exact Hl.
  apply string_of_list_ascii_of_string.
Qed.

Lemma trim_empty s : trim s = "" <-> hasInk s = false.
Proof.
  unfold hasInk. rewrite <- dropSpaces_ink, <- dropTrailingSpaces_nil.
  fold (trimChars (list_ascii_of_string s)). rewrite <- trim_chars. split.
  - now intros ->.
  - intros H. rewrite <- (string_of_list_ascii_of_string (trim s)), H.
    reflexivity.
Qed.

Lemma dropSpaces_split s :
  exists sp, s = sp ++ dropSpaces s /\
             existsb (fun c => negb (isSpace c)) sp = false.
Proof.
  induction s as [|c s (sp & IH & Hsp)]; [now exists []|].
  cbn [dropSpaces]. destruct (isSpace c) eqn:E.
  - exists (c :: sp). cbn. rewrite E, Hsp. now rewrite <- IH.
  - now exists [].
Qed.

Lemma dropTrailingSpaces_split s :
  exists sp, s = dropTrailingSpaces s ++ sp /\
             existsb (fun c => negb (isSpace c)) sp = false.
Proof.
  induction s as [|c s (sp & IH & Hsp)]; [now exists []|].
  rewrite dropTrailingSpaces_cons.
  destruct (existsb (fun c => negb (isSpace c)) s) eqn:E.
  - exists sp. cbn. now rewrite <- IH.
  - destruct (isSpace c) eqn:Ec.
    + exists (c :: s). cbn. now rewrite Ec, E.
    + exists s. now cbn.
Qed.

Lemma string_of_chars_app (a b : chars) :
  string_of_list_ascii (a ++ b)
  = (string_of_list_ascii a ++ string_of_list_ascii b)%string.
Proof. induction a as [|x a IH]; cbn; [reflexivity | now rewrite IH]. Qed.

(** [trim] removes the spaces at both ends and nothing else.  Its
    result neither starts nor ends with a space; a string that neither
    starts nor ends with one comes back as it is; the result is empty
    exactly when every character of the string is a space. *)
Lemma trim_removes_outer_spaces (s : string) :
  trimmed (trim s) /\
  (trimmed s -> trim s = s) /\
  trim (trim s) = trim s /\
  (trim s = "" <-> hasInk s = false) /\
  (exists before after,
     s = (before ++ trim s ++ after)%string /\
     hasInk before = false /\ hasInk after = false).
Proof.
  split; [apply trim_trimmed|]. split; [apply trim_fixed|].
  split; [apply trim_fixed, trim_trimmed|]. split; [apply trim_empty|].
  destruct (dropSpaces_split (list_ascii_of_string s)) as (sp1 & H1 & Hs1).
  destruct (dropTrailingSpaces_split (dropSpaces (list_ascii_of_string s)))
    as (sp2 & H2 & Hs2).
  exists (string_of_list_ascii sp1), (string_of_list_ascii sp2).
  unfold hasInk. rewrite !list_ascii_of_string_of_list_ascii.
  split; [|now split].
  unfold trim, trimChars. rewrite <- !string_of_chars_app, <- H2, <- H1.
  symmetry. apply string_of_list_ascii_of_string.
Qed.

(** ** Words *)

Lemma splitSpaces_word w :
  spaceFree w = true ->
  forall s cur gap,
    splitSpaces (w ++ s) cur gap
    = splitSpaces s (rev w ++ cur) (if nonNil w then false else gap).
Proof.
  induction w as [|c w IH]; intros Hw s cur gap; [reflexivity|].
  cbn in Hw. apply andb_prop in Hw. destruct Hw as [Hc Hw].
  apply negb_true_iff in Hc.
  cbn [app splitSpaces nonNil]. rewrite Hc, (IH Hw).
  cbn [rev]. rewrite <- app_assoc. cbn [app].
  now destruct w.
Qed.

Lemma splitSpaces_spaceFree s :
  forall cur gap,
    spaceFree cur = true ->
    forallb spaceFree (splitSpaces s cur gap) = true.
Proof.
  induction s as [|c s IH]; intros cur gap Hcur; cbn [splitSpaces].
  - cbn. rewrite andb_true_r. unfold spaceFree in *.
    rewrite forallb_forall in *. intros x Hx. apply Hcur.
    now apply in_rev.
  - destruct (isSpace c) eqn:Ec.
    + destruct gap; [now apply IH|].
      cbn [forallb]. rewrite (IH [] true eq_refl), andb_true_r.
      unfold spaceFree in *. rewrite forallb_forall in *.
      intros x Hx. apply Hcur. now apply in_rev.
    + apply IH. cbn. now rewrite Ec.
Qed.

Lemma allButLast_cons w ws :
  nonNil w = true -> allButLast ws = true -> allButLast (w :: ws) = true.
Proof. intros Hw Hws. cbn. destruct ws; [reflexivity|]. now rewrite Hw. Qed.

Lemma allButLast_tl ws : allButLast ws = true -> allButLast (tl ws) = true.
Proof.
  destruct ws as [|w [|w2 ws]]; cbn [tl]; try easy.
  intros H. cbn [allButLast] in H. now apply andb_prop in H.
Qed.

Lemma allButLast_skipn k :
  forall ws, allButLast ws = true -> allButLast (skipn k ws) = true.
Proof.
  induction k as [|k IH]; intros ws H; [exact H|].
  destruct ws as [|w ws]; [reflexivity|].
  cbn [skipn]. apply IH. now apply (allButLast_tl (w :: ws)).
Qed.

Lemma splitSpaces_allButLast s :
  forall cur gap,
    nonNil cur = true \/ gap = true ->
    allButLast (splitSpaces s cur gap) = true.
Proof.
  induction s as [|c s IH]; intros cur gap H; [reflexivity|].
  cbn [splitSpaces]. destruct (isSpace c).
  - destruct gap; [apply IH; now right|].
    destruct H as [H|H]; [|discriminate H].
    apply allButLast_cons; [|apply IH; now right].
    destruct cur as [|x cur]; [discriminate H|].
    cbn [rev]. now destruct (rev cur).
  - apply IH. now left.
Qed.

Lemma splitSpaces_inner s :
  allButLast (tl (splitSpaces s [] false)) = true.
Proof.
  destruct s as [|c s]; [reflexivity|]. cbn [splitSpaces].
  destruct (isSpace c).
  - cbn [tl]. apply splitSpaces_allButLast. now right.
  - apply allButLast_tl, splitSpaces_allButLast. now left.
Qed.

Lemma splitSpaces_joinChars ws :
  forall w cur gap,
    forallb spaceFree (w :: ws) = true ->
    allButLast ws = true ->
    ws = [] \/ nonNil w = true \/ gap = false ->
    splitSpaces (joinChars (w :: ws)) cur gap = (rev cur ++ w) :: ws.
Proof.
  induction ws as [|w2 ws IH]; intros w cur gap Hsf Hin Hgap.
  - cbn [joinChars]. cbn in Hsf. rewrite andb_true_r in Hsf.
    rewrite <- (app_nil_r w) at 1. rewrite splitSpaces_word by exact Hsf.
    cbn [splitSpaces]. now rewrite rev_app_distr, rev_involutive.
  - change (joinChars (w :: w2 :: ws))
      with (w ++ " "%char :: joinChars (w2 :: ws)).
    cbn [forallb] in Hsf. apply andb_prop in Hsf. destruct Hsf as [Hw Hsf].
    rewrite splitSpaces_word by exact Hw.
    assert (Hg : (if nonNil w then false else gap) = false).
    { destruct (nonNil w) eqn:E; [reflexivity|].
      destruct Hgap as [H|[H|H]]; [discriminate H | discriminate H | exact H]. }
    rewrite Hg. cbn [splitSpaces].
    change (isSpace " "%char) with true. cbv iota.
    rewrite rev_app_distr, rev_involutive. f_equal.
    rewrite (IH w2 [] true Hsf).
    + reflexivity.
    + now apply (allButLast_tl (w2 :: ws)).
    + destruct ws as [|w3 ws]; [now left|]. right. left.
      cbn [allButLast] in Hin. now apply andb_prop in Hin.
Qed.

Lemma chars_of_join (ws : list chars) :
  list_ascii_of_string (join " " (map string_of_list_ascii ws))
  = joinChars ws.
Proof.
  induction ws as [|w ws IH]; [reflexivity|].
  destruct ws as [|w2 ws].
  - cbn. apply list_ascii_of_string_of_list_ascii.
  - change (join " " (map string_of_list_ascii (w :: w2 :: ws)))
      with (string_of_list_ascii w ++ " "
            ++ join " " (map string_of_list_ascii (w2 :: ws)))%string.
    rewrite !chars_of_append, IH, list_ascii_of_string_of_list_ascii.
    reflexivity.
Qed.

Lemma split_join_suffix s k :
  skipn k (split s) <> [] ->
  split (join " " (skipn k (split s))) = skipn k (split s).
Proof.
  unfold split. rewrite skipn_map.
  generalize (splitSpaces_spaceFree (list_ascii_of_string s) [] false eq_refl)
    (splitSpaces_inner (list_ascii_of_string s)).
  generalize (splitSpaces (list_ascii_of_string s) [] false).
  unfold chars. intros words Hfree Hinner Hne. rewrite chars_of_join.
  destruct (skipn k words) as [|w ws] eqn:E; [now elim Hne|].
  rewrite splitSpaces_joinChars; [reflexivity| | |now right; right].
  - pose proof Hfree as H.
    rewrite <- (firstn_skipn k words), forallb_app, E in H.
    now apply andb_prop in H.
  - assert (H : allButLast (skipn k (tl words)) = true)
      by apply allButLast_skipn, Hinner.
    replace (skipn k (tl words)) with (tl (skipn k words)) in H.
    + now rewrite E in H.
    + clear. revert words. induction k as [|k IH]; intros [|x l];
        try reflexivity.
      cbn [skipn tl]. rewrite IH.
      destruct l; [cbn; now rewrite skipn_nil | reflexivity].
Qed.

Lemma slice_suffix {A} (n : Z) (l : list A) :
  n <= 0 ->
  exists k,
    slice n l = skipn k l /\
    (k < List.length l \/ l = [])%nat /\
    (List.length l - k)%nat
    = if n =? 0 then List.length l
      else Nat.min (List.length l) (Z.to_nat (- n)).
Proof.
  intros Hn. unfold slice.
  destruct (Z.ltb_spec n 0) as [Hlt|Hge].
  - exists (Z.to_nat (Z.max (Z.of_nat (List.length l) + n) 0)).
    split; [reflexivity|]. split.
    + destruct l as [|x l]; [now right|]. left. cbn [List.length]. lia.
    + destruct (Z.eqb_spec n 0); lia.
  - assert (n = 0) by lia. subst n.
    exists 0%nat. split.
    + f_equal. lia.
    + split; [destruct l; [now right | left; cbn; lia]|]. cbn. lia.
Qed.

(** X9: the words that seed the next chunk.  For an overlap that is not
    negative, [split], [slice] and [join] give the last [floor(overlap / 4)]
    words of the chunk before (all of its words when it has fewer), and
    splitting the seed again gives these words back.  Below 4 the count is
    0 and [slice(-0)] is the whole array: the seed is then every word of
    the chunk before. *)
Theorem seed_holds_last_words (s : string) (overlap : Z) :
  0 <= overlap ->
  (exists before,
     split s = before ++ slice (- (overlap / 4)) (split s)) /\
  List.length (slice (- (overlap / 4)) (split s))
  = (if overlap <? 4 then List.length (split s)
     else Nat.min (List.length (split s)) (Z.to_nat (overlap / 4))) /\
  slice (- (overlap / 4)) (split s) <> [] /\
  split (join " " (slice (- (overlap / 4)) (split s)))
  = slice (- (overlap / 4)) (split s).
Proof.
  intros Hov.
  assert (Hq : 0 <= overlap / 4) by (apply Z.div_pos; lia).
  destruct (slice_suffix (- (overlap / 4)) (split s)) as (k & -> & Hk & Hlen);
    [lia|].
  assert (Hwords : split s <> []).
  { unfold split. destruct (list_ascii_of_string s) as [|c t]; [easy|].
    cbn [splitSpaces].
    destruct (isSpace c); [easy|].
    destruct (splitSpaces t [c] false) eqn:E; [|easy].
    exfalso. clear -E. revert E. generalize [c] false.
    induction t as [|d t IH]; intros cur gap; cbn [splitSpaces]; [easy|].
    destruct (isSpace d); [destruct gap; [apply IH | easy] | apply IH]. }
  destruct Hk as [Hk|Hk]; [|contradiction].
  assert (Hne : skipn k (split s) <> []).
  { intros E. apply (f_equal (@List.length _)) in E.
    rewrite length_skipn in E. cbn in E. lia. }
  split; [exists (firstn k (split s)); symmetry; apply firstn_skipn|].
  split.
  - rewrite length_skipn, Hlen.
    destruct (Z.ltb_spec overlap 4) as [Hlt|Hge].
    + rewrite Z.div_small by lia. reflexivity.
    + assert (1 <= overlap / 4) by (apply Z.div_le_lower_bound; lia).
      destruct (Z.eqb_spec (- (overlap / 4)) 0); [lia|].
      now rewrite Z.opp_involutive.
  - split; [exact Hne|]. now apply split_join_suffix.
Qed.

Lemma seed_holds_last_words_witness :
  0 <= 4 /\
  split (join " " (slice (- (4 / 4)) (split "one two  three")))
  = slice (- (4 / 4)) (split "one two  three") /\
  slice (- (4 / 4)) (split "one two  three") = ["three"].
Proof.
  split; [lia|]. split; [|reflexivity].
  apply (seed_holds_last_words "one two  three" 4). lia.
Defined.

(** ** Sentences *)

Lemma forallb_rev {A} (f : A -> bool) l :
  forallb f l = true -> forallb f (rev l) = true.
Proof.
  rewrite !forallb_forall. intros H x Hx. apply H. now apply in_rev.
Qed.

Lemma rev_not_nil {A} (x : A) l : rev (x :: l) <> [].
Proof. cbn. now destruct (rev l). Qed.

Lemma matchSentences_spec s :
  forall body terms,
    terminatorFree body = true ->
    forallb isTerminator terms = true ->
    (body = [] -> terms = []) ->
    Forall sentenceShaped (matchSentences s body terms) /\
    exists tail,
      pending s body terms
      = List.concat (matchSentences s body terms) ++ tail /\
      terminatorFree tail = true.
Proof.
  induction s as [|c s IH]; intros body terms Hb Ht Hbt.
  - destruct body as [|b body].
    + rewrite (Hbt eq_refl). cbn. split; [constructor|]. now exists [].
    + destruct terms as [|t terms].
      * cbn [matchSentences pending]. split; [constructor|].
        exists (rev (b :: body)). cbn [List.concat app]. rewrite app_nil_r.
        split; [reflexivity|]. now apply forallb_rev.
      * cbn [matchSentences pending]. split.
        -- constructor; [|constructor].
           exists (rev (b :: body)), (rev (t :: terms)).
           split; [reflexivity|]. split; [apply rev_not_nil|].
           split; [apply rev_not_nil|].
           split; now apply forallb_rev.
        -- exists []. cbn [List.concat]. rewrite !app_nil_r.
           now split.
  - cbn [matchSentences]. destruct (isTerminator c) eqn:Ec.
    + destruct body as [|b body].
      * destruct (IH [] [] eq_refl eq_refl (fun _ => eq_refl))
          as (Hs & tail & Hp & Htail).
        split; [exact Hs|]. exists tail. split; [|exact Htail].
        cbn [pending dropTerminators] in *. now rewrite Ec.
      * destruct (IH (b :: body) (c :: terms)) as (Hs & tail & Hp & Htail);
          [exact Hb | cbn; now rewrite Ec | discriminate|].
        split; [exact Hs|]. exists tail. split; [|exact Htail].
        rewrite <- Hp. cbn [pending rev]. now rewrite <- !app_assoc.
    + destruct terms as [|t terms].
      * destruct (IH (c :: body) []) as (Hs & tail & Hp & Htail);
          [cbn; now rewrite Ec | reflexivity | discriminate|].
        split; [exact Hs|]. exists tail. split; [|exact Htail].
        rewrite <- Hp. destruct body as [|b body].
        -- cbn. now rewrite Ec.
        -- cbn [pending rev app]. now rewrite <- !app_assoc.
      * destruct body as [|b body]; [now discriminate (Hbt eq_refl)|].
        destruct (IH [c] []) as (Hs & tail & Hp & Htail);
          [cbn; now rewrite Ec | reflexivity | discriminate|].
        split.
        -- constructor; [|exact Hs].
           exists (rev (b :: body)), (rev (t :: terms)).
           split; [reflexivity|]. split; [apply rev_not_nil|].
           split; [apply rev_not_nil|].
           split; now apply forallb_rev.
        -- exists tail. split; [|exact Htail].
           cbn [List.concat]. rewrite <- app_assoc, <- Hp.
           cbn [pending rev app]. now rewrite <- !app_assoc.
Qed.

Lemma terminatorFree_app a b :
  terminatorFree (a ++ b) = terminatorFree a && terminatorFree b.
Proof. apply forallb_app. Qed.

Lemma sentenceShaped_terminator s :
  sentenceShaped s -> terminatorFree s = false.
Proof.
  intros (body & terms & -> & _ & Ht & _ & Hterms).
  rewrite terminatorFree_app. destruct terms as [|t terms]; [easy|].
  cbn in *. apply andb_prop in Hterms. destruct Hterms as [-> _].
  cbn. apply andb_false_r.
Qed.

Lemma isTerminator_ink c : isTerminator c = true -> isSpace c = false.
Proof.
  unfold isTerminator. intros H.
  apply orb_prop in H. destruct H as [H|H];
    [apply orb_prop in H; destruct H as [H|H]|];
    apply Ascii.eqb_eq in H; subst c; reflexivity.
Qed.

Lemma sentenceShaped_ink s :
  sentenceShaped s -> existsb (fun c => negb (isSpace c)) s = true.
Proof.
  intros (body & terms & -> & _ & Ht & _ & Hterms).
  rewrite existsb_app. destruct terms as [|t terms]; [easy|].
  cbn in *. apply andb_prop in Hterms. destruct Hterms as [Hc _].
  rewrite (isTerminator_ink _ Hc). cbn. apply orb_true_r.
Qed.

Lemma matchSentences_partition (text : string) :
  Forall sentenceShaped (matchSentences (list_ascii_of_string text) [] []) /\
  (exists tail,
     dropTerminators (list_ascii_of_string text)
     = List.concat (matchSentences (list_ascii_of_string text) [] []) ++ tail /\
     terminatorFree tail = true) /\
  (matchSentences (list_ascii_of_string text) [] [] = [] <->
   terminatorFree (dropTerminators (list_ascii_of_string text)) = true) /\
  (matchSentences (list_ascii_of_string text) [] [] = [] ->
   sentencesOf text = [text]) /\
  (matchSentences (list_ascii_of_string text) [] [] <> [] ->
   sentencesOf text
   = map string_of_list_ascii
         (matchSentences (list_ascii_of_string text) [] [])).
Proof.
  destruct (matchSentences_spec (list_ascii_of_string text) [] []
              eq_refl eq_refl (fun _ => eq_refl))
    as (Hs & tail & Hp & Htail).
  cbn [pending] in Hp.
  split; [exact Hs|]. split; [now exists tail|].
  unfold sentencesOf.
  destruct (matchSentences (list_ascii_of_string text) [] [])
    as [|x l] eqn:E.
  - split; [|now split]. split; [|reflexivity].
    intros _. now rewrite Hp.
  - split; [|now split]. split; [discriminate|].
    rewrite Hp. cbn [List.concat]. rewrite !terminatorFree_app.
    apply Forall_inv in Hs. rewrite (sentenceShaped_terminator _ Hs).
    discriminate.
Qed.

(** X10: the sentences that [chunkText] reads.  Each match of the pattern
    is a run of characters that are not terminators followed by a run of
    terminators, both non-empty.  The matches follow one another without a
    gap: once the terminators that open the text are dropped, the text is
    the matches in order followed by a rest without terminator, and that
    rest is in no sentence.  [match] finds nothing exactly when no
    terminator follows another character; the whole text then stands as the
    one sentence. *)
Theorem sentences_partition_the_text (text : string) :
  Forall sentenceShaped (matchSentences (list_ascii_of_string text) [] []) /\
  (exists tail,
     dropTerminators (list_ascii_of_string text)
     = List.concat (matchSentences (list_ascii_of_string text) [] []) ++ tail /\
     terminatorFree tail = true) /\
  (matchSentences (list_ascii_of_string text) [] [] = [] <->
   terminatorFree (dropTerminators (list_ascii_of_string text)) = true) /\
  (matchSentences (list_ascii_of_string text) [] [] = [] ->
   sentencesOf text = [text]) /\
  (matchSentences (list_ascii_of_string text) [] [] <> [] ->
   sentencesOf text
   = map string_of_list_ascii
         (matchSentences (list_ascii_of_string text) [] [])).
Proof. apply matchSentences_partition. Qed.

(** ** Chunks *)

Lemma hasInk_append a b : hasInk (a ++ b) = hasInk a || hasInk b.
Proof. unfold hasInk. rewrite chars_of_append. apply existsb_app. Qed.

Lemma nonEmpty_ink s : s = "" \/ hasInk s = true ->
  nonEmpty s = true -> hasInk s = true.
Proof. now intros [->|H]. Qed.

Lemma chunkLoop_inked chunkSize overlap :
  forall sentences chunks cur tokens chunks' cur',
    Forall (fun s => hasInk s = true) sentences ->
    cur = "" \/ hasInk cur = true ->
    Forall (fun c => trimmed c /\ hasInk c = true) chunks ->
    chunkLoop sentences chunkSize overlap chunks cur tokens = (chunks', cur') ->
    Forall (fun c => trimmed c /\ hasInk c = true) chunks' /\
    (hasInk cur = true \/ sentences <> [] -> hasInk cur' = true).
Proof.
  induction sentences as [|x rest IH];
    intros chunks cur tokens chunks' cur' Hs Hcur Hchunks H.
  - injection H as <- <-. split; [exact Hchunks|]. now intros [H|H].
  - cbn [chunkLoop] in H.
    apply Forall_cons_iff in Hs. destruct Hs as [Hx Hrest].
    destruct ((chunkSize <? tokens + estimateTokens x) && nonEmpty cur) eqn:E.
    + apply andb_prop in E. destruct E as [_ E].
      assert (Hnext : hasInk (join " " (slice (- (overlap / 4)) (split cur))
                              ++ " " ++ x) = true)
        by now rewrite !hasInk_append, Hx, !orb_true_r.
      apply IH in H; [| exact Hrest | now right | ].
      * destruct H as (Hc & Hcur'). split; [exact Hc|].
        intros _. apply Hcur'. now left.
      * apply Forall_app. split; [exact Hchunks|].
        constructor; [|constructor]. split; [apply trim_trimmed|].
        rewrite trim_ink. now apply nonEmpty_ink.
    + assert (Hnext : hasInk (cur ++ x) = true)
        by now rewrite hasInk_append, Hx, orb_true_r.
      apply IH in H; [| exact Hrest | now right | exact Hchunks].
      destruct H as (Hc & Hcur'). split; [exact Hc|].
      intros _. apply Hcur'. now left.
Qed.

Lemma hasInk_of_chars s :
  hasInk (string_of_list_ascii s)
  = existsb (fun c => negb (isSpace c)) s.
Proof. unfold hasInk. now rewrite list_ascii_of_string_of_list_ascii. Qed.

Lemma isSpace_not_terminator c : isSpace c = true -> isTerminator c = false.
Proof.
  intros H. destruct (isTerminator c) eqn:E; [|reflexivity].
  apply isTerminator_ink in E. congruence.
Qed.

Lemma blank_terminatorFree s :
  existsb (fun c => negb (isSpace c)) s = false -> terminatorFree s = true.
Proof.
  induction s as [|c s IH]; [reflexivity|]. cbn [existsb]. intros H.
  apply orb_false_elim in H. destruct H as [Hc Hs].
  apply negb_false_iff in Hc.
  change (terminatorFree (c :: s))
    with (negb (isTerminator c) && terminatorFree s).
  now rewrite (isSpace_not_terminator _ Hc), (IH Hs).
Qed.

Lemma dropTerminators_free s :
  terminatorFree s = true -> dropTerminators s = s.
Proof.
  destruct s as [|c s]; [reflexivity|]. cbn. intros H.
  apply andb_prop in H. destruct H as [H _].
  apply negb_true_iff in H. now rewrite H.
Qed.

Lemma sentencesOf_blank text :
  hasInk text = false -> sentencesOf text = [text].
Proof.
  intros H.
  destruct (matchSentences_partition text) as (_ & _ & Hnil & Hone & _).
  apply Hone, Hnil. apply blank_terminatorFree.
  destruct (matchSentences_partition text) as (_ & (tail & Hp & _) & _).
  clear -H. unfold hasInk in H. revert H.
  induction (list_ascii_of_string text) as [|c s IH]; [reflexivity|].
  cbn. intros H. apply orb_false_elim in H. destruct H as [Hc Hs].
  apply negb_false_iff in Hc.
  rewrite (isSpace_not_terminator _ Hc). cbn. now rewrite Hc.
Qed.

Lemma sentencesOf_inked text :
  hasInk text = true -> Forall (fun s => hasInk s = true) (sentencesOf text).
Proof.
  intros H.
  destruct (matchSentences_partition text) as (Hs & _ & _ & Hone & Hmany).
  destruct (matchSentences (list_ascii_of_string text) [] []) as [|x l].
  - rewrite Hone by reflexivity. now constructor.
  - rewrite Hmany by discriminate. apply Forall_map.
    eapply Forall_impl; [|exact Hs]. intros s Hshape. cbn beta.
    rewrite hasInk_of_chars. now apply sentenceShaped_ink.
Qed.

Lemma sentencesOf_not_nil text : sentencesOf text <> [].
Proof.
  unfold sentencesOf.
  now destruct (matchSentences (list_ascii_of_string text) [] []).
Qed.

Lemma chunkText_big text chunkSize overlap :
  chunkSize < estimateTokens text ->
  Forall (fun c => trimmed c /\ hasInk c = true)
         (chunkText text chunkSize overlap) /\
  (chunkText text chunkSize overlap = [] <-> hasInk text = false).
Proof.
  intros Hbig. unfold chunkText.
  destruct (Z.leb_spec (estimateTokens text) chunkSize) as [Hle|_]; [lia|].
  destruct (hasInk text) eqn:Hink.
  - destruct (chunkLoop (sentencesOf text) chunkSize overlap [] "" 0)
      as [chunks cur] eqn:E.
    apply chunkLoop_inked in E;
      [| now apply sentencesOf_inked | now left | constructor].
    destruct E as (Hc & Hcur).
    assert (Hcur' : hasInk cur = true)
      by (apply Hcur; right; apply sentencesOf_not_nil).
    assert (Ht : hasInk (trim cur) = true) by now rewrite trim_ink.
    assert (Hn : nonEmpty (trim cur) = true) by now destruct (trim cur).
    rewrite Hn. split.
    + apply Forall_app. split; [exact Hc|].
      constructor; [|constructor]. split; [apply trim_trimmed | exact Ht].
    + split; [|discriminate]. intros H. now destruct chunks.
  - rewrite (sentencesOf_blank _ Hink). cbn [chunkLoop].
    rewrite andb_false_r. cbn [chunkLoop append].
    rewrite (proj2 (trim_empty text) Hink). cbn. now split.
Qed.

(** X11: the chunks of a document above the budget.  Each chunk is
    trimmed and has a character that is not a space.  There is no chunk at
    all exactly when the document above the budget consists of spaces;
    a document within the budget is its own single chunk, spaces and
    all. *)
Theorem chunks_trimmed_and_not_blank (text : string) (chunkSize overlap : Z) :
  (chunkText text chunkSize overlap = [] <->
   chunkSize < estimateTokens text /\ hasInk text = false) /\
  (chunkSize < estimateTokens text ->
   Forall (fun c => trimmed c /\ hasInk c = true)
          (chunkText text chunkSize overlap)) /\
  (estimateTokens text <= chunkSize ->
   chunkText text chunkSize overlap = [text]) /\
  (Z.of_nat (String.length text) <= 4 * chunkSize ->
   chunkText text chunkSize overlap = [text]).
Proof.
  assert (Hfit : estimateTokens text <= chunkSize ->
                 chunkText text chunkSize overlap = [text]).
  { intros H. unfold chunkText.
    destruct (Z.leb_spec (estimateTokens text) chunkSize);
      [reflexivity | lia]. }
  split; [|split; [|split]].
  - destruct (Z.lt_ge_cases chunkSize (estimateTokens text)) as [Hbig|Hle].
    + destruct (chunkText_big text chunkSize overlap Hbig) as (_ & Hnil).
      rewrite Hnil. tauto.
    + rewrite (Hfit Hle). split; [discriminate | lia].
  - intros Hbig. now apply chunkText_big.
  - exact Hfit.
  - intros Hlen. apply Hfit. unfold estimateTokens.
    assert (H : ((String.length text + 3) / 4 < S (Z.to_nat chunkSize))%nat).
    { apply Nat.Div0.div_lt_upper_bound. lia. }
    lia.
Qed.

Lemma chunks_trimmed_and_not_blank_witness :
  Forall (fun c => trimmed c /\ hasInk c = true)
         (chunkText "A. B. C" 1 OVERLAP_SIZE).
Proof.
  apply (chunks_trimmed_and_not_blank "A. B. C" 1 OVERLAP_SIZE).
  vm_compute. reflexivity.
Defined.

(** X12: no matched sentence is lost.  In a document above the budget
    that is not blank, every sentence that the split finds is part of a
    string whose trimmed form is one of the chunks. *)
Theorem chunkText_keeps_every_sentence
    (text : string) (chunkSize overlap : Z) (s : string) :
  chunkSize < estimateTokens text ->
  hasInk text = true ->
  In s (sentencesOf text) ->
  exists raw,
    within s raw /\ In (trim raw) (chunkText text chunkSize overlap).
Proof.
  intros Hbig Hink Hs.
  destruct (chunkText_keeps_matched_sentences text chunkSize overlap s
              Hbig Hs) as (raw & Hin & [Hraw|Hraw]);
    exists raw; (split; [exact Hin|]); [exact Hraw|].
  exfalso. apply trim_empty in Hraw.
  destruct Hin as (pre & post & ->).
  rewrite !hasInk_append in Hraw.
  pose proof (sentencesOf_inked text Hink) as Hall.
  rewrite Forall_forall in Hall. rewrite (Hall s Hs) in Hraw.
  now rewrite orb_true_r in Hraw.
Qed.

Lemma chunkText_keeps_every_sentence_witness :
  exists raw,
    within " B." raw /\ In (trim raw) (chunkText "A. B. C" 1 OVERLAP_SIZE).
Proof.
  apply (chunkText_keeps_every_sentence "A. B. C" 1 OVERLAP_SIZE " B.").
  - vm_compute. reflexivity.
  - vm_compute. reflexivity.
  - vm_compute. right. left. reflexivity.
Defined.

(** ** The aggregate *)

Lemma existsb_String_eqb c l : existsb (String.eqb c) l = true <-> In c l.
Proof.
  rewrite existsb_exists. split.
  - intros (x & Hx & E). apply String.eqb_eq in E. now subst.
  - intros H. exists c. split; [exact H | apply String.eqb_refl].
Qed.

Lemma addAll_spec l :
  forall set,
    NoDup set ->
    NoDup (addAll set l) /\
    forall c, In c (addAll set l) <-> In c set \/ In c l.
Proof.
  unfold addAll. induction l as [|x l IH]; intros set Hset; cbn [fold_left].
  - split; [exact Hset|]. intros c. cbn. tauto.
  - destruct (existsb (String.eqb x) set) eqn:E.
    + destruct (IH set Hset) as (Hnd & Hin). split; [exact Hnd|].
      intros c. rewrite Hin. cbn. apply existsb_String_eqb in E.
      split; [tauto|]. intros [H|[<-|H]]; tauto.
    + assert (Hx : ~ In x set).
      { intros H. apply existsb_String_eqb in H. congruence. }
      destruct (IH (set ++ [x])) as (Hnd & Hin).
      { apply NoDup_app; [exact Hset | repeat constructor; easy |].
        intros a Ha [<-|[]]. contradiction. }
      split; [exact Hnd|]. intros c. rewrite Hin, in_app_iff. cbn. tauto.
Qed.

Lemma collect_spec (f : ExtractionResult -> list string) rs :
  forall set,
    NoDup set ->
    NoDup (fold_left (fun set r => addAll set (f (result r))) rs set) /\
    forall c,
      In c (fold_left (fun set r => addAll set (f (result r))) rs set) <->
      In c set \/ exists r, In r rs /\ In c (f (result r)).
Proof.
  induction rs as [|r rs IH]; intros set Hset; cbn [fold_left].
  - split; [exact Hset|]. intros c. split; [tauto|].
    intros [H|(r & [] & _)]. exact H.
  - destruct (addAll_spec (f (result r)) set Hset) as (Hnd & Hin).
    destruct (IH _ Hnd) as (Hnd' & Hin'). split; [exact Hnd'|].
    intros c. rewrite Hin', Hin. split.
    + intros [[H|H]|(r' & Hr' & Hc)].
      * now left.
      * right. exists r. split; [now left | exact H].
      * right. exists r'. split; [now right | exact Hc].
    + intros [H|(r' & [<-|Hr'] & Hc)].
      * left. now left.
      * left. now right.
      * right. now exists r'.
Qed.

Lemma collect_found (f : ExtractionResult -> list string) rs c :
  In c (fold_left (fun set r => addAll set (f (result r)))
                  (filter success rs) []) <->
  foundIn f rs c.
Proof.
  rewrite (proj2 (collect_spec f (filter success rs) [] (NoDup_nil _))).
  unfold foundIn. split.
  - intros [[]|(r & Hr & Hc)]. apply filter_In in Hr. now exists r.
  - intros (r & Hr & Hs & Hc). right. exists r.
    split; [apply filter_In; now split | exact Hc].
Qed.

(** X13: the three sets of the aggregate.  The companies, the business
    concepts and the technical concepts that [reduceResults] returns hold
    no value twice, and hold a value exactly when a result with
    [success = true] lists it.  Quotes are not deduplicated: there is one
    for each quote of each such result. *)
Theorem reduce_collects_without_duplicates (rs : list ChunkResult) :
  NoDup (companies (reduceResults rs)) /\
  NoDup (business (reduceResults rs)) /\
  NoDup (technical (reduceResults rs)) /\
  (forall c, In c (companies (reduceResults rs)) <-> foundIn companies rs c) /\
  (forall c, In c (business (reduceResults rs)) <-> foundIn business rs c) /\
  (forall c, In c (technical (reduceResults rs)) <-> foundIn technical rs c) /\
  List.length (quotes (reduceResults rs))
  = list_sum (map (fun r => List.length (quotes (result r)))
                  (filter success rs)).
Proof.
  unfold reduceResults. cbn [companies business technical quotes].
  split; [apply (collect_spec companies), NoDup_nil|].
  split; [apply (collect_spec business), NoDup_nil|].
  split; [apply (collect_spec technical), NoDup_nil|].
  split; [intros c; apply (collect_found companies)|].
  split; [intros c; apply (collect_found business)|].
  split; [intros c; apply (collect_found technical)|].
  induction (filter success rs) as [|r l IH]; [reflexivity|].
  cbn. now rewrite length_app, IH.
Qed.

Lemma substring_prefix n :
  forall s, exists rest,
    s = (String.substring 0 n s ++ rest)%string /\
    (String.length (String.substring 0 n s) <= n)%nat.
Proof.
  induction n as [|n IH]; intros s.
  - exists s. destruct s; cbn; split; (reflexivity || lia).
  - destruct s as [|c s]; [exists ""; cbn; split; [reflexivity | lia]|].
    destruct (IH s) as (rest & E & Hlen). exists rest. cbn.
    split; [now rewrite <- E | lia].
Qed.

Lemma substring_all n :
  forall s, (String.length s <= n)%nat -> String.substring 0 n s = s.
Proof.
  induction n as [|n IH]; intros [|c s] H; cbn in *; try reflexivity;
    [lia|]. rewrite IH; [reflexivity | lia].
Qed.

Lemma join_firstn_prefix sep k :
  forall l, exists rest,
    join sep l = (join sep (firstn k l) ++ rest)%string.
Proof.
  unfold join. induction k as [|k IH]; intros l.
  - exists (String.concat sep l). now destruct l.
  - destruct l as [|x l]; [now exists ""|].
    destruct (IH l) as (rest & E).
    destruct l as [|y l].
    + exists "". cbn [firstn]. rewrite firstn_nil. cbn.
      now rewrite append_empty_r.
    + destruct k as [|k].
      * exists (sep ++ String.concat sep (y :: l))%string. reflexivity.
      * exists rest.
        change (String.concat sep (x :: y :: l))
          with (x ++ sep ++ String.concat sep (y :: l))%string.
        change (firstn (S (S k)) (x :: y :: l))
          with (x :: y :: firstn k l).
        change (String.concat sep (x :: y :: firstn k l))
          with (x ++ sep ++ String.concat sep (y :: firstn k l))%string.
        change (firstn (S k) (y :: l)) with (y :: firstn k l) in E.
        now rewrite E, !append_assoc.
Qed.

Lemma join_nonEmpty sep l :
  l <> [] -> Forall (fun s => nonEmpty s = true) l ->
  nonEmpty (join sep l) = true.
Proof.
  destruct l as [|x l]; [easy|]. intros _ H.
  apply Forall_inv in H. destruct x as [|c x]; [discriminate H|].
  unfold join. cbn. now destruct l.
Qed.

(** X14: the key takeaway of the aggregate.  When no successful result
    has a non-empty summary, the combined summary is empty and the key
    takeaway is a fixed message.  Otherwise the combined summary is not
    empty and the key takeaway is its beginning: the first three summaries
    joined by spaces, cut at 250 characters. *)
Theorem reduce_key_takeaway (rs : list ChunkResult) :
  summary (reduceResults rs) = join " " (summariesOf rs) /\
  (summariesOf rs = [] ->
   summary (reduceResults rs) = "" /\
   keyTakeaway (reduceResults rs)
   = "Unable to extract key takeaway from document.") /\
  (summariesOf rs <> [] ->
   nonEmpty (summary (reduceResults rs)) = true /\
   (String.length (keyTakeaway (reduceResults rs)) <= 250)%nat /\
   (exists rest,
      summary (reduceResults rs)
      = (keyTakeaway (reduceResults rs) ++ rest)%string) /\
   ((List.length (summariesOf rs) <= 3)%nat ->
    (String.length (summary (reduceResults rs)) <= 250)%nat ->
    keyTakeaway (reduceResults rs) = summary (reduceResults rs))).
Proof.
  unfold reduceResults. cbn [summary keyTakeaway].
  fold (summariesOf rs).
  split; [reflexivity|]. split.
  - intros ->. now split.
  - intros Hne.
    destruct (summariesOf rs) as [|x l] eqn:E; [now elim Hne|].
    rewrite <- E.
    assert (Hall : Forall (fun s => nonEmpty s = true) (summariesOf rs)).
    { unfold summariesOf. apply Forall_forall. intros s Hs.
      now apply filter_In in Hs. }
    split; [apply join_nonEmpty; [now rewrite E | exact Hall]|].
    destruct (substring_prefix 250 (join " " (firstn 3 (summariesOf rs))))
      as (rest & Hcut & Hlen).
    destruct (join_firstn_prefix " " 3 (summariesOf rs)) as (rest' & Hjoin).
    split; [exact Hlen|]. split.
    + exists (rest ++ rest')%string.
      now rewrite <- append_assoc, <- Hcut.
    + intros H3 H250. rewrite firstn_all2 by exact H3.
      now apply substring_all.
Qed.

Lemma reduce_key_takeaway_witness :
  keyTakeaway (reduceResults [done 0; failedBefore 1; done 2])
  = summary (reduceResults [done 0; failedBefore 1; done 2]) /\
  summary (reduceResults [done 0; failedBefore 1; done 2])
  = "A summary. A summary.".
Proof.
  split; [|reflexivity].
  apply (reduce_key_takeaway [done 0; failedBefore 1; done 2]).
  - discriminate.
  - vm_compute. lia.
  - vm_compute. lia.
Defined.

(** ** The outcome of [processChunk] *)

Lemma processChunk_skips env chunk idx total us :
  forall k retries w res,
    (retries + k <= MAX_RETRIES)%nat ->
    (forall j, (j < k)%nat ->
               exists m, objectReply env (w_calls w + j) us = Failed m) ->
    objectReply env (w_calls w + k) us = Ok res ->
    exists w',
      processChunk env chunk idx total retries us w
      = (mkChunkResult idx res true None
           (clock env (w_ticks w + 2 * k + 1) - clock env (w_ticks w + 2 * k)),
         w') /\
      w_trace w' = w_trace w ++ retryTrace idx retries k /\
      w_calls w' = (w_calls w + S k)%nat /\
      w_heap w' = w_heap w /\ sameFiles w w'.
Proof.
  induction k as [|k IH]; intros retries w res Hk Hfail Hok;
    rewrite processChunk_eq.
  - rewrite Nat.add_0_r in Hok. rewrite Hok. eexists. split.
    + unfold attemptTime. repeat f_equal; lia.
    + cbn. repeat split; lia.
  - destruct (Hfail 0%nat) as [m Hm]; [lia|].
    rewrite Nat.add_0_r in Hm. rewrite Hm.
    destruct (Nat.ltb_spec retries MAX_RETRIES) as [_|Hge]; [|lia].
    set (w1 := snd (sleep (1000 * (Z.of_nat retries + 1))
                      (afterAttempt idx retries w))).
    destruct (IH (S retries) w1 res) as (w' & E & Htr & Hc & Hh & Hf).
    + lia.
    + intros j Hj. destruct (Hfail (S j)) as [m' Hm']; [lia|].
      exists m'. cbn. now rewrite <- Nat.add_succ_r.
    + cbn. now rewrite <- Nat.add_succ_r.
    + exists w'. rewrite E. split.
      * cbn. repeat f_equal; lia.
      * cbn in Htr, Hc, Hh, Hf. rewrite Htr, Hc, Hh, <- !app_assoc.
        split; [reflexivity|]. split; [lia|]. split; [reflexivity|].
        exact Hf.
Qed.

Lemma processChunk_gives_up env chunk idx total us :
  forall k retries w,
    (retries + k = MAX_RETRIES)%nat ->
    (forall j, (j <= k)%nat ->
               exists m, objectReply env (w_calls w + j) us = Failed m) ->
    exists message w',
      objectReply env (w_calls w + k) us = Failed message /\
      processChunk env chunk idx total retries us w
      = (mkChunkResult idx (failedPayload message) false (Some message)
           (clock env (w_ticks w + 2 * k + 1) - clock env (w_ticks w + 2 * k)),
         w') /\
      w_trace w' = w_trace w ++ retryTrace idx retries k /\
      w_calls w' = (w_calls w + S k)%nat.
Proof.
  induction k as [|k IH]; intros retries w Hk Hfail;
    rewrite processChunk_eq;
    destruct (Hfail 0%nat) as [m Hm]; try lia;
    rewrite Nat.add_0_r in Hm; rewrite Hm.
  - destruct (Nat.ltb_spec retries MAX_RETRIES) as [Hlt|_]; [lia|].
    exists m. eexists. rewrite Nat.add_0_r. split; [exact Hm|]. split.
    + unfold attemptTime. repeat f_equal; lia.
    + cbn. split; [reflexivity | lia].
  - destruct (Nat.ltb_spec retries MAX_RETRIES) as [_|Hge]; [|lia].
    set (w1 := snd (sleep (1000 * (Z.of_nat retries + 1))
                      (afterAttempt idx retries w))).
    destruct (IH (S retries) w1) as (message & w' & Hmsg & E & Htr & Hc).
    + lia.
    + intros j Hj. destruct (Hfail (S j)) as [m' Hm']; [lia|].
      exists m'. cbn. now rewrite <- Nat.add_succ_r.
    + exists message, w'. rewrite E. cbn in Hmsg, Htr, Hc.
      split; [now rewrite Nat.add_succ_r|]. split.
      * cbn. repeat f_equal; lia.
      * rewrite Htr, Hc, <- !app_assoc. split; [reflexivity | lia].
Qed.

(** X15: what [processChunk] returns is decided by the first four
    replies of the extraction call.  When the first reply that is not a
    failure is among them, it is the payload of a result with
    [success = true], no further call is made, and the processing time is
    that of this last attempt alone.  When all four fail, the result has
    [success = false] and carries the message of the fourth. *)
Theorem processChunk_returns_first_reply
    (env : Env) (chunk : string) (idx total : nat) (useStreaming : bool)
    (w : World) :
  (forall k res,
     (k <= MAX_RETRIES)%nat ->
     (forall j, (j < k)%nat ->
        exists m, objectReply env (w_calls w + j) useStreaming = Failed m) ->
     objectReply env (w_calls w + k) useStreaming = Ok res ->
     exists w',
       processChunk env chunk idx total 0 useStreaming w
       = (mkChunkResult idx res true None
            (clock env (w_ticks w + 2 * k + 1)
             - clock env (w_ticks w + 2 * k)), w') /\
       w_trace w' = w_trace w ++ retryTrace idx 0 k /\
       w_calls w' = (w_calls w + S k)%nat) /\
  ((forall j, (j <= MAX_RETRIES)%nat ->
      exists m, objectReply env (w_calls w + j) useStreaming = Failed m) ->
   exists message w',
     objectReply env (w_calls w + MAX_RETRIES) useStreaming
     = Failed message /\
     processChunk env chunk idx total 0 useStreaming w
     = (mkChunkResult idx (failedPayload message) false (Some message)
          (clock env (w_ticks w + 2 * MAX_RETRIES + 1)
           - clock env (w_ticks w + 2 * MAX_RETRIES)), w') /\
     w_trace w' = w_trace w ++ retryTrace idx 0 MAX_RETRIES /\
     w_calls w' = (w_calls w + S MAX_RETRIES)%nat).
Proof.
  split.
  - intros k res Hk Hfail Hok.
    destruct (processChunk_skips env chunk idx total useStreaming
                k 0%nat w res Hk Hfail Hok)
      as (w' & E & Htr & Hc & _).
    now exists w'.
  - intros Hfail.
    now apply processChunk_gives_up.
Qed.

Lemma processChunk_returns_first_reply_witness :
  exists w',
    processChunk flakyEnv "A." 0 1 0 false (freshWorld "A." None)
    = (mkChunkResult 0 sampleResult true None 1, w') /\
    w_trace w'
    = [EvExtract 0 0; EvSleep 1000; EvExtract 0 1; EvSleep 2000;
       EvExtract 0 2] /\
    w_calls w' = 3%nat.
Proof.
  destruct (proj1 (processChunk_returns_first_reply flakyEnv "A." 0 1 false
                     (freshWorld "A." None)) 2%nat sampleResult)
    as (w' & E & Htr & Hc).
  - unfold MAX_RETRIES. lia.
  - intros j Hj. exists "timeout". cbn.
    destruct j as [|[|j]]; [reflexivity | reflexivity | lia].
  - reflexivity.
  - exists w'. split; [exact E|]. split; [exact Htr | exact Hc].
Defined.

(** ** Counters and files along the loop *)

Lemma afterChunk_files env fp chunks p idx r w0 p' w' :
  afterChunk env fp chunks p idx r w0 = (p', w') ->
  p_completedChunks p'
  = (if success r then S (p_completedChunks p) else p_completedChunks p) /\
  p_failedChunks p'
  = (if success r then p_failedChunks p else S (p_failedChunks p)) /\
  p_startTime p' = p_startTime p /\
  w_io w' = S (w_io w0) /\
  w_checkpoint w'
  = (if ioThrows env (w_io w0) then w_checkpoint w0
     else Some (mkCheckpoint fp (p_totalChunks p)
                  (completedOf (derefAll (w_heap w') (p_chunkResults p')))
                  (derefAll (w_heap w') (p_chunkResults p'))
                  (clock env (w_ticks w0)))).
Proof.
  intros H. unfold afterChunk in H.
  destruct (success r).
  - unfold bind, ret, saveCheckpoint, bind, nextIoThrows, readHeap,
      dateNow, emit, setHeap, setCheckpoint, incrCompleted, pushResult,
      alloc, setHeap in H.
    cbn in H. destruct (ioThrows env (w_io w0)); injection H as <- <-;
      cbn; now repeat split.
  - unfold bind, ret, saveCheckpoint, bind, nextIoThrows, readHeap,
      dateNow, emit, setHeap, setCheckpoint, incrFailed, pushResult,
      setSummary, summarizeFailedChunk, bind, emit, nextCall, ret,
      alloc, setHeap in H.
    cbn in H. destruct (textReply env (w_calls w0)); cbn in H;
      destruct (ioThrows env (w_io w0)); injection H as <- <-;
      cbn; now repeat split.
Qed.

Lemma processOne_files env fp chunks us p idx w p' w' :
  processOne env fp chunks us p idx w = (p', w') ->
  exists r0 w0,
    processChunk env (nth idx chunks "") idx (List.length chunks) 0 us
                 (snd (displayProgress env p w)) = (r0, w0) /\
    p_completedChunks p'
    = (if success r0 then S (p_completedChunks p) else p_completedChunks p) /\
    p_failedChunks p'
    = (if success r0 then p_failedChunks p else S (p_failedChunks p)) /\
    p_startTime p' = p_startTime p /\
    w_io w' = S (w_io w) /\
    w_checkpoint w'
    = (if ioThrows env (w_io w) then w_checkpoint w
       else Some (mkCheckpoint fp (p_totalChunks p)
                    (completedOf (derefAll (w_heap w') (p_chunkResults p')))
                    (derefAll (w_heap w') (p_chunkResults p'))
                    (clock env (w_ticks w0)))).
Proof.
  intros H. rewrite processOne_unfold in H.
  destruct (processChunk env (nth idx chunks "") idx (List.length chunks) 0
              us (snd (displayProgress env p w))) as [r0 w0] eqn:Ep.
  cbn [fst snd] in H. exists r0, w0. split; [reflexivity|].
  destruct (processChunk_spec _ _ _ _ _ _ _ _ Ep)
    as (_ & _ & _ & _ & _ & _ & (_ & Hck & Hio) & _).
  cbn in Hck, Hio.
  destruct (afterChunk_files _ _ _ _ _ _ _ _ _ H) as (Hc & Hf & Hs & Hi & Hw).
  rewrite Hio, Hck in *. now repeat split.
Qed.

Lemma forEach_counts env fp chunks us :
  forall idxs p w p' w',
    wellFormed p w ->
    forEach (processOne env fp chunks us) idxs p w = (p', w') ->
    exists news,
      derefAll (w_heap w') (p_chunkResults p')
      = derefAll (w_heap w) (p_chunkResults p) ++ news /\
      map chunkIndex news = idxs /\
      p_completedChunks p'
      = (p_completedChunks p + List.length (filter success news))%nat /\
      p_failedChunks p'
      = (p_failedChunks p
         + List.length (filter (fun r => negb (success r)) news))%nat /\
      p_totalChunks p' = p_totalChunks p /\
      p_startTime p' = p_startTime p /\
      w_io w' = (w_io w + List.length idxs)%nat /\
      (idxs = [] -> w_checkpoint w' = w_checkpoint w) /\
      (idxs <> [] ->
       ioThrows env (w_io w + List.length idxs - 1) = false ->
       exists t,
         w_checkpoint w'
         = Some (mkCheckpoint fp (p_totalChunks p)
                   (completedOf (derefAll (w_heap w') (p_chunkResults p')))
                   (derefAll (w_heap w') (p_chunkResults p')) t)).
Proof.
  induction idxs as [|idx idxs IH]; intros p w p' w' Hwf H.
  - injection H as <- <-. exists []. rewrite app_nil_r, !Nat.add_0_r.
    repeat split; easy.
  - cbn [forEach] in H. unfold bind at 1 in H.
    destruct (processOne env fp chunks us p idx w) as [p1 w1] eqn:E1.
    destruct (processOne_spec _ _ _ _ _ _ _ _ _ Hwf E1)
      as (r0 & w0 & r & n & tr1 & Ep & _ & Hh1 & Hl1 & Ht1 & Hi1 & Hs1 & _).
    destruct (processOne_files _ _ _ _ _ _ _ _ _ E1)
      as (r0' & w0' & Ep' & Hc1 & Hf1 & Hst1 & Hio1 & Hck1).
    rewrite Ep in Ep'. injection Ep' as <- <-.
    assert (Hd : derefAll (w_heap w1) (p_chunkResults p1)
                 = derefAll (w_heap w) (p_chunkResults p) ++ [r])
      by (rewrite Hh1, Hl1; now apply derefAll_snoc).
    assert (Hwf1 : wellFormed p1 w1).
    { unfold wellFormed in *. rewrite Hh1, Hl1, length_app. cbn.
      apply Forall_app. split.
      - eapply Forall_impl; [|exact Hwf]. cbn. intros; lia.
      - constructor; [lia | constructor]. }
    destruct (IH _ _ _ _ Hwf1 H)
      as (news & Hd' & Hidx & Hc & Hf & Ht & Hst & Hio & Hnil & Hlast).
    exists (r :: news).
    split; [rewrite Hd', Hd, <- app_assoc; reflexivity|].
    split; [cbn; now rewrite Hi1, Hidx|].
    cbn [filter]. rewrite Hs1. cbn [negb].
    split; [rewrite Hc, Hc1; destruct (success r0); cbn; lia|].
    split; [rewrite Hf, Hf1; destruct (success r0); cbn; lia|].
    split; [congruence|]. split; [congruence|].
    split; [rewrite Hio, Hio1; cbn; lia|].
    split; [discriminate|].
    intros _ Hok.
    destruct idxs as [|idx2 idxs].
    + cbn [List.length] in Hok.
      replace (w_io w + 1 - 1)%nat with (w_io w) in Hok by lia.
      rewrite (Hnil eq_refl), Hck1, Hok.
      injection H as <- <-. eexists. reflexivity.
    + destruct Hlast as [t Hlast]; [discriminate | |].
      * rewrite Hio1. cbn [List.length] in *.
        replace (S (w_io w) + S (List.length idxs) - 1)%nat
          with (w_io w + S (S (List.length idxs)) - 1)%nat by lia.
        exact Hok.
      * exists t. now rewrite Hlast, Ht1.
Qed.

Lemma allocAll_checkpoint rs :
  forall w, w_checkpoint (snd (allocAll rs w)) = w_checkpoint w.
Proof.
  induction rs as [|r rs IH]; intros w; [reflexivity|].
  cbn [allocAll]. unfold bind, alloc, ret.
  specialize (IH (setHeap (w_heap w ++ [r]) w)).
  destruct (allocAll rs (setHeap (w_heap w ++ [r]) w)) as [ls w'].
  exact IH.
Qed.

Lemma loopStart_spec env fp options document w :
  let n := List.length (chunksOf options document) in
  let loaded := loadedCheckpoint env options w in
  let p := fst (loopStart env fp options document w) in
  let w0 := snd (loopStart env fp options document w) in
  wellFormed p w0 /\
  derefAll (w_heap w0) (p_chunkResults p) = storedResults loaded /\
  p_totalChunks p = n /\
  p_completedChunks p
  = match loaded with
    | Some c => List.length (c_completedChunks c)
    | None => 0%nat
    end /\
  p_failedChunks p
  = List.length (filter (fun r => negb (success r)) (storedResults loaded)) /\
  w_io w0
  = (w_io w + if fromOption (o_resume options) true then 1 else 0)%nat /\
  w_checkpoint w0 = w_checkpoint w /\
  w_document w0 = w_document w.
Proof.
  cbv zeta. unfold loopStart.
  pose proof (load_spec env fp options w) as Hl.
  assert (Hio : let '(c, w') :=
                  (if fromOption (o_resume options) true
                   then loadCheckpoint env fp else ret None) w in
                w_io w' = (w_io w + if fromOption (o_resume options) true
                                    then 1 else 0)%nat /\
                w_checkpoint w' = w_checkpoint w).
  { unfold loadCheckpoint, bind, nextIoThrows, emit, ret.
    destruct (fromOption (o_resume options) true); cbn.
    - destruct (ioThrows env (w_io w)); cbn; split; (reflexivity || lia).
    - split; (reflexivity || lia). }
  destruct ((if fromOption (o_resume options) true
             then loadCheckpoint env fp else ret None) w) as [c w1].
  destruct Hl as (-> & Hh1 & Hd1 & _). destruct Hio as [Hio Hck].
  pose proof (init_spec env (loadedCheckpoint env options w)
                (List.length (chunksOf options document)) w1) as Hi.
  unfold initProgress in *.
  destruct (loadedCheckpoint env options w) as [c|].
  - unfold bind, ret in *.
    pose proof (allocAll_spec (c_chunkResults c) w1) as Ha.
    pose proof (allocAll_checkpoint (c_chunkResults c) w1) as Hck2.
    destruct (allocAll (c_chunkResults c) w1) as [ls w2].
    destruct Ha as (_ & _ & _ & _ & _ & Hio2 & _).
    destruct Hi as (Hwf & Hd & Hn & Hdoc & _).
    cbn [fst snd] in *. cbn.
    split; [exact Hwf|]. split; [exact Hd|].
    repeat split; try congruence.
  - cbn. destruct Hi as (Hwf & _). repeat split; try congruence.
Qed.

(** ** The progress bar *)

Lemma progressBar_filled fl c t :
  progressBar fl c (S t)
  = let filled :=
      jsRound (fl (fl (inject_Z (Z.of_nat c) / inject_Z (Z.of_nat (S t)))
                   * 40)%Q) in
    if 40 - filled <? 0 then None else Some (filled, 40 - filled).
Proof. reflexivity. Qed.

Lemma filled_at_least fl (c t lo : nat) :
  rounding fl ->
  (lo * S t <= c)%nat -> (lo <= 1000)%nat ->
  40 * Z.of_nat lo
  <= jsRound (fl (fl (inject_Z (Z.of_nat c) / inject_Z (Z.of_nat (S t)))
                  * 40)%Q).
Proof.
  intros [Hmono Hint] Hlo Hl.
  assert (Ht : (0 < inject_Z (Z.of_nat (S t)))%Q)
    by (rewrite <- (Zlt_Qlt 0); lia).
  assert (Hr : (inject_Z (Z.of_nat lo)
                <= inject_Z (Z.of_nat c) / inject_Z (Z.of_nat (S t)))%Q).
  { apply Qle_shift_div_l; [exact Ht|].
    rewrite <- inject_Z_mult, <- Zle_Qle, <- Nat2Z.inj_mul.
    now apply inj_le. }
  apply Hmono in Hr. rewrite Hint in Hr by lia.
  set (ratio := fl (inject_Z (Z.of_nat c) / inject_Z (Z.of_nat (S t)))%Q)
    in *.
  assert (Hp : (inject_Z (40 * Z.of_nat lo) <= ratio * 40)%Q)
    by (rewrite inject_Z_mult; change (inject_Z 40) with 40%Q; lra).
  apply Hmono in Hp. rewrite Hint in Hp by lia.
  unfold jsRound. rewrite <- (Qfloor_Z (40 * Z.of_nat lo)).
  apply Qfloor_resp_le. lra.
Qed.

Lemma filled_at_most fl (c t hi : nat) :
  rounding fl ->
  (c <= hi * S t)%nat -> (hi <= 1000)%nat ->
  jsRound (fl (fl (inject_Z (Z.of_nat c) / inject_Z (Z.of_nat (S t)))
               * 40)%Q)
  <= 40 * Z.of_nat hi.
Proof.
  intros [Hmono Hint] Hhi Hh.
  assert (Ht : (0 < inject_Z (Z.of_nat (S t)))%Q)
    by (rewrite <- (Zlt_Qlt 0); lia).
  assert (Hr : (inject_Z (Z.of_nat c) / inject_Z (Z.of_nat (S t))
                <= inject_Z (Z.of_nat hi))%Q).
  { apply Qle_shift_div_r; [exact Ht|].
    rewrite <- inject_Z_mult, <- Zle_Qle, <- Nat2Z.inj_mul.
    now apply inj_le. }
  apply Hmono in Hr. rewrite Hint in Hr by lia.
  set (ratio := fl (inject_Z (Z.of_nat c) / inject_Z (Z.of_nat (S t)))%Q)
    in *.
  assert (Hp : (ratio * 40 <= inject_Z (40 * Z.of_nat hi))%Q)
    by (rewrite inject_Z_mult; change (inject_Z 40) with 40%Q; lra).
  apply Hmono in Hp. rewrite Hint in Hp by lia.
  unfold jsRound.
  assert (H : (fl (ratio * 40) + (1 # 2)
               <= inject_Z (40 * Z.of_nat hi) + (1 # 2))%Q) by lra.
  apply Qfloor_resp_le in H. etransitivity; [exact H|].
  assert (E : (inject_Z (40 * Z.of_nat hi) + (1 # 2)
               == (2 * (40 * Z.of_nat hi) + 1) # 2)%Q).
  { unfold Qeq, Qplus, inject_Z. cbn [Qnum Qden]. lia. }
  rewrite E. unfold Qfloor.
  assert ((2 * (40 * Z.of_nat hi) + 1) / 2 < 40 * Z.of_nat hi + 1)
    by (apply Z.div_lt_upper_bound; lia).
  lia.
Qed.

Lemma rounding_unrounded : rounding unrounded.
Proof. split; [intros a b H; exact H | intros z _; reflexivity]. Qed.

Lemma progressBar_within fl (completed total : nat) :
  rounding fl ->
  (completed <= total)%nat -> (0 < total)%nat ->
  exists filled,
    progressBar fl completed total = Some (filled, 40 - filled) /\
    0 <= filled <= 40.
Proof.
  intros Hfl Hle Hpos. destruct total as [|t]; [lia|].
  rewrite progressBar_filled. cbv zeta.
  pose proof (filled_at_least fl completed t 0 Hfl) as H0.
  pose proof (filled_at_most fl completed t 1 Hfl) as H40.
  set (filled := jsRound _) in *.
  exists filled. split; [|lia].
  destruct (Z.ltb_spec (40 - filled) 0); [lia | reflexivity].
Qed.

(** X16: when [displayProgress] can draw its bar.  With binary64
    rounding, a tracker whose count of completed chunks does not exceed
    its total gets a bar of 40 cells, between 0 and 40 of them filled:
    none when nothing is complete, all when everything is.  A count of
    twice the total or more, and any count above a total of zero, makes
    [String.repeat] throw a [RangeError]; with both at zero the bar is
    empty. *)
Theorem progress_bar_needs_completed_within_total
    (fl : Q -> Q) (completed total : nat) :
  rounding fl ->
  ((completed <= total)%nat ->
   (0 < total)%nat ->
   exists filled,
     progressBar fl completed total = Some (filled, 40 - filled) /\
     0 <= filled <= 40) /\
  ((0 < total)%nat ->
   progressBar fl 0 total = Some (0, 40) /\
   progressBar fl total total = Some (40, 0)) /\
  progressBar fl 0 0 = Some (0, 0) /\
  ((0 < completed)%nat -> progressBar fl completed 0 = None) /\
  ((0 < total)%nat -> (2 * total <= completed)%nat ->
   progressBar fl completed total = None).
Proof.
  intros Hfl. split; [|split; [|split; [|split]]].
  - now apply progressBar_within.
  - intros Hpos. destruct total as [|t]; [lia|].
    rewrite !progressBar_filled. cbv zeta.
    pose proof (filled_at_least fl 0 t 0 Hfl) as Ha.
    pose proof (filled_at_most fl 0 t 0 Hfl) as Hb.
    pose proof (filled_at_least fl (S t) t 1 Hfl) as Hc.
    pose proof (filled_at_most fl (S t) t 1 Hfl) as Hd.
    split.
    + replace (jsRound _) with 0 by lia. reflexivity.
    + replace (jsRound _) with 40 by lia. reflexivity.
  - reflexivity.
  - intros Hpos. destruct completed; [lia | reflexivity].
  - intros Hpos Hbig. destruct total as [|t]; [lia|].
    rewrite progressBar_filled. cbv zeta.
    pose proof (filled_at_least fl completed t 2 Hfl) as H80.
    set (filled := jsRound _) in *.
    destruct (Z.ltb_spec (40 - filled) 0); [reflexivity | lia].
Qed.

Lemma progress_bar_needs_completed_within_total_witness :
  progressBar unrounded 1 2 = Some (20, 20) /\
  progressBar unrounded 3 2 = None /\
  (exists filled,
     progressBar unrounded 1 3 = Some (filled, 40 - filled) /\
     0 <= filled <= 40).
Proof.
  split; [reflexivity|]. split; [reflexivity|].
  apply (progress_bar_needs_completed_within_total unrounded 1 3).
  - split; [intros a b H; exact H | intros z _; reflexivity].
  - lia.
  - lia.
Defined.

(** ** Whole runs *)

Lemma run_unfold env fp options w document :
  w_document w = Some document ->
  extractLargeDocument env fp options w
  = finishRun env fp
      (fst (forEach (processOne env fp (chunksOf options document)
                       (fromOption (o_useStreaming options) false))
              (chunksToProcess (loadedCheckpoint env options w)
                 (List.length (chunksOf options document)))
              (fst (loopStart env fp options document w))
              (snd (loopStart env fp options document w))))
      (snd (forEach (processOne env fp (chunksOf options document)
                       (fromOption (o_useStreaming options) false))
              (chunksToProcess (loadedCheckpoint env options w)
                 (List.length (chunksOf options document)))
              (fst (loopStart env fp options document w))
              (snd (loopStart env fp options document w)))).
Proof.
  intros Hdoc. rewrite (extract_unfold _ _ _ _ _ Hdoc). cbv zeta.
  unfold loopStart.
  pose proof (load_spec env fp options w) as Hl.
  destruct ((if fromOption (o_resume options) true
             then loadCheckpoint env fp else ret None) w) as [c w1].
  destruct Hl as (<- & _).
  destruct (initProgress env c (List.length (chunksOf options document)) w1)
    as [p w2].
  cbn [fst snd].
  now destruct (forEach _ _ p w2).
Qed.

Lemma finishRun_files env fp p w :
  w_io (snd (finishRun env fp p w)) = S (w_io w) /\
  w_checkpoint (snd (finishRun env fp p w))
  = (if ioThrows env (w_io w) then w_checkpoint w else None).
Proof.
  unfold finishRun, displayProgress, displayBenchmark, clearCheckpoint,
    readHeap, bind, dateNow, nextIoThrows, emit, ret, setCheckpoint.
  cbn. destruct (ioThrows env (w_io w)); cbn; [now split|].
  destruct (w_checkpoint w) eqn:E; cbn; now split.
Qed.

Lemma todo_NoDup loaded n : NoDup (chunksToProcess loaded n).
Proof.
  unfold chunksToProcess. destruct loaded.
  - apply NoDup_filter, seq_NoDup.
  - apply seq_NoDup.
Qed.

Lemma todo_In loaded n i :
  In i (chunksToProcess loaded n) <->
  (i < n)%nat /\ ~ In i (listedIn loaded).
Proof.
  unfold chunksToProcess, listedIn. destruct loaded as [c|].
  - rewrite filter_In, in_seq, negb_true_iff.
    rewrite <- (existsb_eqb_In i (c_completedChunks c)).
    destruct (existsb (Nat.eqb i) (c_completedChunks c));
      intuition (lia || congruence).
  - rewrite in_seq. cbn. intuition lia.
Qed.

Lemma fits_partition loaded n :
  fits loaded n ->
  Permutation (listedIn loaded ++ chunksToProcess loaded n)
                          (seq 0 n).
Proof.
  intros Hfit.
  assert (Hnd : NoDup (listedIn loaded))
    by (destruct loaded; [apply Hfit | constructor]).
  assert (Hr : forall i, In i (listedIn loaded) -> (i < n)%nat)
    by (destruct loaded; [apply Hfit | easy]).
  apply NoDup_Permutation.
  - apply NoDup_app; [exact Hnd | apply todo_NoDup|].
    intros i Hi Ht. apply todo_In in Ht. tauto.
  - apply seq_NoDup.
  - intros i. rewrite in_app_iff, todo_In, in_seq.
    destruct (in_dec Nat.eq_dec i (listedIn loaded)) as [Hi|Hi].
    + specialize (Hr i Hi). intuition lia.
    + intuition lia.
Qed.

Lemma fits_length loaded n :
  fits loaded n ->
  (List.length (listedIn loaded)
   + List.length (chunksToProcess loaded n) = n)%nat.
Proof.
  intros Hfit. apply fits_partition in Hfit.
  apply Permutation_length in Hfit.
  now rewrite length_app, length_seq in Hfit.
Qed.

Lemma filter_length_le {A} (f : A -> bool) l :
  (List.length (filter f l) <= List.length l)%nat.
Proof.
  induction l as [|x l IH]; cbn; [lia|]. destruct (f x); cbn; lia.
Qed.

Lemma turns_counts env fp options document w k :
  p_totalChunks (fst (turns env fp options document w k))
  = List.length (chunksOf options document) /\
  (p_completedChunks (fst (turns env fp options document w k))
   <= List.length (listedIn (loadedCheckpoint env options w))
      + List.length
          (chunksToProcess (loadedCheckpoint env options w)
             (List.length (chunksOf options document))))%nat.
Proof.
  unfold turns.
  destruct (loopStart_spec env fp options document w)
    as (Hwf & _ & Hn & Hc & _).
  destruct (forEach _ (firstn k _) _ _) as [p wk] eqn:E.
  destruct (forEach_counts _ _ _ _ _ _ _ _ _ Hwf E)
    as (news & _ & Hidx & Hc' & _ & Ht & _).
  cbn [fst]. split; [congruence|].
  rewrite Hc', Hc.
  pose proof (filter_length_le success news) as Hle.
  apply (f_equal (@List.length _)) in Hidx.
  rewrite length_map, length_firstn in Hidx.
  replace (match loadedCheckpoint env options w with
           | Some c => List.length (c_completedChunks c)
           | None => 0%nat
           end)
    with (List.length (listedIn (loadedCheckpoint env options w)))
    by now destruct (loadedCheckpoint env options w).
  lia.
Qed.

(** X17: no call of [displayProgress] in a run throws when the
    checkpoint that the run loads fits the document, that is, lists no chunk
    twice and none beyond the chunks the document now has; a run that loads
    none is such a run.  After any number of turns of the loop the tracker
    has the present number of chunks as its total and a count of completed
    chunks within it, and the bar is drawn. *)
Theorem bars_drawn_throughout_run
    (fl : Q -> Q) (env : Env) (filePath : string) (options : Options)
    (document : string) (w : World) (k : nat) :
  rounding fl ->
  w_document w = Some document ->
  fits (loadedCheckpoint env options w)
       (List.length (chunksOf options document)) ->
  p_totalChunks (fst (turns env filePath options document w k))
  = List.length (chunksOf options document) /\
  (p_completedChunks (fst (turns env filePath options document w k))
   <= List.length (chunksOf options document))%nat /\
  exists cells,
    progressBar fl
      (p_completedChunks (fst (turns env filePath options document w k)))
      (p_totalChunks (fst (turns env filePath options document w k)))
    = Some cells.
Proof.
  intros Hfl _ Hfit.
  destruct (turns_counts env filePath options document w k) as (Ht & Hc).
  rewrite (fits_length _ _ Hfit) in Hc.
  split; [exact Ht|]. split; [exact Hc|]. rewrite Ht.
  set (p := fst (turns _ _ _ _ _ _)) in *.
  destruct (List.length (chunksOf options document)) as [|n] eqn:En.
  - assert (E : p_completedChunks p = 0%nat) by lia. rewrite E.
    now exists (0, 0).
  - destruct (progressBar_within fl (p_completedChunks p) (S n) Hfl Hc)
      as (filled & E & _); [lia|].
    now exists (filled, 40 - filled).
Qed.

Lemma bars_drawn_throughout_run_witness :
  exists cells,
    progressBar unrounded
      (p_completedChunks
         (fst (turns steadyEnv "essay.txt" smallChunks "A. B. C. D. E."
                 (freshWorld "A. B. C. D. E." (Some threeOfFive)) 1)))
      (p_totalChunks
         (fst (turns steadyEnv "essay.txt" smallChunks "A. B. C. D. E."
                 (freshWorld "A. B. C. D. E." (Some threeOfFive)) 1)))
    = Some cells.
Proof.
  apply (bars_drawn_throughout_run unrounded steadyEnv "essay.txt" smallChunks
           "A. B. C. D. E."
           (freshWorld "A. B. C. D. E." (Some threeOfFive)) 1).
  - split; [intros a b H; exact H | intros z _; reflexivity].
  - reflexivity.
  - vm_compute. split.
    + repeat constructor; cbn; intuition lia.
    + intros i Hi. cbn in Hi. intuition lia.
Defined.

Lemma filter_split_length {A} (f : A -> bool) l :
  (List.length (filter f l) + List.length (filter (fun x => negb (f x)) l)
   = List.length l)%nat.
Proof.
  induction l as [|x l IH]; [reflexivity|].
  cbn. destruct (f x); cbn; lia.
Qed.

(** X18: the counters of the tracker.  In a run that loads no checkpoint,
    or one that fits the document and is as [saveCheckpoint] writes it,
    the tracker's count of completed chunks is, after any number of turns,
    the number of results it holds with [success = true], and its count of
    failed chunks the number of the others: failures of the run that wrote
    the checkpoint are counted along, and the two counts add up to the
    number of results. *)
Theorem tracker_counts_match_results
    (env : Env) (filePath : string) (options : Options)
    (document : string) (w : World) (k : nat)
    (p : ProgressTracker) (wk : World) :
  w_document w = Some document ->
  fits (loadedCheckpoint env options w)
       (List.length (chunksOf options document)) ->
  selfWritten (loadedCheckpoint env options w) ->
  turns env filePath options document w k = (p, wk) ->
  counts p (derefAll (w_heap wk) (p_chunkResults p)) /\
  (p_completedChunks p + p_failedChunks p
   = List.length (p_chunkResults p))%nat /\
  exists news,
    derefAll (w_heap wk) (p_chunkResults p)
    = storedResults (loadedCheckpoint env options w) ++ news /\
    map chunkIndex news
    = firstn k (chunksToProcess (loadedCheckpoint env options w)
                  (List.length (chunksOf options document))).
Proof.
  intros _ _ Hself E. unfold turns in E.
  destruct (loopStart_spec env filePath options document w)
    as (Hwf & Hd & _ & Hc & Hf & _).
  destruct (forEach_counts _ _ _ _ _ _ _ _ _ Hwf E)
    as (news & Hd' & Hidx & Hc' & Hf' & _).
  rewrite Hd in Hd'.
  assert (Hcounts : counts p (derefAll (w_heap wk) (p_chunkResults p))).
  { unfold counts. rewrite Hd', !filter_app, !length_app, Hc', Hf', Hc, Hf.
    split; [|reflexivity]. f_equal.
    destruct (loadedCheckpoint env options w) as [c|]; [|reflexivity].
    cbn in Hself |- *. rewrite Hself. unfold completedOf.
    apply length_map. }
  split; [exact Hcounts|]. split; [|now exists news].
  destruct Hcounts as [-> ->].
  rewrite filter_split_length. unfold derefAll. apply length_map.
Qed.

Lemma tracker_counts_match_results_witness :
  counts (fst (turns failingEnv "essay.txt" smallChunks "A. B."
                 (freshWorld "A. B." None) 1))
         (derefAll
            (w_heap (snd (turns failingEnv "essay.txt" smallChunks "A. B."
                            (freshWorld "A. B." None) 1)))
            (p_chunkResults
               (fst (turns failingEnv "essay.txt" smallChunks "A. B."
                       (freshWorld "A. B." None) 1)))) /\
  p_failedChunks (fst (turns failingEnv "essay.txt" smallChunks "A. B."
                         (freshWorld "A. B." None) 1)) = 1%nat.
Proof.
  split; [|vm_compute; reflexivity].
  apply (tracker_counts_match_results failingEnv "essay.txt" smallChunks
           "A. B." (freshWorld "A. B." None) 1).
  - reflexivity.
  - exact I.
  - exact I.
  - apply surjective_pairing.
Defined.

(** X19: which chunks a run processes, for any checkpoint that fits the
    document.  The run calls [processChunk] once for each chunk that the
    checkpoint does not list, in increasing order; with the chunks listed
    these are all chunks of the document, each once.  It returns the
    reduction of the stored results followed by one new result for each of
    these chunks, and at its end the checkpoint file is gone unless
    deleting it threw. *)
Theorem run_processes_each_unlisted_chunk
    (env : Env) (filePath : string) (options : Options)
    (document : string) (w : World) :
  w_document w = Some document ->
  fits (loadedCheckpoint env options w)
       (List.length (chunksOf options document)) ->
  (exists news tr,
     map chunkIndex news
     = chunksToProcess (loadedCheckpoint env options w)
                       (List.length (chunksOf options document)) /\
     fst (extractLargeDocument env filePath options w)
     = Ok (reduceResults
             (storedResults (loadedCheckpoint env options w) ++ news)) /\
     w_trace (snd (extractLargeDocument env filePath options w))
     = w_trace w ++ tr /\
     invocations tr
     = chunksToProcess (loadedCheckpoint env options w)
                       (List.length (chunksOf options document))) /\
  Permutation
    (listedIn (loadedCheckpoint env options w)
     ++ chunksToProcess (loadedCheckpoint env options w)
                        (List.length (chunksOf options document)))
    (seq 0 (List.length (chunksOf options document))) /\
  (ioThrows env
     (w_io w + (if fromOption (o_resume options) true then 1 else 0)
      + List.length
          (chunksToProcess (loadedCheckpoint env options w)
             (List.length (chunksOf options document))))
   = false ->
   w_checkpoint (snd (extractLargeDocument env filePath options w)) = None).
Proof.
  intros Hdoc Hfit. split; [|split].
  - destruct (extract_spec env filePath options w document Hdoc)
      as (raws & news & tr & _ & Hidx & Hfst & Htr & Hinv & _).
    now exists news, tr.
  - now apply fits_partition.
  - rewrite (run_unfold _ _ _ _ _ Hdoc).
    destruct (loopStart_spec env filePath options document w)
      as (Hwf & _ & _ & _ & _ & Hio0 & _).
    destruct (forEach _ _ _ _) as [p3 w3] eqn:E.
    destruct (forEach_counts _ _ _ _ _ _ _ _ _ Hwf E)
      as (news & _ & _ & _ & _ & _ & _ & Hio & _).
    cbn [fst snd]. intros Hok.
    rewrite (proj2 (finishRun_files env filePath p3 w3)), Hio, Hio0, Hok.
    reflexivity.
Qed.

Lemma run_processes_each_unlisted_chunk_witness :
  w_checkpoint
    (snd (extractLargeDocument steadyEnv "essay.txt" smallChunks
            (freshWorld "A. B. C. D. E." (Some threeOfFive))))
  = None.
Proof.
  apply (run_processes_each_unlisted_chunk steadyEnv "essay.txt" smallChunks
           "A. B. C. D. E." (freshWorld "A. B. C. D. E." (Some threeOfFive))).
  - reflexivity.
  - vm_compute. split.
    + repeat constructor; cbn; intuition lia.
    + intros i Hi. cbn in Hi. intuition lia.
  - reflexivity.
Defined.

(** X20: a stored result that no longer belongs to the document stays.
    Let a run load a checkpoint that holds a successful result for a chunk
    index at or beyond the present number of chunks, lists no more chunks
    than the document now has, and leaves a chunk to process.  Then the
    first bar is drawn, and the checkpoint that the first turn of the loop
    writes lists that index as complete with the present, smaller number as
    [totalChunks]. *)
Theorem stale_result_enters_next_checkpoint
    (fl : Q -> Q) (env : Env) (filePath : string) (options : Options)
    (document : string) (w : World) (c : Checkpoint) (r : ChunkResult)
    (i : nat) (rest : list nat) :
  rounding fl ->
  w_document w = Some document ->
  loadedCheckpoint env options w = Some c ->
  In r (c_chunkResults c) ->
  success r = true ->
  (List.length (chunksOf options document) <= chunkIndex r)%nat ->
  chunksToProcess (Some c) (List.length (chunksOf options document))
  = i :: rest ->
  (List.length (c_completedChunks c)
   <= List.length (chunksOf options document))%nat ->
  ioThrows env (S (w_io w)) = false ->
  (exists cells,
     progressBar fl
       (p_completedChunks (fst (loopStart env filePath options document w)))
       (p_totalChunks (fst (loopStart env filePath options document w)))
     = Some cells) /\
  exists c',
    w_checkpoint
      (snd (processOne env filePath (chunksOf options document)
              (fromOption (o_useStreaming options) false)
              (fst (loopStart env filePath options document w)) i
              (snd (loopStart env filePath options document w))))
    = Some c' /\
    c_totalChunks c' = List.length (chunksOf options document) /\
    In (chunkIndex r) (c_completedChunks c') /\
    ~ completedInRange c'.
Proof.
  intros Hfl _ Hloaded Hr Hs Hstale Htodo Hlen Hio.
  destruct (loopStart_spec env filePath options document w)
    as (Hwf & Hd & Hn & Hc & _ & Hio0 & _).
  rewrite Hloaded in Hd, Hc. cbn [storedResults] in Hd.
  assert (Hres : fromOption (o_resume options) true = true).
  { unfold loadedCheckpoint in Hloaded.
    now destruct (fromOption (o_resume options) true). }
  rewrite Hres in Hio0.
  assert (Hpos : (0 < List.length (chunksOf options document))%nat).
  { assert (Hi : In i (chunksToProcess (Some c)
                         (List.length (chunksOf options document))))
      by (rewrite Htodo; now left).
    apply todo_In in Hi. lia. }
  split.
  - rewrite Hn, Hc.
    destruct (progressBar_within fl _ _ Hfl Hlen Hpos) as (filled & E & _).
    now exists (filled, 40 - filled).
  - destruct (processOne _ _ _ _ _ i _) as [p1 w1] eqn:E1. cbn [snd].
    destruct (processOne_spec _ _ _ _ _ _ _ _ _ Hwf E1)
      as (r0 & w0 & r' & n & tr1 & _ & _ & Hh1 & Hl1 & _).
    destruct (processOne_files _ _ _ _ _ _ _ _ _ E1)
      as (r0' & w0' & _ & _ & _ & _ & _ & Hck).
    replace (w_io (snd (loopStart env filePath options document w)))
      with (S (w_io w)) in Hck by lia.
    rewrite Hio in Hck.
    assert (Hd1 : derefAll (w_heap w1) (p_chunkResults p1)
                  = c_chunkResults c ++ [r'])
      by (rewrite Hh1, Hl1, <- Hd; now apply derefAll_snoc).
    eexists. split; [exact Hck|]. cbn [c_totalChunks c_completedChunks].
    assert (Hin : In (chunkIndex r)
                     (completedOf (derefAll (w_heap w1) (p_chunkResults p1)))).
    { apply completedOf_iff. exists r. rewrite Hd1, in_app_iff. tauto. }
    split; [exact Hn|]. split; [exact Hin|].
    intros Hrange. specialize (Hrange _ Hin). cbn in Hrange. lia.
Qed.

Lemma stale_result_enters_next_checkpoint_witness :
  exists c',
    w_checkpoint
      (snd (processOne steadyEnv "essay.txt" (chunksOf smallChunks "A. B.")
              false
              (fst (loopStart steadyEnv "essay.txt" smallChunks "A. B."
                      (freshWorld "A. B." (Some oneOfFive)))) 0
              (snd (loopStart steadyEnv "essay.txt" smallChunks "A. B."
                      (freshWorld "A. B." (Some oneOfFive))))))
    = Some c' /\
    c_totalChunks c' = 2%nat /\
    In 3%nat (c_completedChunks c') /\
    ~ completedInRange c'.
Proof.
  apply (stale_result_enters_next_checkpoint unrounded steadyEnv "essay.txt"
           smallChunks "A. B." (freshWorld "A. B." (Some oneOfFive))
           oneOfFive (done 3) 0 [1%nat]).
  - split; [intros a b H; exact H | intros z _; reflexivity].
  - reflexivity.
  - reflexivity.
  - cbn. tauto.
  - reflexivity.
  - vm_compute. lia.
  - reflexivity.
  - vm_compute. lia.
  - reflexivity.
Defined.

Lemma completedOf_app a b :
  completedOf (a ++ b) = completedOf a ++ completedOf b.
Proof. unfold completedOf. now rewrite filter_app, map_app. Qed.

Lemma NoDup_filter_map {A B} (f : A -> B) (g : A -> bool) l :
  NoDup (map f l) -> NoDup (map f (filter g l)).
Proof.
  induction l as [|x l IH]; cbn; [easy|]. intros H.
  apply NoDup_cons_iff in H. destruct H as [Hx Hl].
  destruct (g x); cbn; [|now apply IH].
  constructor; [|now apply IH].
  intros Hin. apply Hx. apply in_map_iff in Hin.
  destruct Hin as (y & <- & Hy). apply filter_In in Hy.
  now apply in_map.
Qed.

Lemma NoDup_firstn {A} k (l : list A) : NoDup l -> NoDup (firstn k l).
Proof.
  intros H. rewrite <- (firstn_skipn k l) in H.
  now apply NoDup_app_remove_r in H.
Qed.

(** X21: checkpoints stay usable.  When the checkpoint that a run loads
    fits the document and is as [saveCheckpoint] writes it (and when the run
    loads none), every checkpoint that the run writes is again of this
    kind: it lists no chunk twice, none beyond the chunks of the document,
    and exactly the chunks of its successful results. *)
Theorem written_checkpoints_fit
    (env : Env) (filePath : string) (options : Options)
    (document : string) (w : World) (tr : list Event) (c : Checkpoint) :
  w_document w = Some document ->
  fits (loadedCheckpoint env options w)
       (List.length (chunksOf options document)) ->
  selfWritten (loadedCheckpoint env options w) ->
  w_trace (snd (extractLargeDocument env filePath options w))
  = w_trace w ++ tr ->
  In c (written tr) ->
  fits (Some c) (List.length (chunksOf options document)) /\
  selfWritten (Some c) /\
  c_totalChunks c = List.length (chunksOf options document).
Proof.
  intros Hdoc Hfit Hself Htr Hc.
  destruct (extract_spec env filePath options w document Hdoc)
    as (raws & news & tr' & _ & Hidx & _ & Htr' & _ & _ & Hw).
  rewrite Htr in Htr'. apply app_inv_head in Htr'. subst tr'.
  destruct (Hw c Hc) as (Htot & [k Hres] & Hdone).
  cbv zeta in Hidx.
  split; [|split; [exact Hdone | exact Htot]].
  assert (Hlisted : completedOf (storedResults (loadedCheckpoint env options w))
                    = listedIn (loadedCheckpoint env options w)).
  { destruct (loadedCheckpoint env options w) as [c0|]; [|reflexivity].
    cbn in Hself |- *. now rewrite Hself. }
  assert (Hnew : forall i, In i (completedOf (firstn (S k) news)) ->
                   In i (chunksToProcess (loadedCheckpoint env options w)
                           (List.length (chunksOf options document)))).
  { intros i Hi. apply completedOf_iff in Hi.
    destruct Hi as (r & Hr & <- & _). apply In_firstn in Hr.
    rewrite <- Hidx. now apply in_map. }
  cbn [fits]. rewrite Hdone, Hres, completedOf_app, Hlisted. split.
  - apply NoDup_app.
    + destruct (loadedCheckpoint env options w); [apply Hfit | constructor].
    + unfold completedOf. apply NoDup_filter_map.
      rewrite <- firstn_map, Hidx. apply NoDup_firstn, todo_NoDup.
    + intros i Hi Hn. apply Hnew, todo_In in Hn. tauto.
  - intros i Hi. apply in_app_or in Hi. destruct Hi as [Hi|Hi].
    + destruct (loadedCheckpoint env options w); [now apply Hfit | easy].
    + apply Hnew, todo_In in Hi. tauto.
Qed.

Lemma written_checkpoints_fit_witness :
  fits (Some firstWritten) 2 /\ selfWritten (Some firstWritten) /\
  c_totalChunks firstWritten = 2%nat.
Proof.
  apply (written_checkpoints_fit steadyEnv "essay.txt" smallChunks "A. B."
           (freshWorld "A. B." None) (w_trace (snd freshRun)) firstWritten).
  - reflexivity.
  - exact I.
  - exact I.
  - vm_compute. reflexivity.
  - vm_compute. left. reflexivity.
Defined.

(** ** Resumed runs *)

Lemma join_within sep l s : In s l -> within s (join sep l).
Proof.
  unfold join, within. induction l as [|x l IH]; [easy|].
  intros [->|Hs].
  - destruct l as [|y l].
    + exists "", "". cbn. now rewrite append_empty_r.
    + exists "", (sep ++ String.concat sep (y :: l))%string. reflexivity.
  - destruct l as [|y l]; [easy|].
    destruct (IH Hs) as (pre & post & E).
    exists (x ++ sep ++ pre)%string, post.
    change (String.concat sep (x :: y :: l))
      with (x ++ sep ++ String.concat sep (y :: l))%string.
    rewrite E. now rewrite !append_assoc.
Qed.

Lemma summariesOf_app a b :
  summariesOf (a ++ b) = summariesOf a ++ summariesOf b.
Proof.
  unfold summariesOf. now rewrite filter_app, map_app, filter_app.
Qed.

Lemma reduceResults_summary rs :
  summary (reduceResults rs) = join " " (summariesOf rs).
Proof. reflexivity. Qed.

Lemma reduceResults_kept rs r :
  In r rs -> success r = true -> kept r (reduceResults rs).
Proof.
  intros Hr Hs. unfold kept.
  assert (Hset : forall f c,
            In c (f (result r)) ->
            In c (fold_left (fun set r => addAll set (f (result r)))
                            (filter success rs) [])).
  { intros f c Hc. apply collect_found. now exists r. }
  split; [intros c Hc; now apply (Hset companies)|].
  split; [intros c Hc; now apply (Hset business)|].
  split; [intros c Hc; now apply (Hset technical)|].
  split.
  - intros q Hq. unfold reduceResults. cbn [quotes].
    apply in_flat_map. exists r. split; [apply filter_In; now split | exact Hq].
  - intros Hne. rewrite reduceResults_summary. apply join_within.
    unfold summariesOf. apply filter_In. split; [|exact Hne].
    apply in_map_iff. exists r. split; [reflexivity|].
    apply filter_In. now split.
Qed.

Lemma reduceResults_summary_app a b :
  exists rest,
    summary (reduceResults (a ++ b))
    = (summary (reduceResults a) ++ rest)%string.
Proof.
  rewrite !reduceResults_summary, summariesOf_app.
  destruct (join_firstn_prefix " " (List.length (summariesOf a))
              (summariesOf a ++ summariesOf b)) as (rest & E).
  exists rest. rewrite E. rewrite firstn_app, Nat.sub_diag, firstn_all.
  cbn [firstn]. now rewrite app_nil_r.
Qed.

Lemma reduceResults_takeaway_app a b :
  (3 <= List.length (summariesOf a))%nat ->
  keyTakeaway (reduceResults (a ++ b)) = keyTakeaway (reduceResults a).
Proof.
  intros H. unfold reduceResults. cbn [keyTakeaway].
  fold (summariesOf (a ++ b)). fold (summariesOf a).
  rewrite summariesOf_app.
  assert (E : firstn 3 (summariesOf a ++ summariesOf b)
              = firstn 3 (summariesOf a)).
  { rewrite firstn_app.
    replace (3 - List.length (summariesOf a))%nat with 0%nat by lia.
    cbn [firstn]. now rewrite app_nil_r. }
  destruct (summariesOf a) as [|x l] eqn:Ea; [cbn in H; lia|].
  cbn [app]. cbn [app] in E. now rewrite E.
Qed.

(** The bar of every turn can be drawn when the loaded checkpoint fits. *)
Lemma turns_bar fl env fp options document w k :
  rounding fl ->
  fits (loadedCheckpoint env options w)
       (List.length (chunksOf options document)) ->
  exists cells,
    progressBar fl
      (p_completedChunks (fst (turns env fp options document w k)))
      (p_totalChunks (fst (turns env fp options document w k)))
    = Some cells.
Proof.
  intros Hfl Hfit.
  destruct (turns_counts env fp options document w k) as (Ht & Hc).
  rewrite (fits_length _ _ Hfit) in Hc. rewrite Ht.
  set (p := fst (turns _ _ _ _ _ _)) in *.
  destruct (List.length (chunksOf options document)) as [|n] eqn:En.
  - assert (E : p_completedChunks p = 0%nat) by lia. rewrite E.
    now exists (0, 0).
  - destruct (progressBar_within fl (p_completedChunks p) (S n) Hfl Hc)
      as (filled & E & _); [lia|].
    now exists (filled, 40 - filled).
Qed.

(** C5: with chunks 0, 1 and 2 recorded as complete, each once, and five
    chunks in the document, a resumed run calls [processChunk] for chunk 3
    and then for chunk 4 and makes no extraction call for another chunk;
    the bar of every turn can be drawn, so the run comes to its end.  The
    value it returns is the reduction of the stored results, as they were
    loaded, followed by the two new ones.  Of the stored results it keeps
    this: the companies, the concepts and the quotes they reduce to open
    the corresponding lists of the value, their combined summary opens its
    summary, their key takeaway is its key takeaway when three of them
    have a summary, and every stored result with [success = true] has its
    companies, concepts, quotes and summary in the value. *)
Theorem resume_processes_remaining
    (env : Env) (filePath : string) (options : Options) (w : World)
    (document : string) (c : Checkpoint) :
  w_document w = Some document ->
  fromOption (o_resume options) true = true ->
  ioThrows env (w_io w) = false ->
  w_checkpoint w = Some c ->
  NoDup (c_completedChunks c) ->
  (forall i, In i (c_completedChunks c) <-> (i < 3)%nat) ->
  List.length (chunksOf options document) = 5%nat ->
  exists r3 r4 tr final,
    chunkIndex r3 = 3%nat /\ chunkIndex r4 = 4%nat /\
    fst (extractLargeDocument env filePath options w) = Ok final /\
    final = reduceResults (c_chunkResults c ++ [r3; r4]) /\
    w_trace (snd (extractLargeDocument env filePath options w))
      = w_trace w ++ tr /\
    invocations tr = [3; 4]%nat /\
    (forall i, In i (extractedChunks tr) -> i = 3%nat \/ i = 4%nat) /\
    (forall fl k, rounding fl ->
       exists cells,
         progressBar fl
           (p_completedChunks
              (fst (turns env filePath options document w k)))
           (p_totalChunks (fst (turns env filePath options document w k)))
         = Some cells) /\
    carried (reduceResults (c_chunkResults c)) final /\
    (exists rest,
       summary final
       = (summary (reduceResults (c_chunkResults c)) ++ rest)%string) /\
    ((3 <= List.length (summariesOf (c_chunkResults c)))%nat ->
     keyTakeaway final = keyTakeaway (reduceResults (c_chunkResults c))) /\
    (forall r, In r (c_chunkResults c) -> success r = true ->
               kept r final).
Proof.
  intros Hdoc Hres Hio Hck Hnd Hdone Hlen.
  destruct (extract_spec env filePath options w document Hdoc)
    as (raws & news & tr & _ & Hidx & Hfst & Htr & Hinv & Hex & _).
  assert (Hloaded : loadedCheckpoint env options w = Some c)
    by (unfold loadedCheckpoint; now rewrite Hres, Hio).
  assert (Htodo : chunksToProcess (Some c) 5 = [3; 4]%nat).
  { unfold chunksToProcess. cbn [seq filter].
    assert (Hb : forall i, existsb (Nat.eqb i) (c_completedChunks c)
                           = (i <? 3)%nat).
    { intros i. destruct (Nat.ltb_spec i 3) as [Hi|Hi].
      - apply existsb_eqb_In, Hdone, Hi.
      - destruct (existsb (Nat.eqb i) (c_completedChunks c)) eqn:E;
          [|reflexivity].
        apply existsb_eqb_In, Hdone in E. lia. }
    rewrite !Hb. reflexivity. }
  assert (Hfit : fits (loadedCheckpoint env options w)
                      (List.length (chunksOf options document))).
  { rewrite Hloaded, Hlen. split; [exact Hnd|].
    intros i Hi. apply Hdone in Hi. lia. }
  rewrite Hloaded, Hlen, Htodo in *.
  destruct news as [|r3 [|r4 [|r5 news]]]; try discriminate Hidx.
  injection Hidx as H3 H4. cbn [storedResults] in Hfst.
  exists r3, r4, tr, (reduceResults (c_chunkResults c ++ [r3; r4])).
  split; [exact H3|]. split; [exact H4|]. split; [exact Hfst|].
  split; [reflexivity|]. split; [exact Htr|]. split; [exact Hinv|].
  split; [intros i Hi; apply Hex in Hi; cbn in Hi; intuition|].
  split.
  { intros fl k Hfl. apply turns_bar; [exact Hfl|].
    rewrite Hloaded, Hlen. exact Hfit. }
  split; [apply reduceResults_carried|].
  split; [apply reduceResults_summary_app|].
  split; [apply reduceResults_takeaway_app|].
  intros r Hr Hs. apply reduceResults_kept; [|exact Hs].
  apply in_or_app. now left.
Qed.

Lemma resume_processes_remaining_witness :
  exists tr final,
    fst (extractLargeDocument steadyEnv "essay.txt" smallChunks
           (freshWorld "A. B. C. D. E." (Some threeOfFive)))
      = Ok final /\
    final = reduceResults [done 0; done 1; done 2; done 3; done 4] /\
    summary final = "A summary. A summary. A summary. A summary. A summary." /\
    keyTakeaway final = "A summary. A summary. A summary." /\
    List.length (quotes final) = 5%nat /\
    w_trace (snd (extractLargeDocument steadyEnv "essay.txt" smallChunks
                    (freshWorld "A. B. C. D. E." (Some threeOfFive))))
      = [] ++ tr /\
    invocations tr = [3; 4]%nat /\
    kept (done 0) final.
Proof.
  destruct (resume_processes_remaining steadyEnv "essay.txt" smallChunks
              (freshWorld "A. B. C. D. E." (Some threeOfFive))
              "A. B. C. D. E." threeOfFive)
    as (r3 & r4 & tr & final & _ & _ & Hfst & _ & Htr & Hinv & _ & _ & _ & _
        & _ & Hkept);
    try reflexivity.
  - repeat constructor; cbn; intuition lia.
  - intros i. cbn. lia.
  - assert (E : fst (extractLargeDocument steadyEnv "essay.txt" smallChunks
                       (freshWorld "A. B. C. D. E." (Some threeOfFive)))
                = Ok (reduceResults [done 0; done 1; done 2; done 3; done 4]))
      by (vm_compute; reflexivity).
    assert (Ef : final = reduceResults [done 0; done 1; done 2; done 3; done 4])
      by (rewrite Hfst in E; now injection E).
    exists tr, final.
    split; [exact Hfst|]. split; [exact Ef|].
    split; [rewrite Ef; vm_compute; reflexivity|].
    split; [rewrite Ef; vm_compute; reflexivity|].
    split; [rewrite Ef; vm_compute; reflexivity|].
    split; [exact Htr|]. split; [exact Hinv|].
    apply Hkept; [now left | reflexivity].
Defined.

(** C7 as stated fails.  The checkpoint [oneOfFive] was left by a run over
    five chunks and lists chunk 3; the document now has two chunks.  In
    the run that resumes from it the tracker counts 1 completed chunk of 2
    before and after every turn, so every bar is drawn and the run returns;
    the checkpoints it writes list chunk 3 as complete while their
    [totalChunks] is 2. *)
Lemma stale_checkpoint_listed_out_of_range :
  (forall k, p_completedChunks (shrunkTracker k) = 1%nat /\
             p_totalChunks (shrunkTracker k) = 2%nat) /\
  (forall fl k, rounding fl ->
     exists cells,
       progressBar fl (p_completedChunks (shrunkTracker k))
                   (p_totalChunks (shrunkTracker k))
       = Some cells) /\
  (exists final, fst shrunkRun = Ok final) /\
  exists c,
    In (EvCheckpointWritten c) (w_trace (snd shrunkRun)) /\
    c_totalChunks c = 2%nat /\ In 3%nat (c_completedChunks c) /\
    ~ completedInRange c.
Proof.
  assert (Hk : forall k, p_completedChunks (shrunkTracker k) = 1%nat /\
                         p_totalChunks (shrunkTracker k) = 2%nat).
  { intros k.
    assert (E : forall j, shrunkTracker (S (S j)) = shrunkTracker 2).
    { intros j. unfold shrunkTracker, turns.
      assert (Et : chunksToProcess
                     (loadedCheckpoint failingEnv smallChunks
                        (freshWorld "A. B." (Some oneOfFive)))
                     (List.length (chunksOf smallChunks "A. B."))
                   = [0; 1]%nat) by (vm_compute; reflexivity).
      rewrite Et. cbn [firstn]. now rewrite firstn_nil. }
    destruct k as [|[|k]]; [| |rewrite E]; vm_compute; split; reflexivity. }
  split; [exact Hk|]. split; [|split].
  - intros fl k Hfl. destruct (Hk k) as [-> ->].
    destruct (progressBar_within fl 1 2 Hfl) as (filled & E & _); [lia | lia|].
    now exists (filled, 40 - filled).
  - vm_compute. eexists. reflexivity.
  - vm_compute. eexists.
    split; [repeat (first [left; reflexivity | right])|].
    split; [reflexivity|]. split; [tauto|].
    intros H. specialize (H 3%nat).
    assert (3 < 2)%nat by (apply H; tauto). lia.
Qed.

(** C8: [reduceResults] reads the results with [success = true] and no
    others, so the summary of a failed result can be replaced by any text,
    or the result removed, without changing the aggregate.  For a run of
    [extractLargeDocument] whose checkpoint fits the document, the value
    returned is the reduction of the successful results among those
    loaded from the checkpoint and those returned by [processChunk], each
    of the latter carrying a payload from the extraction call; and two
    such runs from the same world whose environments differ only in what
    the text generation calls answer, hence in the fallback summaries,
    return the same value. *)
Theorem reduce_ignores_failed :
  (forall rs, reduceResults rs = reduceResults (filter success rs)) /\
  (forall rs1 r rs2 s,
     success r = false ->
     reduceResults (rs1 ++ withSummary s r :: rs2)
       = reduceResults (rs1 ++ rs2) /\
     reduceResults (rs1 ++ r :: rs2) = reduceResults (rs1 ++ rs2)) /\
  (forall env filePath options w document,
     w_document w = Some document ->
     fits (loadedCheckpoint env options w)
          (List.length (chunksOf options document)) ->
     exists raws,
       Forall (fun r0 =>
                 success r0 = true ->
                 exists k us, objectReply env k us = Ok (result r0)) raws /\
       map chunkIndex raws
         = chunksToProcess (loadedCheckpoint env options w)
                           (List.length (chunksOf options document)) /\
       fst (extractLargeDocument env filePath options w)
         = Ok (reduceResults
                 (filter success
                    (storedResults (loadedCheckpoint env options w)
                     ++ raws)))) /\
  (forall env env' filePath options w,
     sameButText env env' ->
     (forall document,
        w_document w = Some document ->
        fits (loadedCheckpoint env options w)
             (List.length (chunksOf options document))) ->
     fst (extractLargeDocument env filePath options w)
       = fst (extractLargeDocument env' filePath options w)).
Proof.
  split; [|split; [|split]].
  - intros rs. apply reduceResults_ext. symmetry. apply filter_idem.
  - intros rs1 r rs2 s Hs.
    split; apply reduceResults_ext; rewrite !filter_app; cbn;
      now rewrite Hs.
  - intros env filePath options w document Hdoc _.
    destruct (extract_spec env filePath options w document Hdoc)
      as (raws & news & tr & Hst & Hidx & Hfst & _).
    exists raws. split; [|split].
    + clear -Hst. induction Hst as [|r0 r raws news [Hp _] _ IH];
        constructor; [|exact IH].
      intros Hs. destruct Hp as [(_ & k & Hk)|(Hf & _)]; [|congruence].
      now exists k, (fromOption (o_useStreaming options) false).
    + cbv zeta in Hidx. rewrite <- Hidx. clear -Hst.
      induction Hst as [|r0 r raws news [_ Hr] _ IH]; [reflexivity|].
      cbn. rewrite IH. f_equal.
      destruct Hr as [->|(_ & s & ->)]; reflexivity.
    + rewrite Hfst. f_equal. apply reduceResults_ext.
      rewrite filter_idem, !filter_app. f_equal.
      eapply storedFor_success. exact Hst.
  - intros env env' filePath options w Hsame _.
    now apply run_independent_of_text.
Qed.

Lemma reduce_ignores_failed_witness :
  fst (extractLargeDocument quietEnv "essay.txt" smallChunks
         (freshWorld "A. B." None))
  = fst (extractLargeDocument loudEnv "essay.txt" smallChunks
           (freshWorld "A. B." None)) /\
  fst (extractLargeDocument loudEnv "essay.txt" smallChunks
         (freshWorld "A. B." None))
  = Ok (reduceResults [done 1]) /\
  summary (reduceResults [done 1]) = "A summary.".
Proof.
  split; [|split; vm_compute; reflexivity].
  apply (proj2 (proj2 (proj2 reduce_ignores_failed))
           quietEnv loudEnv "essay.txt" smallChunks
           (freshWorld "A. B." None)).
  - split; [|split]; intros; reflexivity.
  - intros document _. exact I.
Defined.

End ExtractorProofs.

(** * Properties of the comparison script *)

Module ComparisonProofs.

Import Router.
Import RouterProofs.
Import Comparison.
Local Open Scope Q_scope.

Lemma recorded_twice fast slow st :
  In fast (recordTelemetry slow (recordTelemetry fast st)) /\
  In slow (recordTelemetry slow (recordTelemetry fast st)).
Proof.
  split.
  - destruct (recordTelemetry_snoc fast st) as [older ->].
    unfold recordTelemetry.
    destruct (Nat.ltb MAX_TELEMETRY_ENTRIES
                (List.length ((older ++ [fast]) ++ [slow]))) eqn:E.
    + destruct older as [|x older].
      * cbn in E. discriminate E.
      * cbn [app tl]. rewrite !in_app_iff. cbn. tauto.
    + rewrite !in_app_iff. cbn. tauto.
  - destruct (recordTelemetry_snoc slow (recordTelemetry fast st))
      as [older ->].
    rewrite in_app_iff. cbn. tauto.
Qed.

Lemma measure_spec env name s :
  exists entry,
    measure env name s
    = (success entry,
       mkState (recordTelemetry entry (telemetryStore s)) (S (calls s))
               (S (S (S (ticks s))))) /\
    t_model entry = name /\ t_task entry = "reasoning" /\
    latencyMs entry = clock env (S (ticks s)) - clock env (ticks s) /\
    (success entry = true <->
     exists text, generateText env (calls s) = Extractor.Ok text) /\
    (success entry = false ->
     inputTokens entry = 0 /\ outputTokens entry = 0 /\ t_cost entry = 0) /\
    (success entry = true ->
     forall c,
       Comparison.estimateCost name (inputTokens entry) (outputTokens entry)
       = Some c ->
       t_cost entry = c).
Proof.
  unfold measure. cbv zeta.
  destruct (generateText env (calls s)) as [text|message]; eexists;
    (split; [reflexivity|]); cbn.
  - repeat split; try discriminate.
    + intros _. now exists text.
    + intros _ c ->. reflexivity.
  - repeat split; try discriminate.
    intros [text H]. discriminate H.
Qed.

(** X25: the cost table of the comparison script agrees with the model
    registry of the router.  For each of the four registry models and any
    token counts, the script's [estimateCost] of the model's full name is
    the router's [estimateCost] of the model; a name that is neither a key
    of the script's table nor inherited from [Object.prototype] is charged
    as [openai/gpt-5-mini]. *)
Theorem comparison_costs_match_registry (inputTokens outputTokens : Q) :
  (forall m, In m MODEL_REGISTRY ->
     Comparison.estimateCost (fullName m) inputTokens outputTokens
     = Some (Router.estimateCost m inputTokens outputTokens)) /\
  (forall name,
     ~ In name (map fst costMap) -> ~ In name inherited ->
     Comparison.estimateCost name inputTokens outputTokens
     = Some (Router.estimateCost gpt5mini inputTokens outputTokens)).
Proof.
  split.
  - intros m Hm. cbn in Hm.
    destruct Hm as [<-|[<-|[<-|[<-|[]]]]]; reflexivity.
  - intros name Hkey Hinh. unfold Comparison.estimateCost.
    assert (Hf : find (fun e => String.eqb (fst e) name) costMap = None).
    { destruct (find _ costMap) as [[k c]|] eqn:E; [|reflexivity].
      apply find_some in E. destruct E as [Hin Heq]. cbn in Heq.
      apply String.eqb_eq in Heq. subst k. elim Hkey.
      now apply (in_map fst) in Hin. }
    assert (Hi : existsb (String.eqb name) inherited = false).
    { destruct (existsb (String.eqb name) inherited) eqn:E; [|reflexivity].
      apply existsb_exists in E. destruct E as (x & Hx & Heq).
      apply String.eqb_eq in Heq. now subst x. }
    rewrite Hf, Hi. reflexivity.
Qed.

(** X26: what the comparison script leaves in the log.  Whatever the two
    calls answer, the script records exactly one entry for
    [openai/gpt-5.1-thinking] and then one for [openai/gpt-5-mini], both
    under the task [reasoning]; an entry has [success = true] exactly when
    its call returned, its cost is then what the router estimates for that
    model and the recorded token counts, and a failed call is recorded with
    no tokens and no cost.  The script prints statistics exactly when both
    calls returned, and then the statistics of both models exist. *)
Theorem comparison_records_both_calls (env : Env) (s : State) :
  exists fast slow,
    telemetryStore (snd (compareFastVsReasoning env s))
    = recordTelemetry slow (recordTelemetry fast (telemetryStore s)) /\
    t_model fast = fullName gpt51thinking /\
    t_model slow = fullName gpt5mini /\
    t_task fast = "reasoning" /\ t_task slow = "reasoning" /\
    (success fast = true <->
     exists text, generateText env (calls s) = Extractor.Ok text) /\
    (success slow = true <->
     exists text, generateText env (S (calls s)) = Extractor.Ok text) /\
    (success fast = true ->
     t_cost fast
     = Router.estimateCost gpt51thinking (inputTokens fast)
                           (outputTokens fast)) /\
    (success slow = true ->
     t_cost slow
     = Router.estimateCost gpt5mini (inputTokens slow) (outputTokens slow)) /\
    (success fast = false ->
     inputTokens fast = 0 /\ outputTokens fast = 0 /\ t_cost fast = 0) /\
    (success slow = false ->
     inputTokens slow = 0 /\ outputTokens slow = 0 /\ t_cost slow = 0) /\
    (fst (compareFastVsReasoning env s) = None <->
     success fast && success slow = false) /\
    forall stats,
      fst (compareFastVsReasoning env s) = Some stats ->
      fst stats <> None /\ snd stats <> None.
Proof.
  unfold compareFastVsReasoning.
  destruct (measure_spec env "openai/gpt-5.1-thinking" s)
    as (fast & E1 & Hm1 & Ht1 & _ & Hs1 & Hf1 & Hc1).
  rewrite E1.
  set (s1 := mkState _ _ _) in *.
  destruct (measure_spec env "openai/gpt-5-mini" s1)
    as (slow & E2 & Hm2 & Ht2 & _ & Hs2 & Hf2 & Hc2).
  rewrite E2. cbn [fst snd telemetryStore].
  exists fast, slow.
  split; [reflexivity|]. split; [exact Hm1|]. split; [exact Hm2|].
  split; [exact Ht1|]. split; [exact Ht2|]. split; [exact Hs1|].
  split; [exact Hs2|]. split.
  { intros H. apply (Hc1 H). reflexivity. }
  split.
  { intros H. apply (Hc2 H). reflexivity. }
  split; [exact Hf1|]. split; [exact Hf2|]. split.
  - destruct (success fast && success slow); split; easy.
  - intros stats H.
    destruct (success fast && success slow) eqn:E; [|discriminate H].
    injection H as <-. cbn [fst snd].
    destruct (recorded_twice fast slow (telemetryStore s)) as [Hfast Hslow].
    split; intros Hnone;
      pose proof (proj1 (getModelStats_None_iff _ _) Hnone) as Hn.
    + now apply (Hn fast Hfast).
    + now apply (Hn slow Hslow).
Qed.

Lemma comparison_records_both_calls_witness :
  List.length
    (telemetryStore
       (snd (compareFastVsReasoning halfAnswering (mkState [] 0 0))))
  = 2%nat /\
  fst (compareFastVsReasoning halfAnswering (mkState [] 0 0)) = None /\
  exists fast slow,
    telemetryStore
      (snd (compareFastVsReasoning halfAnswering (mkState [] 0 0)))
    = recordTelemetry slow (recordTelemetry fast []) /\
    t_model fast = fullName gpt51thinking /\
    t_model slow = fullName gpt5mini.
Proof.
  split; [reflexivity|]. split; [reflexivity|].
  destruct (comparison_records_both_calls halfAnswering (mkState [] 0 0))
    as (fast & slow & E & Hf & Hs & _).
  exists fast, slow. split; [exact E|]. split; [exact Hf | exact Hs].
Defined.

End ComparisonProofs.
